(** * kluctl: the apply engine, the command teardown and the variable loader

    A shallow embedding of
    - [pkg/deployment/apply_utils.go]   (the apply worker, the hook wait and
                                         the deployment scheduler),
    - [cmd/kluctl/commands] project setup (its deferred teardown),
    - [pkg/vars/vars_loader.go]         (the variable loader),
    followed by the properties established about them.

    Stateful Go methods on [*applyUtil] become functions in a small
    state-and-trace monad: the state is the [applyUtil] struct (with the
    cluster behind the Kubernetes client), the trace is the list of client
    calls and log lines the method issued, in order. *)

From Stdlib Require Import ZArith Ascii.
From stdpp Require Import gmap strings list fin_maps pretty.

Local Open Scope string_scope.
Local Open Scope list_scope.
Local Open Scope Z_scope.

(* ===================================================================== *)
(** * Part I: definitions                                                *)
(* ===================================================================== *)

(** ** Kubernetes-side data: references, objects, errors *)

Module types.

  (** [types.ObjectRef]: group, version, kind, name, namespace. *)
Record ObjectRef := mkRef {
    Group : string;
    Version : string;
    Kind : string;
    Name : string;
    Namespace : string;
  }.

#[global] Instance ObjectRef_eq_dec : EqDecision ObjectRef.
Proof. solve_decision. Defined.

#[global] Instance ObjectRef_countable : Countable ObjectRef.
Proof.
    refine (inj_countable'
              (λ r, (Group r, Version r, Kind r, Name r, Namespace r))
              (λ '(g, v, k, n, ns), mkRef g v k n ns) _).
    by intros [].
Defined.

  (** [unstructured.Unstructured], reduced to what the engine reads: the
      identity, [metadata.resourceVersion], the annotations and the rest of
      the document. *)
Record Unstructured := mkObj {
    ref : ObjectRef;
    resourceVersion : string;
    annotations : list (string * string);
    data : list (string * string);
  }.

#[global] Instance Unstructured_eq_dec : EqDecision Unstructured.
Proof. solve_decision. Defined.

Definition RefFromObject (x : Unstructured) : ObjectRef := ref x.

Definition GetResourceVersion (x : Unstructured) : string := resourceVersion x.

Definition SetResourceVersion (x : Unstructured) (rv : string) : Unstructured :=
    mkObj (ref x) rv (annotations x) (data x).

End types.
Export types.

Module uo.
  (** [uo.CopyUnstructured]: a deep copy is the same value at a fresh
      address; values carry no address here. *)
Definition CopyUnstructured (x : Unstructured) : Unstructured := x.
End uo.

(** [k8s.io/apimachinery/pkg/api/errors] and [.../api/meta]: the error
    values the engine classifies. *)
Module errors.

Inductive StatusReason :=
  | StatusReasonUnknown
  | StatusReasonConflict
  | StatusReasonNotFound
  | StatusReasonInvalid
  | StatusReasonForbidden.

#[global] Instance StatusReason_eq_dec : EqDecision StatusReason.
Proof. solve_decision. Defined.

  (** [metav1.Status] *)
Record Status := mkStatus {
    Reason : StatusReason;
    Code : Z;
    Message : string;
    Causes : list (string * string);   (* field path, message *)
  }.

#[global] Instance Status_eq_dec : EqDecision Status.
Proof. solve_decision. Defined.

Inductive error :=
  | StatusError (ErrStatus : Status)          (* errors.StatusError *)
  | NoKindMatchError (kind : string)          (* meta.NoKindMatchError *)
  | errorString (msg : string)                (* fmt.Errorf / errors.New *)
  | wrapError (msg : string) (inner : error). (* fmt.Errorf with a wrapped cause *)

#[global] Instance error_eq_dec : EqDecision error.
Proof. solve_decision. Defined.

  (** [errors.ReasonForError]: the reason of the first API status in the
      error chain. *)
Fixpoint ReasonForError (err : error) : StatusReason :=
    match err with
    | StatusError st => Reason st
    | wrapError _ inner => ReasonForError inner
    | _ => StatusReasonUnknown
    end.

Definition IsConflict (err : error) : bool :=
    bool_decide (ReasonForError err = StatusReasonConflict).

Definition IsNotFound (err : error) : bool :=
    bool_decide (ReasonForError err = StatusReasonNotFound).

  (** [err.Error()] *)
Fixpoint Error_ (err : error) : string :=
    match err with
    | StatusError st => Message st
    | NoKindMatchError kind => "no matches for kind " +:+ kind
    | errorString msg => msg
    | wrapError msg inner => msg +:+ ": " +:+ Error_ inner
    end.

(** The type assertion of [err] to a pointer to [errors.StatusError]. *)
Definition asStatusError (err : error) : option Status :=
    match err with
    | StatusError st => Some st
    | _ => None
    end.

End errors.
Export errors.

Module meta.
Fixpoint IsNoMatchError (err : error) : bool :=
    match err with
    | NoKindMatchError _ => true
    | wrapError _ inner => IsNoMatchError inner
    | _ => false
    end.
End meta.

(** ** The Kubernetes client, [pkg/k8s] *)

Module k8s.

Definition ApiWarning := string.

Module DeleteOptions.
Record t := mk { ForceDryRun : bool }.
End DeleteOptions.

Module PatchOptions.
Record t := mk { ForceDryRun : bool; ForceApply : bool }.
End PatchOptions.

Module UpdateOptions.
Record t := mk { ForceDryRun : bool }.
End UpdateOptions.

  (** [k8s.K8sCluster] as the engine uses it. [W] is everything behind the
      client: the cluster and the wall clock. A call takes the world to a
      new world and returns what the Go method returns; a failed call
      returns [inr err]. *)
Class K8sCluster (W : Type) := {
    FixObjectForPatch : Unstructured → Unstructured;
    DeleteSingleObject :
      ObjectRef → DeleteOptions.t → W → W * (list ApiWarning * option error);
    PatchObject :
      Unstructured → PatchOptions.t → W → W * (list ApiWarning * (Unstructured + error));
    UpdateObject :
      Unstructured → UpdateOptions.t → W → W * (list ApiWarning * (Unstructured + error));
    GetSingleObject :
      ObjectRef → W → W * (list ApiWarning * (Unstructured + error));
    (** [time.Now], in nanoseconds, and [time.Sleep]. *)
    Now : W → Z;
    Sleep : Z → W → W;
  }.

End k8s.
Export k8s.

(** [time.Duration] is an int64 count of nanoseconds; [Time.Sub] saturates. *)
Module gotime.
Definition Millisecond : Z := 1000000.
Definition maxDuration : Z := 2 ^ 63 - 1.
Definition minDuration : Z := - 2 ^ 63.
Definition Sub (t u : Z) : Z :=
    let d := t - u in
    if d <? minDuration then minDuration
    else if maxDuration <? d then maxDuration
    else d.
End gotime.

(** [pkg/diff] and [pkg/validation], as far as the engine calls them. *)
Module diff.
Record LostOwnership := mkLost { Field : string; Message : string }.

Class Resolver := {
    ResolveFieldManagerConflicts :
      Unstructured → option Unstructured → Status →
      (Unstructured * list LostOwnership) + error;
  }.
End diff.

Module validation.
Record ValidateResultEntry := mkEntry { Error : string }.

Record ValidateResult := mkResult {
    Ready : bool;
    Errors : list ValidateResultEntry;
  }.

Class Validator := {
    ValidateObject : Unstructured → bool → ValidateResult;
  }.
End validation.

(** ** [pkg/deployment]: the deployment collection *)

Module deployment.

Record DeploymentItemConfig := mkConfig {
    Path : option string;
    Barrier : option bool;
  }.

Record deploymentItem := mkItem {
    config : DeploymentItemConfig;
    objects : list Unstructured;
    relToProjectItemDir : string;
  }.

  (** The fields of [DeploymentCollection] the engine reaches: the ordered
      items, the Remote Object Cache and the Error/Warning Ledger. *)
Record DeploymentCollection := mkCollection {
    deployments : list deploymentItem;
    remoteObjects : gmap ObjectRef Unstructured;
    errors : gmap ObjectRef (list error);
    warnings : gmap ObjectRef (list error);
    apiWarnings : gmap ObjectRef (list ApiWarning);
  }.

  (** Modelled from the spec: [DeploymentCollection.getRemoteObject] is not
      part of the sources at hand. The Remote Object Cache exposes
      [get(ref) -> ManagedObject | none] and is never written during apply. *)
Definition getRemoteObject (c : DeploymentCollection) (r : ObjectRef)
    : option Unstructured :=
    remoteObjects c !! r.

  (** Modelled from the spec: [DeploymentCollection.addError], [addWarning],
      [addApiWarnings] and [hadError] are not part of the sources at hand.
      The ledger maps a reference to a sequence of records, append-only, in
      insertion order; [has_error] tells whether any error was recorded for
      the reference. *)
Definition addError (r : ObjectRef) (err : error) (c : DeploymentCollection)
    : DeploymentCollection :=
    mkCollection (deployments c) (remoteObjects c)
      (<[r := default [] (errors c !! r) ++ [err]]> (errors c))
      (warnings c) (apiWarnings c).

Definition addWarning (r : ObjectRef) (w : error) (c : DeploymentCollection)
    : DeploymentCollection :=
    mkCollection (deployments c) (remoteObjects c) (errors c)
      (<[r := default [] (warnings c !! r) ++ [w]]> (warnings c))
      (apiWarnings c).

Definition addApiWarnings (r : ObjectRef) (ws : list ApiWarning)
      (c : DeploymentCollection) : DeploymentCollection :=
    mkCollection (deployments c) (remoteObjects c) (errors c) (warnings c)
      (<[r := default [] (apiWarnings c !! r) ++ ws]> (apiWarnings c)).

Definition hadError_in (c : DeploymentCollection) (r : ObjectRef) : bool :=
    bool_decide (default [] (errors c !! r) ≠ []).

  (** The errors recorded so far for one reference. *)
Definition errorsOf (c : DeploymentCollection) (r : ObjectRef) : list error :=
    default [] (errors c !! r).

  (** ** Options and the engine's state *)

Record applyUtilOptions := mkOptions {
    forceApply : bool;
    replaceOnError : bool;
    forceReplaceOnError : bool;
    dryRun : bool;
    abortOnError : bool;
    hookTimeout : Z;            (* time.Duration *)
  }.

  (** [applyUtil]. The field [k] holds the world behind the client; the
      mutex is not represented: every method below is one indivisible
      transition of the struct. *)
Record applyUtil (W : Type) := mkApplyUtil {
    deploymentCollection : DeploymentCollection;
    k : W;
    o : applyUtilOptions;
    appliedObjects : gmap ObjectRef Unstructured;
    appliedHookObjects : gmap ObjectRef Unstructured;
    abortSignal : bool;
  }.
Arguments mkApplyUtil {W}.
Arguments deploymentCollection {W}.
Arguments k {W}.
Arguments o {W}.
Arguments appliedObjects {W}.
Arguments appliedHookObjects {W}.
Arguments abortSignal {W}.

Definition newApplyUtil {W} (c : DeploymentCollection) (w : W)
      (opts : applyUtilOptions) : applyUtil W :=
    mkApplyUtil c w opts ∅ ∅ false.

  (** ** The trace: what a method did to the outside, in order *)

Inductive level := DebugLevel | InfoLevel | WarnLevel.

Inductive event :=
  | EvDelete (r : ObjectRef) (opts : DeleteOptions.t)
  | EvPatch (x : Unstructured) (opts : PatchOptions.t)
  | EvUpdate (x : Unstructured) (opts : UpdateOptions.t)
  | EvGet (r : ObjectRef)
  | EvSleep (d : Z)
  | EvLog (l : level) (msg : string)
  | EvRunHooks (item : string) (phases : list string).

  (** A mutating client call, and the dry-run directive it carries. *)
Definition isMutation (e : event) : bool :=
    match e with
    | EvDelete _ _ | EvPatch _ _ | EvUpdate _ _ => true
    | _ => false
    end.

Definition carriesDryRun (e : event) : bool :=
    match e with
    | EvDelete _ opts => DeleteOptions.ForceDryRun opts
    | EvPatch _ opts => PatchOptions.ForceDryRun opts
    | EvUpdate _ opts => UpdateOptions.ForceDryRun opts
    | _ => false
    end.

Definition isApiCall (e : event) : bool :=
    match e with
    | EvDelete _ _ | EvPatch _ _ | EvUpdate _ _ | EvGet _ => true
    | _ => false
    end.

  (** ** The state-and-trace monad *)

Definition M (W A : Type) : Type := applyUtil W → A * applyUtil W * list event.

Definition ret {W A} (x : A) : M W A := λ a, (x, a, []).

Definition bind {W A B} (m : M W A) (f : A → M W B) : M W B :=
    λ a, let '(x, a1, t1) := m a in
         let '(y, a2, t2) := f x a1 in
         (y, a2, t1 ++ t2).

Definition gets {W A} (f : applyUtil W → A) : M W A := λ a, (f a, a, []).

Definition modify {W} (f : applyUtil W → applyUtil W) : M W unit :=
    λ a, (tt, f a, []).

Definition emit {W} (e : event) : M W unit := λ a, (tt, a, [e]).

  (** Result, final state and trace of a run. *)
Definition result {W A} (r : A * applyUtil W * list event) : A := r.1.1.
Definition final {W A} (r : A * applyUtil W * list event) : applyUtil W := r.1.2.
Definition trace {W A} (r : A * applyUtil W * list event) : list event := r.2.

End deployment.
Export deployment.

Declare Scope go_scope.
Delimit Scope go_scope with go.
Notation "x ← y ; z" := (bind y (λ x, z))
  (at level 20, y at level 100, z at level 200, only parsing) : go_scope.
Notation "' x ← y ; z" := (bind y (λ x, z))
  (at level 20, x pattern, y at level 100, z at level 200, only parsing) : go_scope.
Notation "y ;; z" := (bind y (λ _, z))
  (at level 100, z at level 200, only parsing, right associativity) : go_scope.

(** ** [hooks_util.go] and the item's inclusion check, as the engine calls them *)

Module hooks.

Record hook := mkHook {
    object : Unstructured;
    hooks_ : list string;
    weight : Z;
    deletePolicies : list string;
  }.

  (** [hooksUtil.getHook], [hooksUtil.runHooks] and
      [deploymentItem.checkInclusionForDeploy] live in other files of the
      package; they are parameters of the development. Running the hooks
      of a phase takes the engine's state to a new state; the trace shows
      the call as one [EvRunHooks] event and not what happens inside. *)
Class HooksUtil (W : Type) := {
    getHook : Unstructured → option hook;
    runHooks : deploymentItem → list string → applyUtil W → applyUtil W;
    checkInclusionForDeploy : deploymentItem → bool;
  }.

End hooks.
Export hooks.

(** ** [pkg/deployment/apply_utils.go] *)

Module apply_utils.
Section apply_utils.

Context {W : Type} `{!K8sCluster W} `{!diff.Resolver} `{!validation.Validator}
          `{!HooksUtil W}.

Local Open Scope go_scope.

Abbreviation M := (M W).

  (** *** Field updates of the struct *)

Definition with_k (w : W) (a : applyUtil W) : applyUtil W :=
    mkApplyUtil (deploymentCollection a) w (o a) (appliedObjects a)
      (appliedHookObjects a) (abortSignal a).

Definition with_deploymentCollection (c : DeploymentCollection)
      (a : applyUtil W) : applyUtil W :=
    mkApplyUtil c (k a) (o a) (appliedObjects a) (appliedHookObjects a)
      (abortSignal a).

Definition with_appliedObjects (m : gmap ObjectRef Unstructured)
      (a : applyUtil W) : applyUtil W :=
    mkApplyUtil (deploymentCollection a) (k a) (o a) m (appliedHookObjects a)
      (abortSignal a).

Definition with_appliedHookObjects (m : gmap ObjectRef Unstructured)
      (a : applyUtil W) : applyUtil W :=
    mkApplyUtil (deploymentCollection a) (k a) (o a) (appliedObjects a) m
      (abortSignal a).

Definition with_abortSignal (b : bool) (a : applyUtil W) : applyUtil W :=
    mkApplyUtil (deploymentCollection a) (k a) (o a) (appliedObjects a)
      (appliedHookObjects a) b.

  (** *** Calls through [a.k], each leaving its event in the trace *)

Definition k_DeleteSingleObject (r : ObjectRef) (opts : DeleteOptions.t)
    : M (list ApiWarning * option error) :=
    λ a, let '(w, res) := DeleteSingleObject r opts (k a) in
         (res, with_k w a, [EvDelete r opts]).

Definition k_PatchObject (x : Unstructured) (opts : PatchOptions.t)
    : M (list ApiWarning * (Unstructured + error)) :=
    λ a, let '(w, res) := PatchObject x opts (k a) in
         (res, with_k w a, [EvPatch x opts]).

Definition k_UpdateObject (x : Unstructured) (opts : UpdateOptions.t)
    : M (list ApiWarning * (Unstructured + error)) :=
    λ a, let '(w, res) := UpdateObject x opts (k a) in
         (res, with_k w a, [EvUpdate x opts]).

Definition k_GetSingleObject (r : ObjectRef)
    : M (list ApiWarning * (Unstructured + error)) :=
    λ a, let '(w, res) := GetSingleObject r (k a) in
         (res, with_k w a, [EvGet r]).

Definition time_Now : M Z := gets (λ a, Now (k a)).

Definition time_Sleep (d : Z) : M unit :=
    λ a, (tt, with_k (Sleep d (k a)) a, [EvSleep d]).

Definition logf (l : level) (msg : string) : M unit := emit (EvLog l msg).

Fixpoint forM_ {A} (l : list A) (f : A → M unit) : M unit :=
    match l with
    | [] => ret tt
    | x :: l' => f x ;; forM_ l' f
    end.

  (** *** The methods *)

Definition handleResult (appliedObject : Unstructured) (hook : bool) : M unit :=
    let r := RefFromObject appliedObject in
    if hook then
      modify (λ a, with_appliedHookObjects
                     (<[r := appliedObject]> (appliedHookObjects a)) a)
    else
      modify (λ a, with_appliedObjects
                     (<[r := appliedObject]> (appliedObjects a)) a).

Definition handleApiWarnings (r : ObjectRef) (ws : list ApiWarning) : M unit :=
    modify (λ a, with_deploymentCollection
                   (addApiWarnings r ws (deploymentCollection a)) a).

Definition handleWarning (r : ObjectRef) (warning : error) : M unit :=
    modify (λ a, with_deploymentCollection
                   (addWarning r warning (deploymentCollection a)) a).

Definition handleError (r : ObjectRef) (err : error) : M unit :=
    modify (λ a,
      let a1 := if abortOnError (o a) then with_abortSignal true a else a in
      with_deploymentCollection (addError r err (deploymentCollection a1)) a1).

Definition hadError (r : ObjectRef) : M bool :=
    gets (λ a, hadError_in (deploymentCollection a) r).

Definition deleteObject (r : ObjectRef) : M bool :=
    dry ← gets (λ a, dryRun (o a));
    let opts := DeleteOptions.mk dry in
    '(apiWarnings, err) ← k_DeleteSingleObject r opts;
    handleApiWarnings r apiWarnings;;
    match err with
    | Some e => handleError r e;; ret false
    | None => ret true
    end.

Definition retryApplyForceReplace (x : Unstructured) (hook : bool)
      (applyError : error) : M unit :=
    let r := RefFromObject x in
    opts ← gets o;
    if negb (forceReplaceOnError opts) then
      handleError r applyError
    else
      logf WarnLevel "Patching failed, retrying by deleting and re-applying";;
      deleted ← deleteObject r;
      if negb deleted then ret tt
      else if negb (dryRun opts) then
        let po := PatchOptions.mk (dryRun opts) false in
        '(apiWarnings, res) ← k_PatchObject x po;
        handleApiWarnings r apiWarnings;;
        match res with
        | inr err => handleError r err
        | inl r1 => handleResult r1 hook
        end
      else
        handleResult x hook.

Definition retryApplyWithReplace (x : Unstructured) (hook : bool)
      (remoteObject : option Unstructured) (applyError : error) : M unit :=
    let r := RefFromObject x in
    opts ← gets o;
    if negb (replaceOnError opts) || bool_decide (remoteObject = None) then
      handleError r applyError
    else
      logf WarnLevel "Patching failed, retrying with replace instead of patch";;
      let rv := from_option GetResourceVersion "" remoteObject in
      let x2 := uo.CopyUnstructured x in
      let x2 := SetResourceVersion x2 rv in
      let uopts := UpdateOptions.mk (dryRun opts) in
      '(apiWarnings, res) ← k_UpdateObject x uopts;
      handleApiWarnings r apiWarnings;;
      match res with
      | inr err => retryApplyForceReplace x hook err
      | inl r1 => handleResult r1 hook
      end.

Definition lostOwnershipWarning (lo : diff.LostOwnership) : error :=
    errorString (diff.Message lo +:+ ". Not updating field '" +:+ diff.Field lo
                 +:+ "' as we lost field ownership").

  (** The tail of [retryApplyWithConflicts]: the forced re-apply of [x2]. *)
Definition forcedPatch (x2 : Unstructured) (r : ObjectRef) (hook : bool) : M unit :=
    dry ← gets (λ a, dryRun (o a));
    let options := PatchOptions.mk dry true in
    '(apiWarnings, res) ← k_PatchObject x2 options;
    handleApiWarnings r apiWarnings;;
    match res with
    | inr err =>
        (* We didn't manage to solve it, better to abort (and not retry
           with replace!) *)
        handleError r err
    | inl r1 => handleResult r1 hook
    end.

Definition retryApplyWithConflicts (x : Unstructured) (hook : bool)
      (remoteObject : option Unstructured) (applyError : error) : M unit :=
    let r := RefFromObject x in
    (if remoteObject is None then handleError r applyError else ret tt);;
    force ← gets (λ a, forceApply (o a));
    if negb force then
      match asStatusError applyError with
      | None => handleError r applyError
      | Some status =>
          match diff.ResolveFieldManagerConflicts x remoteObject status with
          | inr err => handleError r err
          | inl (x3, lostOwnership) =>
              forM_ lostOwnership
                (λ lo, handleWarning r (lostOwnershipWarning lo));;
              forcedPatch x3 r hook
          end
      end
    else
      forcedPatch x r hook.

Definition applyObject (x : Unstructured) (replaced : bool) (hook : bool)
    : M unit :=
    let r := RefFromObject x in
    logf DebugLevel "applying object";;
    let x := FixObjectForPatch x in
    remoteObject ← gets (λ a, getRemoteObject (deploymentCollection a) r);
    dry ← gets (λ a, dryRun (o a));
    if dry && replaced && bool_decide (remoteObject ≠ None) then
      (* Let's simulate that this object was deleted in dry-run mode. *)
      handleResult x hook
    else
      let options := PatchOptions.mk dry false in
      '(apiWarnings, res) ← k_PatchObject x options;
      handleApiWarnings r apiWarnings;;
      match res with
      | inl r1 => handleResult r1 hook
      | inr err =>
          if meta.IsNoMatchError err then handleError r err
          else if IsConflict err then
            retryApplyWithConflicts x hook remoteObject err
          else
            retryApplyWithReplace x hook remoteObject err
      end.

  (** [waitHook]. The Go loop has no bound of its own; [fuel] bounds the
      number of probes, and [None] says that the wait is still going on
      after that many. *)
Fixpoint waitHookLoop (fuel : nat) (r : ObjectRef) (startTime : Z)
      (didLog : bool) : M (option bool) :=
    match fuel with
    | O => ret None
    | S fuel' =>
        '(apiWarnings, res) ← k_GetSingleObject r;
        handleApiWarnings r apiWarnings;;
        match res with
        | inr err =>
            if IsNotFound err then
              (if didLog then
                 logf WarnLevel
                   "Cancelled waiting for hook as it disappeared while waiting for it"
               else ret tt);;
              handleError r
                (errorString "object disappeared while waiting for it to become ready");;
              ret (Some false)
            else
              handleError r err;;
              ret (Some false)
        | inl obj =>
            let v := validation.ValidateObject obj false in
            if validation.Ready v then
              (if didLog then logf InfoLevel "Finished waiting for hook"
               else ret tt);;
              ret (Some true)
            else if negb (length (validation.Errors v) =? 0)%nat then
              (if didLog then
                 logf WarnLevel "Cancelled waiting for hook due to errors"
               else ret tt);;
              forM_ (validation.Errors v)
                (λ e, handleError r (errorString (validation.Error e)));;
              ret (Some false)
            else
              timeout ← gets (λ a, hookTimeout (o a));
              now ← time_Now;
              if negb (timeout =? 0) && (timeout <=? gotime.Sub now startTime) then
                let err := errorString "timed out while waiting for hook" in
                logf WarnLevel "timed out while waiting for hook";;
                handleError r err;;
                ret (Some false)
              else
                (if negb didLog then
                   logf InfoLevel "Waiting for hook to get ready..."
                 else ret tt);;
                time_Sleep (500 * gotime.Millisecond);;
                waitHookLoop fuel' r startTime true
        end
    end.

Definition waitHook (fuel : nat) (r : ObjectRef) : M (option bool) :=
    dry ← gets (λ a, dryRun (o a));
    if dry then ret (Some true)
    else
      logf DebugLevel "Waiting for hook to get ready";;
      startTime ← time_Now;
      waitHookLoop fuel r startTime false.

Definition doLog (d : deploymentItem) (l : level) (s : string) : M unit :=
    logf l (relToProjectItemDir d +:+ ": " +:+ s).

  (** The two loops of [applyKustomizeDeployment] over [d.objects]. *)
Definition initialDeployOf (c : DeploymentCollection)
      (objs : list Unstructured) : bool :=
    fold_left
      (λ initialDeploy obj,
         if bool_decide (getRemoteObject c (RefFromObject obj) ≠ None)
         then false else initialDeploy)
      objs true.

Definition applyObjectsOf (objs : list Unstructured) : list Unstructured :=
    fold_left
      (λ applyObjects obj,
         if bool_decide (getHook obj ≠ None) then applyObjects
         else applyObjects ++ [obj])
      objs [].

(** [h.runHooks(d, phases)] *)
Definition h_runHooks (d : deploymentItem) (phases : list string) : M unit :=
    emit (EvRunHooks (relToProjectItemDir d) phases);;
    modify (runHooks d phases).

Definition applyKustomizeDeployment (d : deploymentItem) : M unit :=
    if bool_decide (Path (config d) = None) then ret tt
    else if negb (checkInclusionForDeploy d) then
      doLog d InfoLevel "Skipping"
    else
      initialDeploy ←
        gets (λ a, initialDeployOf (deploymentCollection a) (objects d));
      (if initialDeploy then
         h_runHooks d ["pre-deploy-initial"; "pre-deploy"]
       else
         h_runHooks d ["pre-deploy-upgrade"; "pre-deploy"]);;
      let applyObjects := applyObjectsOf (objects d) in
      doLog d InfoLevel
        ("Applying " +:+ pretty (length (objects d)) +:+ " objects");;
      forM_ applyObjects (λ obj, applyObject obj false false);;
      (if initialDeploy then
         h_runHooks d ["post-deploy-initial"; "post-deploy"]
       else
         h_runHooks d ["post-deploy-upgrade"; "post-deploy"]).

End apply_utils.
End apply_utils.

(** ** [applyDeployments]: the scheduler and its worker pool *)

Module scheduler.
Section scheduler.

Context {W : Type} `{!K8sCluster W} `{!diff.Resolver} `{!validation.Validator}
          `{!HooksUtil W}.

Import apply_utils.

Definition poolSize : nat := 16.

  (** Where the goroutine running [applyDeployments] stands. *)
Inductive pc :=
  | AtLoopHead (rest : list deploymentItem) (previousWasBarrier : bool)
      (* about to take the next item of the range, if any *)
  | AtBarrierCheck (d : deploymentItem) (rest : list deploymentItem)
      (previousWasBarrier : bool)
      (* [a.abortSignal] was read as false; [if previousWasBarrier] is next *)
  | AtBarrierWait (d : deploymentItem) (rest : list deploymentItem)
      (* inside [wp.StopWait(true)] *)
  | AtSubmit (d : deploymentItem) (rest : list deploymentItem)
      (* about to set [previousWasBarrier] and call [wp.Submit] *)
  | AtFinalWait      (* [_ = wp.StopWait(false)] after the loop *)
  | AtDeferredWait   (* the deferred [wp.StopWait(false)] *)
  | Returned.

  (** The whole system: the shared [applyUtil], the scheduler's position and
      the pool.

      Modelled from the spec: the worker pool
      ([utils.NewDebuggerAwareWorkerPool], [Submit], [StopWait]) is not part
      of the sources at hand. It is a bounded pool of fixed size 16;
      [Submit] hands a task to the pool, where it runs on some worker;
      [StopWait] blocks until the pool has drained; tasks already
      dispatched run to completion. A task is run here in one transition. *)
Record system := mkSystem {
    a : applyUtil W;
    at_ : pc;
    queue : list deploymentItem;       (* submitted, not yet completed *)
    submitted : list deploymentItem;   (* every task ever submitted *)
    completed : list deploymentItem;   (* every task that has run *)
    log : list event;
  }.

Definition init (a0 : applyUtil W) : system :=
    mkSystem a0
      (AtLoopHead (deployments (deploymentCollection a0)) false)
      [] [] []
      [EvLog InfoLevel "Running server-side apply for all objects"].

Definition isBarrier (d : deploymentItem) : bool :=
    match Barrier (config d) with
    | Some b => b
    | None => false
    end.

  (** One transition of the scheduler goroutine; [None] when it is blocked
      or has returned. *)
Definition schedStep (s : system) : option system :=
    match at_ s with
    | AtLoopHead [] _ =>
        Some (mkSystem (a s) AtFinalWait (queue s) (submitted s) (completed s) (log s))
    | AtLoopHead (d :: rest) previousWasBarrier =>
        if abortSignal (a s) then
          Some (mkSystem (a s) AtFinalWait (queue s) (submitted s) (completed s) (log s))
        else
          Some (mkSystem (a s) (AtBarrierCheck d rest previousWasBarrier)
                  (queue s) (submitted s) (completed s) (log s))
    | AtBarrierCheck d rest previousWasBarrier =>
        if previousWasBarrier then
          Some (mkSystem (a s) (AtBarrierWait d rest) (queue s) (submitted s)
                  (completed s) (log s ++ [EvLog InfoLevel "Waiting on barrier..."]))
        else
          Some (mkSystem (a s) (AtSubmit d rest) (queue s) (submitted s)
                  (completed s) (log s))
    | AtBarrierWait d rest =>
        match queue s with
        | [] => Some (mkSystem (a s) (AtSubmit d rest) [] (submitted s)
                        (completed s) (log s))
        | _ :: _ => None
        end
    | AtSubmit d rest =>
        let previousWasBarrier := isBarrier d in
        Some (mkSystem (a s) (AtLoopHead rest previousWasBarrier)
                (queue s ++ [d]) (submitted s ++ [d]) (completed s) (log s))
    | AtFinalWait =>
        match queue s with
        | [] => Some (mkSystem (a s) AtDeferredWait [] (submitted s)
                        (completed s) (log s))
        | _ :: _ => None
        end
    | AtDeferredWait =>
        match queue s with
        | [] => Some (mkSystem (a s) Returned [] (submitted s)
                        (completed s) (log s))
        | _ :: _ => None
        end
    | Returned => None
    end.

  (** One transition of the pool: the [i]-th queued task, within reach of
      the workers, runs [a.applyKustomizeDeployment(d)] on the shared
      struct. *)
Definition workStep (i : nat) (s : system) : option system :=
    if decide (i < poolSize)%nat then
      match queue s !! i with
      | Some d =>
          let '(_, a', t) := applyKustomizeDeployment d (a s) in
          Some (mkSystem a' (at_ s) (delete i (queue s)) (submitted s)
                  (completed s ++ [d]) (log s ++ t))
      | None => None
      end
    else None.

Inductive action :=
  | Sched
  | Work (i : nat).

Definition step (act : action) (s : system) : option system :=
    match act with
    | Sched => schedStep s
    | Work i => workStep i s
    end.

Fixpoint run (acts : list action) (s : system) : option system :=
    match acts with
    | [] => Some s
    | act :: acts' =>
        match step act s with
        | Some s' => run acts' s'
        | None => None
        end
    end.

  (** The executions of [applyDeployments] from a given [applyUtil]. *)
Definition reachable (a0 : applyUtil W) (s : system) : Prop :=
    ∃ acts, run acts (init a0) = Some s.



End scheduler.
End scheduler.

(** ** A scripted cluster, to run the engine on concrete inputs *)

Module scripted.

  (** What the cluster answers to the next call. *)
Inductive reply :=
  | ReplyOk                          (* the call goes through *)
  | ReplyObject (x : Unstructured)   (* the call returns this object *)
  | ReplyError (e : error).          (* the call is refused with this error *)

Record world := mkWorld {
    script : list reply;   (* answers to the calls to come, in order *)
    clock : Z;             (* nanoseconds *)
    tick : Z;              (* how long a call takes *)
  }.

Definition next (w : world) : option reply * world :=
    match script w with
    | [] => (None, mkWorld [] (clock w + tick w) (tick w))
    | r :: rest => (Some r, mkWorld rest (clock w + tick w) (tick w))
    end.

Definition notFound : error :=
    StatusError (mkStatus StatusReasonNotFound 404 "not found" []).

Definition mutate (x : Unstructured) (w : world)
    : world * (list ApiWarning * (Unstructured + error)) :=
    match next w with
    | (Some (ReplyError e), w') => (w', ([], inr e))
    | (Some (ReplyObject y), w') => (w', ([], inl y))
    | (_, w') => (w', ([], inl x))
    end.

#[export] Instance cluster : K8sCluster world := {|
    FixObjectForPatch x := x;
    DeleteSingleObject _ _ w :=
      match next w with
      | (Some (ReplyError e), w') => (w', ([], Some e))
      | (_, w') => (w', ([], None))
      end;
    PatchObject x _ w := mutate x w;
    UpdateObject x _ w := mutate x w;
    GetSingleObject _ w :=
      match next w with
      | (Some (ReplyObject y), w') => (w', ([], inl y))
      | (Some (ReplyError e), w') => (w', ([], inr e))
      | (_, w') => (w', ([], inr notFound))
      end;
    Now w := clock w;
    Sleep d w := mkWorld (script w) (clock w + d) (tick w);
  |}.

  (** Conflicts resolve to the local object with nothing lost. *)
#[export] Instance resolver : diff.Resolver := {|
    diff.ResolveFieldManagerConflicts x _ _ := inl (x, []);
  |}.

  (** An object is ready when it says so; it is in error when it carries
      error entries. *)
Definition entryOf (kv : string * string) : option validation.ValidateResultEntry :=
    if bool_decide (kv.1 = "error") then Some (validation.mkEntry kv.2) else None.

#[export] Instance validator : validation.Validator := {|
    validation.ValidateObject x _ :=
      let errs := omap entryOf (data x) in
      validation.mkResult
        (bool_decide (("ready", "true") ∈ data x) && bool_decide (errs = []))
        errs;
  |}.

Definition hookAnnotation : string := "kluctl.io/hook".

Definition phasesOf (x : Unstructured) : list string :=
    omap (λ kv : string * string,
            if bool_decide (kv.1 = hookAnnotation) then Some kv.2 else None)
      (annotations x).

  (** Hooks are recognised by their annotation; running a phase does
      nothing here. *)
#[export] Instance hooksUtil : HooksUtil world := {|
    getHook x :=
      match phasesOf x with
      | [] => None
      | ph => Some (mkHook x ph 0 [])
      end;
    runHooks _ _ a := a;
    checkInclusionForDeploy _ := true;
  |}.

  (** Sample data. *)
Definition configMap (name : string) : ObjectRef :=
    mkRef "" "v1" "ConfigMap" name "ns1".

Definition cm1 : Unstructured := mkObj (configMap "cm1") "" [] [("a", "1")].
Definition cm2 : Unstructured := mkObj (configMap "cm2") "" [] [("b", "2")].
Definition cm1Remote : Unstructured :=
    mkObj (configMap "cm1") "42" [] [("a", "0")].
Definition job1 : Unstructured :=
    mkObj (mkRef "batch" "v1" "Job" "job1" "ns1") ""
      [(hookAnnotation, "pre-deploy")] [].

Definition invalid422 : error :=
    StatusError (mkStatus StatusReasonInvalid 422 "is invalid" []).
Definition conflict409 : error :=
    StatusError (mkStatus StatusReasonConflict 409 "conflict" [("data.a", "other")]).
Definition forbidden403 : error :=
    StatusError (mkStatus StatusReasonForbidden 403 "forbidden" []).

Definition options0 : applyUtilOptions := mkOptions false false false false false 0.

Definition collection (items : list deploymentItem)
      (remote : list Unstructured) : DeploymentCollection :=
    mkCollection items
      (list_to_map ((λ x, (RefFromObject x, x)) <$> remote)) ∅ ∅ ∅.

Definition engine (items : list deploymentItem) (remote : list Unstructured)
      (replies : list reply) (opts : applyUtilOptions) : applyUtil world :=
    newApplyUtil (collection items remote) (mkWorld replies 0 0) opts.

Definition item (name : string) (barrier : bool) (objs : list Unstructured)
    : deploymentItem :=
    mkItem (mkConfig (Some name) (Some barrier)) objs name.

End scripted.

(** ** Go's [strings] package *)

Module gostrings.

(** [strings.SplitN(s, sep, 2)] for a one-character separator: [None] when
    the separator does not occur (the result has length 1), else the text
    before and after its first occurrence. *)
Fixpoint SplitN2 (sep : ascii) (s : string) : option (string * string) :=
  match s with
  | EmptyString => None
  | String c rest =>
      if bool_decide (c = sep) then Some (EmptyString, rest)
      else match SplitN2 sep rest with
           | Some (l, r) => Some (String c l, r)
           | None => None
           end
  end.

Definition HasPrefix (s pre : string) : bool := String.prefix pre s.

End gostrings.

(** ** [cmd/kluctl/commands]: project setup and its deferred teardown *)

Module commands.

  (** What [withKluctlProjectFromArgs] does to the outside. *)
Inductive call :=
  | MkdirTemp (pattern : string)
  | RemoveAll (dir : string)
  | NewKluctlJinja2
  | J2Close
  | StatusWarning (msg : string)
  | StatusDeprecation (key : string)
  | WithTimeout
  | Cancel
  | NewGitRepoCache
  | GitRpClear
  | NewOciRepoCache
  | OciRpClear
  | LoadKluctlProject
  | Callback.

#[global] Instance call_eq_dec : EqDecision call.
Proof. solve_decision. Defined.

  (** A running Go function: the calls made so far and the deferred calls,
      the latest first. *)
Record frame := mkFrame {
    made : list call;
    deferred : list call;
  }.

Definition G (A : Type) : Type := frame → (A + error) * frame.

Definition greturn {A} (x : A) : G A := λ f, (inl x, f).
Definition gfail {A} (e : error) : G A := λ f, (inr e, f).
Definition gbind {A B} (m : G A) (k : A → G B) : G B :=
    λ f, match m f with
         | (inl x, f') => k x f'
         | (inr e, f') => (inr e, f')
         end.
Definition does (c : call) : G unit :=
    λ f, (inl tt, mkFrame (made f ++ [c]) (deferred f)).
Definition defer (c : call) : G unit :=
    λ f, (inl tt, mkFrame (made f) (c :: deferred f)).
Definition lift {A} (r : A + error) : G A := λ f, (r, f).

  (** Running a function to its return: the deferred calls run last, in
      reverse order of their [defer] statements. *)
Definition invoke {A} (body : G A) : (A + error) * list call * list call :=
    let '(r, f) := body (mkFrame [] []) in
    (r, made f, deferred f).

Definition returned {A} (r : (A + error) * list call * list call) : A + error := r.1.1.
Definition body_calls {A} (r : (A + error) * list call * list call) : list call := r.1.2.
Definition teardown {A} (r : (A + error) * list call * list call) : list call := r.2.

Record RepoOverride := mkOverride {
    RepoKey : string;
    IsGroup : bool;
    Override : string;
  }.

Record GitUrl := mkGitUrl { Host : string; UrlPath : string }.

Record ProjectFlags := mkProjectFlags {
    LocalGitOverride : list string;
    LocalGitGroupOverride : list string;
    LocalOciOverride : list string;
    LocalOciGroupOverride : list string;
  }.

Record ArgsFlags := mkArgsFlags {
    Arg : list string;
    ArgsFromFile : list string;
  }.

  (** The collaborators of the function: the file system, the git and
      project loaders, the argument parsers. *)
Class Collaborators := {
    os_MkdirTemp : string → string + error;
    kluctl_jinja2_New : bool → unit + error;
    GetProjectDir : string + error;
    DetectGitRepositoryRoot : string → string + error;
    ParseRepoKey : string → string + error;
    ParseGitUrl : string → GitUrl + error;
    ParseArgs : list string → list (string * string) + error;
    ConvertArgsToVars : list (string * string) → bool → list (string * string) + error;
    uo_FromFile : string → list (string * string) + error;
    kluctl_project_Load : string → string → unit + error;
  }.

Declare Scope cmd_scope.
Notation "x ← y ; z" := (gbind y (λ x, z))
    (at level 20, y at level 100, z at level 200, only parsing) : cmd_scope.
Notation "y ;; z" := (gbind y (λ _, z))
    (at level 100, z at level 200, only parsing, right associativity) : cmd_scope.

Section commands.

Context `{!Collaborators}.
Local Open Scope cmd_scope.

Definition parseRepoOverride (s : string) (isGroup allowLegacy : bool)
      : G RepoOverride :=
      match gostrings.SplitN2 "="%char s with
      | None => gfail (errorString s)
      | Some (sp0, sp1) =>
          match ParseRepoKey sp0 with
          | inl repoKey => greturn (mkOverride repoKey isGroup sp1)
          | inr err =>
              if negb allowLegacy then gfail err
              else
                (* try as legacy repo key *)
                match ParseGitUrl sp0 with
                | inr err2 => gfail err   (* return original error *)
                | inl u =>
                    let x := Host u in
                    let x := if negb (gostrings.HasPrefix (UrlPath u) "/")
                             then x +:+ "/" else x in
                    let x := x +:+ UrlPath u in
                    match ParseRepoKey x with
                    | inr err2 => gfail err   (* return original error *)
                    | inl repoKey =>
                        does (StatusDeprecation "old-repo-override");;
                        greturn (mkOverride repoKey isGroup sp1)
                    end
                end
          end
      end.

    (** [for _, x := range xs { ro, err := parseRepoOverride(...); ...;
         overrides = append(overrides, ro) }] *)
Fixpoint appendOverrides (xs : list string) (isGroup allowLegacy : bool)
        (flag : string) (overrides : list RepoOverride) : G (list RepoOverride) :=
      match xs with
      | [] => greturn overrides
      | x :: xs' =>
          λ f, match parseRepoOverride x isGroup allowLegacy f with
               | (inr err, f') => (inr (wrapError ("invalid " +:+ flag) err), f')
               | (inl ro, f') =>
                   appendOverrides xs' isGroup allowLegacy flag (overrides ++ [ro]) f'
               end
      end.

Fixpoint mergeArgsFromFiles (files : list string)
        (externalArgs : list (string * string)) : G (list (string * string)) :=
      match files with
      | [] => greturn externalArgs
      | file :: files' =>
          optionArgs2 ← lift (uo_FromFile file);
          mergeArgsFromFiles files' (externalArgs ++ optionArgs2)
      end.

Definition withKluctlProjectFromArgs (projectFlags : ProjectFlags)
        (argsFlags : option ArgsFlags) (internalDeploy strictTemplates : bool)
        (cb : unit + error) : G unit :=
      does (MkdirTemp "project-");;
      match os_MkdirTemp "project-" with
      | inr err =>
          gfail (wrapError "creating temporary project directory failed" err)
      | inl tmpDir =>
      defer (RemoveAll tmpDir);;

      does NewKluctlJinja2;;
      _ ← lift (kluctl_jinja2_New strictTemplates);
      defer J2Close;;

      projectDir ← lift GetProjectDir;

      repoRoot ←
        (if negb internalDeploy then
           match DetectGitRepositoryRoot projectDir with
           | inl root => greturn root
           | inr _ =>
               does (StatusWarning
                 "Failed to detect git project root. This might cause follow-up errors");;
               greturn ""
           end
         else greturn "");
      let repoRoot := if bool_decide (repoRoot = "") then projectDir else repoRoot in

      does WithTimeout;;
      defer Cancel;;

      gitRepoOverrides ←
        appendOverrides (LocalGitOverride projectFlags) false true
          "--local-git-override" [];
      gitRepoOverrides ←
        appendOverrides (LocalGitGroupOverride projectFlags) true true
          "--local-git-group-override" gitRepoOverrides;
      ociRepoOverrides ←
        appendOverrides (LocalOciOverride projectFlags) false false
          "--local-oci-override" [];
      ociRepoOverrides ←
        appendOverrides (LocalOciGroupOverride projectFlags) true false
          "--local-oci-group-override" ociRepoOverrides;

      does NewGitRepoCache;;
      defer GitRpClear;;

      does NewOciRepoCache;;
      defer GitRpClear;;

      externalArgs ←
        match argsFlags with
        | Some flags =>
            optionArgs ← lift (ParseArgs (Arg flags));
            externalArgs ← lift (ConvertArgsToVars optionArgs true);
            mergeArgsFromFiles (ArgsFromFile flags) externalArgs
        | None => greturn []
        end;

      does LoadKluctlProject;;
      _ ← lift (kluctl_project_Load repoRoot projectDir);

      does Callback;;
      lift cb
      end.

End commands.

  (** A run in which every collaborator succeeds. *)
Module sample.
#[export] Instance collaborators : Collaborators := {|
      os_MkdirTemp p := inl ("/tmp/" +:+ p +:+ "1");
      kluctl_jinja2_New _ := inl tt;
      GetProjectDir := inl "/work/project";
      DetectGitRepositoryRoot d := inl d;
      ParseRepoKey s := inl s;
      ParseGitUrl s := inl (mkGitUrl s "");
      ParseArgs _ := inl [];
      ConvertArgsToVars a _ := inl a;
      uo_FromFile _ := inl [];
      kluctl_project_Load _ _ := inl tt;
    |}.

Definition flags : ProjectFlags :=
      mkProjectFlags ["example.com/repo=/local/repo"] [] [] [].

Definition command : (unit + error) * list call * list call :=
      invoke (withKluctlProjectFromArgs flags (Some (mkArgsFlags [] [])) false true (inl tt)).
End sample.

End commands.

(** ** [pkg/vars/vars_loader.go]: the variable loader *)

Module vars.

(** Go pointers are locations of a store; a struct reached through a
    pointer is a cell of the store. *)
Definition loc := positive.

Record VarsSourceGit := mkGit {
  Url : string;
  Ref : string;
  GitPath : string;
}.

Record VarsSourceClusterConfigMapOrSecret := mkClusterObject {
  CName : string;
  CNamespace : string;
  Labels : list (string * string);
  Key : string;
}.

Record VarsSourceHttp := mkHttp {
  HttpUrl : string;
  Method : string;
  JsonPath : string;
}.

Record VarsSourceAwsSecretsManager := mkAws {
  SecretName : string;
  Region : string;
  Profile : string;
}.

Record VarsSourceVault := mkVault {
  Address : string;
  VaultPath : string;
}.

(** [types.VarsSource]: every field is a pointer. *)
Record VarsSource := mkSource {
  IgnoreMissing : option loc;        (* *bool *)
  Values : option loc;               (* *uo.UnstructuredObject *)
  File : option loc;                 (* *string *)
  Git : option loc;                  (* *VarsSourceGit *)
  ClusterConfigMap : option loc;     (* *VarsSourceClusterConfigMapOrSecret *)
  ClusterSecret : option loc;        (* *VarsSourceClusterConfigMapOrSecret *)
  SystemEnvVars : option loc;        (* *uo.UnstructuredObject *)
  Http : option loc;                 (* *VarsSourceHttp *)
  AwsSecretsManager : option loc;    (* *VarsSourceAwsSecretsManager *)
  Vault : option loc;                (* *VarsSourceVault *)
}.

(** The pointer fields of the struct, in declaration order. *)
Definition pointers (s : VarsSource) : list (option loc) :=
  [IgnoreMissing s; Values s; File s; Git s; ClusterConfigMap s;
   ClusterSecret s; SystemEnvVars s; Http s; AwsSecretsManager s; Vault s].

(** A value of a leaf of an unstructured object. *)
Inductive fieldValue :=
| FBytes (b : string)
| FString (s : string)
| FOther.

Section store.

(** [UO] stands for the contents of a [uo.UnstructuredObject]. *)
Context {UO : Type}.

Inductive cell :=
| CBool (b : bool)
| CString (s : string)
| CObject (u : UO)
| CGit (g : VarsSourceGit)
| CClusterObject (c : VarsSourceClusterConfigMapOrSecret)
| CHttp (h : VarsSourceHttp)
| CAws (w : VarsSourceAwsSecretsManager)
| CVault (v : VarsSourceVault)
| CSource (s : VarsSource).

Abbreviation store := (gmap loc cell).

(** [VarsCtx]: the variables loaded so far, behind a pointer. *)
Record VarsCtx := mkVarsCtx {
  Vars : loc;
}.

(** [VarsLoader]: which optional clients it was built with. *)
Record VarsLoader := mkVarsLoader {
  hasK : bool;     (* v.k != nil *)
  hasAws : bool;   (* v.aws != nil *)
}.

(** The state-and-error monad of the loader: the store is threaded through,
    an error ends the call. *)
Definition V (A : Type) : Type := store → (A + error) * store.

Definition vret {A} (x : A) : V A := λ h, (inl x, h).
Definition vfail {A} (e : error) : V A := λ h, (inr e, h).
Definition vbind {A B} (m : V A) (f : A → V B) : V B :=
  λ h, match m h with
       | (inl x, h') => f x h'
       | (inr e, h') => (inr e, h')
       end.
Definition vlift {A} (r : A + error) : V A := λ h, (r, h).

Definition nilDereference : error :=
  errorString "invalid memory address or nil pointer dereference".

(** Reading through a pointer. *)
Definition load (l : loc) : V cell :=
  λ h, match h !! l with
       | Some c => (inl c, h)
       | None => (inr nilDereference, h)
       end.

(** Writing through a pointer. *)
Definition storeAt (l : loc) (c : cell) : V unit :=
  λ h, (inl tt, <[l := c]> h).

(** [new(T)] initialised with [c]. *)
Definition alloc (c : cell) : V loc :=
  λ h, let l := fresh (dom h) in (inl l, <[l := c]> h).

Definition loadObject (l : loc) : V UO :=
  vbind (load l) (λ c, match c with
                       | CObject u => vret u
                       | _ => vfail nilDereference
                       end).

End store.
Arguments cell : clear implicits.
Arguments VarsCtx : clear implicits.
Arguments V : clear implicits.

Declare Scope vars_scope.
Notation "x ← y ; z" := (vbind y (λ x, z))
  (at level 20, y at level 100, z at level 200, only parsing) : vars_scope.
Notation "y ;; z" := (vbind y (λ _, z))
  (at level 100, z at level 200, only parsing, right associativity) : vars_scope.

(** What the loader reaches outside itself: the operations of
    [uo.UnstructuredObject], the template engine, the YAML reader, SOPS and
    the sources of variables. *)
Class World (UO : Type) := {
  uo_New : UO;
  uo_Merge : UO → UO → UO;                       (* receiver, argument *)
  uo_MergeChild : string → UO → UO → UO;         (* key, receiver, argument *)
  uo_ToMap : UO → UO + error;
  uo_GetNestedObject : UO → string → option UO + error;
  uo_GetNestedField : UO → list string → option fieldValue + error;
  uo_SetNestedField : UO → fieldValue → list string → UO + error;
  uo_Leafs : UO → list (list string * fieldValue);
  uo_RefString : UO → string;
  ToJsonPath : list string → string;
  (* go-jinja2 *)
  RenderString : UO → string → string + error;
  RenderObject : UO → UO → UO + error;
  RenderFile : UO → string → list string → string + error;
  (* sops, yaml *)
  FormatForPath : string → string;
  MaybeDecrypt : string → string → string + error;
  ReadYamlString : string → UO + error;
  ReadYamlValue : string → fieldValue + error;
  (* the sources *)
  os_LookupEnv : string → option string;
  GetClonedDir : string → string → string + error;
  k_GetSingleObject : string → string → string → UO + error;
  k_ListObjects : string → string → list (string * string) → list UO + error;
  base64_Decode : string → string + error;
  GetAwsSecretsManagerSecret : string → string → string → string + error;
  isResourceNotFound : error → bool;
  vault_GetSecret : string → string → option string + error;
  http_Get : VarsSourceHttp → option string + error;
}.

Section loader.

Context {UO : Type} `{!World UO}.
Local Open Scope vars_scope.

Abbreviation V := (V UO).
Abbreviation cell := (cell UO).

Definition loadBool (l : loc) : V bool :=
  c ← load l;
  match c with CBool b => vret b | _ => vfail nilDereference end.

Definition loadString (l : loc) : V string :=
  c ← load l;
  match c with CString s => vret s | _ => vfail nilDereference end.

(** *** [utils.DeepCopy] *)

Definition copyPointee (p : option loc) : V (option loc) :=
  match p with
  | None => vret None
  | Some l =>
      c ← load l;
      l' ← alloc c;
      vret (Some l')
  end.

(** Modelled from the spec: [utils.DeepCopy] is not part of the sources at
    hand. It makes the destination a deep copy of the source: the struct
    is copied, and each of its pointers leads to a fresh copy of what the
    source's pointer led to. *)
Definition DeepCopy (sourceIn : loc) : V VarsSource :=
  c ← load sourceIn;
  match c with
  | CSource s =>
      ignoreMissing ← copyPointee (IgnoreMissing s);
      values ← copyPointee (Values s);
      file ← copyPointee (File s);
      git ← copyPointee (Git s);
      clusterConfigMap ← copyPointee (ClusterConfigMap s);
      clusterSecret ← copyPointee (ClusterSecret s);
      systemEnvVars ← copyPointee (SystemEnvVars s);
      http ← copyPointee (Http s);
      awsSecretsManager ← copyPointee (AwsSecretsManager s);
      vault ← copyPointee (Vault s);
      vret (mkSource ignoreMissing values file git clusterConfigMap
              clusterSecret systemEnvVars http awsSecretsManager vault)
  | _ => vfail nilDereference
  end.

(** *** [Jinja2.RenderStruct]

    The template engine renders, in place, every string it reaches from
    the struct it is given. *)
Definition mapOk {A B} (f : A → B) (r : A + error) : B + error :=
  match r with
  | inl x => inl (f x)
  | inr e => inr e
  end.

Definition renderCell (globals : UO) (c : cell) : cell + error :=
  let render := RenderString globals in
  match c with
  | CBool b => inl (CBool b)
  | CString s => mapOk CString (render s)
  | CObject u => mapOk CObject (RenderObject globals u)
  | CGit g =>
      match render (Url g), render (Ref g), render (GitPath g) with
      | inl u, inl r, inl p => inl (CGit (mkGit u r p))
      | inr e, _, _ | _, inr e, _ | _, _, inr e => inr e
      end
  | CClusterObject o =>
      match render (CName o), render (CNamespace o), render (Key o) with
      | inl n, inl ns, inl k => inl (CClusterObject (mkClusterObject n ns (Labels o) k))
      | inr e, _, _ | _, inr e, _ | _, _, inr e => inr e
      end
  | CHttp h =>
      match render (HttpUrl h), render (Method h), render (JsonPath h) with
      | inl u, inl m, inl j => inl (CHttp (mkHttp u m j))
      | inr e, _, _ | _, inr e, _ | _, _, inr e => inr e
      end
  | CAws w =>
      match render (SecretName w), render (Region w), render (Profile w) with
      | inl n, inl r, inl p => inl (CAws (mkAws n r p))
      | inr e, _, _ | _, inr e, _ | _, _, inr e => inr e
      end
  | CVault v =>
      match render (Address v), render (VaultPath v) with
      | inl a, inl p => inl (CVault (mkVault a p))
      | inr e, _ | _, inr e => inr e
      end
  | CSource s => inl (CSource s)
  end.

Definition renderPointee (globals : UO) (p : option loc) : V unit :=
  match p with
  | None => vret tt
  | Some l =>
      c ← load l;
      c' ← vlift (renderCell globals c);
      storeAt l c'
  end.

Fixpoint renderPointees (globals : UO) (ps : list (option loc)) : V unit :=
  match ps with
  | [] => vret tt
  | p :: ps' => renderPointee globals p;; renderPointees globals ps'
  end.

Definition RenderStruct (globals : UO) (source : VarsSource) : V unit :=
  renderPointees globals (pointers source).

(** *** The loaders *)

(** [VarsCtx.Update] and [VarsCtx.UpdateChild] merge the new variables
    into the object behind [varsCtx.Vars]. *)
Definition mergeVars (varsCtx : VarsCtx) (newVars : UO) (rootKey : string)
  : V unit :=
  cur ← loadObject (Vars varsCtx);
  if bool_decide (rootKey = "") then
    storeAt (Vars varsCtx) (CObject (uo_Merge cur newVars))
  else
    storeAt (Vars varsCtx) (CObject (uo_MergeChild rootKey cur newVars)).

(** The common end of [loadFile] and [loadFromString]. *)
Definition mergeUnderRoot (varsCtx : VarsCtx) (newVars : UO) (rootKey : string)
    (noRoot : error) : V unit :=
  if negb (bool_decide (rootKey = "")) then
    nested ← vlift (uo_GetNestedObject newVars rootKey);
    match nested with
    | None => vfail noRoot
    | Some newVars => mergeVars varsCtx newVars rootKey
    end
  else mergeVars varsCtx newVars rootKey.

Definition loadFile (varsCtx : VarsCtx) (path : string) (ignoreMissing : bool)
    (searchDirs : list string) (rootKey : string) : V unit :=
  vars ← loadObject (Vars varsCtx);
  match RenderFile vars path searchDirs with
  | inr err =>
      if ignoreMissing
         && bool_decide (Error_ err = "template " +:+ path +:+ " not found")
      then vret tt
      else vfail (wrapError ("failed to render vars file " +:+ path) err)
  | inl rendered =>
      let format := FormatForPath path in
      match MaybeDecrypt rendered format with
      | inr err => vfail (wrapError ("failed to decrypt vars file " +:+ path) err)
      | inl rendered =>
          newVars ← vlift (ReadYamlString rendered);
          mergeUnderRoot varsCtx newVars rootKey
            (errorString ("vars from " +:+ path +:+ " have no '" +:+ rootKey
                          +:+ "' root"))
      end
  end.

Definition renderYamlString (varsCtx : VarsCtx) (s : string) : V UO :=
  vars ← loadObject (Vars varsCtx);
  ret_ ← vlift (RenderString vars s);
  vlift (ReadYamlString ret_).

Definition loadFromString (varsCtx : VarsCtx) (s : string) (secretType : string)
    (rootKey : string) : V unit :=
  newVars ← renderYamlString varsCtx s;
  mergeUnderRoot varsCtx newVars rootKey
    (errorString (secretType +:+ " secret has no '" +:+ rootKey +:+ "' root")).

Definition emptyLiteral : string :=
  String (ascii_of_nat 34) (String (ascii_of_nat 34) EmptyString).

(** The callback of [IterateLeafs] in [loadSystemEnvs], for one leaf. *)
Definition loadSystemEnv (ignoreMissing : bool) (newVars : UO)
    (leaf : list string * fieldValue) : UO + error :=
  let '(keyPath, value) := leaf in
  match value with
  | FString envName =>
      let '(envName, defaultValue, hasDefaultValue) :=
        match gostrings.SplitN2 ":"%char envName with
        | Some (s0, s1) => (s0, s1, true)
        | None => (envName, "", false)
        end in
      let envValueStr :=
        match os_LookupEnv envName with
        | Some v => Some v
        | None =>
            if hasDefaultValue then
              (* treat empty default string as literal empty string *)
              Some (if bool_decide (defaultValue = "") then emptyLiteral
                    else defaultValue)
            else None
        end in
      match envValueStr with
      | None =>
          if ignoreMissing then inl newVars
          else inr (errorString ("environment variable " +:+ envName
                                 +:+ " not found for " +:+ ToJsonPath keyPath))
      | Some envValueStr =>
          match ReadYamlValue envValueStr with
          | inr err =>
              inr (wrapError ("failed to parse env value '" +:+ envValueStr +:+ "'") err)
          | inl envValue =>
              match uo_SetNestedField newVars envValue keyPath with
              | inr err =>
                  inr (wrapError ("failed to set value for " +:+ ToJsonPath keyPath) err)
              | inl newVars => inl newVars
              end
          end
      end
  | _ => inr (errorString ("value at " +:+ ToJsonPath keyPath +:+ " is not a string"))
  end.

Fixpoint iterateLeafs (ignoreMissing : bool) (leafs : list (list string * fieldValue))
    (newVars : UO) : UO + error :=
  match leafs with
  | [] => inl newVars
  | leaf :: leafs' =>
      match loadSystemEnv ignoreMissing newVars leaf with
      | inl newVars => iterateLeafs ignoreMissing leafs' newVars
      | inr err => inr err
      end
  end.

Definition loadSystemEnvs (varsCtx : VarsCtx) (source : VarsSource)
    (ignoreMissing : bool) (rootKey : string) : V unit :=
  match SystemEnvVars source with
  | None => vfail nilDereference
  | Some l =>
      envVars ← loadObject l;
      newVars ← vlift (iterateLeafs ignoreMissing (uo_Leafs envVars) uo_New);
      mergeVars varsCtx newVars rootKey
  end.

Definition loadAwsSecretsManager (v : VarsLoader) (varsCtx : VarsCtx)
    (source : VarsSource) (ignoreMissing : bool) (rootKey : string) : V unit :=
  if negb (hasAws v) then vfail (errorString "no AWS client factory provided")
  else
    match AwsSecretsManager source with
    | None => vfail nilDereference
    | Some l =>
        c ← load l;
        match c with
        | CAws w =>
            match GetAwsSecretsManagerSecret (Profile w) (Region w) (SecretName w) with
            | inr err =>
                if isResourceNotFound err && ignoreMissing then vret tt
                else vfail err
            | inl secret => loadFromString varsCtx secret "awsSecretsManager" rootKey
            end
        | _ => vfail nilDereference
        end
    end.

Definition loadVault (varsCtx : VarsCtx) (source : VarsSource)
    (ignoreMissing : bool) (rootKey : string) : V unit :=
  match Vault source with
  | None => vfail nilDereference
  | Some l =>
      c ← load l;
      match c with
      | CVault vlt =>
          secret ← vlift (vault_GetSecret (Address vlt) (VaultPath vlt));
          match secret with
          | None =>
              if ignoreMissing then vret tt
              else vfail (errorString "the specified vault secret was not found")
          | Some secret => loadFromString varsCtx secret "vault" rootKey
          end
      | _ => vfail nilDereference
      end
  end.

(** Modelled from the spec: [loadHttp] is in another file of the package.
    Like its siblings it resolves the source to a document and hands the
    document to [loadFromString]. *)
Definition loadHttp (varsCtx : VarsCtx) (source : VarsSource)
    (ignoreMissing : bool) (rootKey : string) : V unit :=
  match Http source with
  | None => vfail nilDereference
  | Some l =>
      c ← load l;
      match c with
      | CHttp h =>
          body ← vlift (http_Get h);
          match body with
          | None =>
              if ignoreMissing then vret tt
              else vfail (errorString "http request failed")
          | Some body => loadFromString varsCtx body "http" rootKey
          end
      | _ => vfail nilDereference
      end
  end.

Definition loadGit (varsCtx : VarsCtx) (gitFile : VarsSourceGit)
    (ignoreMissing : bool) (rootKey : string) : V unit :=
  match GetClonedDir (Url gitFile) (Ref gitFile) with
  | inr err =>
      vfail (wrapError ("failed to load vars from git repository " +:+ Url gitFile) err)
  | inl clonedDir =>
      loadFile varsCtx (GitPath gitFile) ignoreMissing [clonedDir] rootKey
  end.

Definition showLabels (labels : list (string * string)) : string :=
  "map[" +:+ String.concat " " ((λ kv, kv.1 +:+ ":" +:+ kv.2) <$> labels) +:+ "]".

Definition loadFromK8sObject (v : VarsLoader) (varsCtx : VarsCtx)
    (varsSource : VarsSourceClusterConfigMapOrSecret) (kind key rootKey : string)
    (ignoreMissing base64Decode : bool) : V unit :=
  if negb (hasK v) then vfail (errorString "loading vars from cluster is disabled")
  else
    let found : (option UO) + error :=
      if negb (bool_decide (CName varsSource = "")) then
        match k_GetSingleObject kind (CName varsSource) (CNamespace varsSource) with
        | inr err =>
            if ignoreMissing && IsNotFound err then inl None else inr err
        | inl obj => inl (Some obj)
        end
      else
        match k_ListObjects kind (CNamespace varsSource) (Labels varsSource) with
        | inr err => inr err
        | inl [] =>
            if ignoreMissing then inl None
            else inr (errorString ("no object found with labels "
                                   +:+ showLabels (Labels varsSource)))
        | inl [obj] => inl (Some obj)
        | inl _ =>
            inr (errorString ("found more than one objects with labels "
                              +:+ showLabels (Labels varsSource)))
        end in
    match found with
    | inr err => vfail err
    | inl None => vret tt
    | inl (Some obj) =>
        let ref := uo_RefString obj in
        match uo_GetNestedField obj ["data"; key] with
        | inr err => vfail err
        | inl None =>
            vfail (errorString ("key " +:+ key +:+ " not found in " +:+ ref
                                +:+ " on cluster"))
        | inl (Some f) =>
            let value : string + error :=
              match f with
              | FBytes b => inl b
              | FString s => if base64Decode then base64_Decode s else inl s
              | FOther => inl ""
              end in
            match value with
            | inr err => vfail err
            | inl value =>
                λ h, match loadFromString varsCtx value "k8s" rootKey h with
                     | (inr err, h') =>
                         (inr (wrapError
                                 ("failed to load vars from kubernetes object "
                                  +:+ ref +:+ " and key " +:+ key) err), h')
                     | ok => ok
                     end
            end
        end
    end.

Definition loadClusterObject (l : loc) : V VarsSourceClusterConfigMapOrSecret :=
  c ← load l;
  match c with CClusterObject o => vret o | _ => vfail nilDereference end.

Definition loadGitFile (l : loc) : V VarsSourceGit :=
  c ← load l;
  match c with CGit g => vret g | _ => vfail nilDereference end.

Definition LoadVars (v : VarsLoader) (varsCtx : VarsCtx) (sourceIn : loc)
    (searchDirs : list string) (rootKey : string) : V unit :=
  source ← DeepCopy sourceIn;

  vars ← loadObject (Vars varsCtx);
  globals ← vlift (uo_ToMap vars);

  RenderStruct globals source;;

  ignoreMissing ←
    match IgnoreMissing source with
    | Some l => loadBool l
    | None => vret false
    end;

  match Values source with
  | Some l =>
      values ← loadObject l;
      mergeVars varsCtx values rootKey
  | None =>
  match File source with
  | Some l =>
      file ← loadString l;
      loadFile varsCtx file ignoreMissing searchDirs rootKey
  | None =>
  match Git source with
  | Some l =>
      git ← loadGitFile l;
      loadGit varsCtx git ignoreMissing rootKey
  | None =>
  match ClusterConfigMap source with
  | Some l =>
      cm ← loadClusterObject l;
      loadFromK8sObject v varsCtx cm "ConfigMap" (Key cm) rootKey ignoreMissing false
  | None =>
  match ClusterSecret source with
  | Some l =>
      secret ← loadClusterObject l;
      loadFromK8sObject v varsCtx secret "Secret" (Key secret) rootKey ignoreMissing true
  | None =>
  if bool_decide (SystemEnvVars source ≠ None) then
    loadSystemEnvs varsCtx source ignoreMissing rootKey
  else if bool_decide (Http source ≠ None) then
    loadHttp varsCtx source ignoreMissing rootKey
  else if bool_decide (AwsSecretsManager source ≠ None) then
    loadAwsSecretsManager v varsCtx source ignoreMissing rootKey
  else if bool_decide (Vault source ≠ None) then
    loadVault varsCtx source ignoreMissing rootKey
  else
    vfail (errorString "invalid vars source")
  end end end end end.

Fixpoint LoadVarsList (v : VarsLoader) (varsCtx : VarsCtx) (varsList : list loc)
    (searchDirs : list string) (rootKey : string) : V unit :=
  match varsList with
  | [] => vret tt
  | source :: varsList' =>
      LoadVars v varsCtx source searchDirs rootKey;;
      LoadVarsList v varsCtx varsList' searchDirs rootKey
  end.

(** *** What a pointer to a [VarsSource] leads to *)

(** The locations of a source: the struct and what its pointers lead to. *)
Definition footprint (h : gmap loc cell) (p : loc) : list loc :=
  p :: match h !! p with
       | Some (CSource s) => omap id (pointers s)
       | _ => []
       end.

(** The source as a value: the struct with the contents behind each of
    its pointers. *)
Definition snapshot (h : gmap loc cell) (p : loc) : list (loc * option cell) :=
  (λ l, (l, h !! l)) <$> footprint h p.

End loader.

(** A small world to run the loader in: objects are association lists,
    the template engine marks what it has rendered. *)
Module sample.

Definition object := list (string * string).

Definition rendered (s : string) : string := "<" +:+ s +:+ ">".

#[export] Instance world : World object := {|
  uo_New := [];
  uo_Merge cur new := new ++ cur;
  uo_MergeChild key cur new := ((λ kv, (key +:+ "." +:+ kv.1, kv.2)) <$> new) ++ cur;
  uo_ToMap u := inl u;
  uo_GetNestedObject u key := inl (Some u);
  uo_GetNestedField u path := inl None;
  uo_SetNestedField u _ _ := inl u;
  uo_Leafs u := [];
  uo_RefString _ := "v1/ConfigMap/ns1/vars";
  ToJsonPath path := String.concat "." path;
  RenderString _ s := inl (rendered s);
  RenderObject _ u := inl ((λ kv, (kv.1, rendered kv.2)) <$> u);
  RenderFile _ path _ := inl ("file: " +:+ path);
  FormatForPath _ := "yaml";
  MaybeDecrypt s _ := inl s;
  ReadYamlString s := inl [("content", s)];
  ReadYamlValue s := inl (FString s);
  os_LookupEnv _ := None;
  GetClonedDir url _ := inl ("/cache/" +:+ url);
  k_GetSingleObject _ _ _ := inr (errorString "no cluster");
  k_ListObjects _ _ _ := inl [];
  base64_Decode s := inl s;
  GetAwsSecretsManagerSecret _ _ _ := inr (errorString "no aws");
  isResourceNotFound _ := false;
  vault_GetSecret _ _ := inl None;
  http_Get _ := inl None;
|}.

(** A caller's source [{file: "{{ env }}.yaml"}] at location 1, with the
    file name at location 2, and the variables so far at location 3. *)
Definition sourceIn : loc := 1%positive.
Definition varsCtx : VarsCtx := mkVarsCtx 3%positive.

Definition heap : gmap loc (cell object) :=
  <[1%positive := CSource (mkSource None None (Some 2%positive) None None None
                             None None None None)]>
  (<[2%positive := CString "{{ env }}.yaml"]>
  (<[3%positive := CObject [("env", "prod")]]> ∅)).

Definition loader : VarsLoader := mkVarsLoader false false.

End sample.

End vars.

(** ** Vocabulary of the properties of the apply engine *)

Module apply_spec.
Section apply_spec.

Context {W : Type}.

(** A mutating call is fine under dry-run setting [b] when its directive
    is [b]. *)
Definition dryOk (b : bool) (e : event) : Prop :=
  isMutation e = true → carriesDryRun e = b.

(** A method that, started with options satisfying [J], ends with options
    satisfying [J] and leaves only events satisfying [P] in its trace. *)
Definition sends (J : applyUtilOptions → Prop) (P : event → Prop) {A}
    (m : M W A) : Prop :=
  ∀ a, J (o a) → J (o (final (m a))) ∧ Forall P (trace (m a)).

(** Options whose dry-run setting is [b]. *)
Definition dryRunIs (b : bool) (opts : applyUtilOptions) : Prop := dryRun opts = b.

Definition isRunHooks (e : event) : bool :=
  match e with EvRunHooks _ _ => true | _ => false end.

(** The hook phases a trace runs, in order. *)
Definition phasesRun (t : list event) : list (list string) :=
  omap (λ e, match e with EvRunHooks _ phases => Some phases | _ => None end) t.

(** The client calls of a trace. *)
Definition apiCalls (t : list event) : list event := List.filter isApiCall t.

Definition isUpdateCall (e : event) : bool :=
  match e with EvUpdate _ _ => true | _ => false end.

Definition isPatchCall (e : event) : bool :=
  match e with EvPatch _ _ => true | _ => false end.

(** The object an UPDATE request carries. *)
Definition updateRequests (t : list event) : list Unstructured :=
  omap (λ e, match e with EvUpdate x _ => Some x | _ => None end) t.

Definition patchRequests (t : list event) : list (Unstructured * PatchOptions.t) :=
  omap (λ e, match e with EvPatch x opts => Some (x, opts) | _ => None end) t.

(** Why a hook wait ended in failure. *)
Inductive cause :=
| GetFailed (err : error)     (* the get returned an error other than NotFound *)
| Disappeared                 (* the get returned NotFound *)
| Invalid (errs : list validation.ValidateResultEntry)
                              (* validation: not ready, with errors *)
| TimedOut.                   (* the timeout is set and has elapsed *)

(** What one probe of a hook wait says. *)
Inductive verdict :=
| IsReady
| HasFailed (c : cause)
| Pending.

Definition probeVerdict `{!validation.Validator} (timeout elapsed : Z)
    (res : Unstructured + error) : verdict :=
  match res with
  | inr err =>
      if IsNotFound err then HasFailed Disappeared
      else HasFailed (GetFailed err)
  | inl obj =>
      let v := validation.ValidateObject obj false in
      if validation.Ready v then IsReady
      else match validation.Errors v with
           | _ :: _ => HasFailed (Invalid (validation.Errors v))
           | [] =>
               if bool_decide (timeout ≠ 0 ∧ timeout ≤ elapsed)
               then HasFailed TimedOut
               else Pending
           end
  end.

(** The errors recorded for the reference when the wait fails. *)
Definition recorded (c : cause) : list error :=
  match c with
  | GetFailed err => [err]
  | Disappeared =>
      [errorString "object disappeared while waiting for it to become ready"]
  | Invalid errs => (λ e, errorString (validation.Error e)) <$> errs
  | TimedOut => [errorString "timed out while waiting for hook"]
  end.

Definition timedOutLog : event :=
  EvLog WarnLevel "timed out while waiting for hook".

(** The engine after a get that took the world to [w1] and returned the
    warnings [ws]. *)
Definition afterGet (r : ObjectRef) (w1 : W) (ws : list ApiWarning)
    (a : applyUtil W) : applyUtil W :=
  apply_utils.with_deploymentCollection
    (addApiWarnings r ws (deploymentCollection a))
    (apply_utils.with_k w1 a).

(** The applied map a result goes to. *)
Definition appliedMap (hook : bool) (a : applyUtil W) : gmap ObjectRef Unstructured :=
  if hook then appliedHookObjects a else appliedObjects a.

End apply_spec.

(** Sample engines over the scripted cluster. *)
Import scripted.

Definition dryOptions : applyUtilOptions := mkOptions false true true true false 0.
Definition replaceOptions : applyUtilOptions := mkOptions false true false false false 0.
Definition forceReplaceOptions : applyUtilOptions := mkOptions false true true false false 0.
Definition forceApplyOptions : applyUtilOptions := mkOptions true false false false false 0.

(** cm1 exists remotely; the patch and the update are refused. *)
Definition dryEngine : applyUtil world :=
  engine [] [cm1Remote] [ReplyError invalid422; ReplyError invalid422] dryOptions.

(** cm1 exists remotely with resourceVersion 42; the patch is refused with
    a non-conflict 422. *)
Definition replaceEngine : applyUtil world :=
  engine [] [cm1Remote] [ReplyError invalid422] replaceOptions.

(** The item of the example: a pre-deploy hook job that exists on the
    cluster and a regular config map that does not. *)
Definition hookedItem : deploymentItem := item "app" false [job1; cm1].
Definition hookedEngine : applyUtil world :=
  engine [hookedItem] [job1] [] options0.


(** cm1 does not exist remotely; the patch is refused with a conflict. *)
Definition conflictEngine (opts : applyUtilOptions) : applyUtil world :=
  engine [] [] [ReplyError conflict409] opts.

End apply_spec.

(** ** Vocabulary of the properties of the scheduler *)

Module scheduler_spec.
Import scheduler.

Section scheduler_spec.

Context {W : Type}.

(** The scheduler has left its loop. *)
Definition stopped (p : pc) : bool :=
  match p with
  | AtFinalWait | AtDeferredWait | Returned => true
  | _ => false
  end.

(** Every task submitted has run or is still in the pool. *)
Definition accounted (s : system (W:=W)) : Prop :=
  submitted s ≡ₚ completed s ++ queue s.


End scheduler_spec.

Import scripted.


(** A barrier item whose only object is refused by the cluster, then a
    second item; errors abort. *)
Definition abortOptions : applyUtilOptions := mkOptions false false false false true 0.
Definition first : deploymentItem := item "first" true [cm1].
Definition second : deploymentItem := item "second" false [cm2].
Definition barrierEngine : applyUtil world :=
  engine [first; second] [] [ReplyError invalid422] abortOptions.

(** The scheduler reads the signal for [second] while [first] has not yet
    failed, waits on the barrier, and goes on. *)
Definition barrierSchedule : list action :=
  [Sched; Sched; Sched;   (* first: signal read, no barrier before it, submitted *)
   Sched;                 (* second: signal read as unset *)
   Work 0;                (* first runs: its patch fails, the signal is set *)
   Sched; Sched].         (* second: barrier wait entered and passed *)

Definition afterBarrier : system (W:=world) :=
  default (init barrierEngine) (run barrierSchedule (init barrierEngine)).



End scheduler_spec.

(** ** Vocabulary of the properties of the command teardown *)

Module commands_spec.
Import commands.

(** A step of the function that defers no clearing of the OCI cache. *)
Definition tidy {A} (m : G A) : Prop :=
  ∀ f, OciRpClear ∉ deferred f → OciRpClear ∉ deferred (m f).2.

(** How often a run's teardown makes a call. *)
Definition timesCalled (c : call) (calls : list call) : nat :=
  count_occ call_eq_dec calls c.

End commands_spec.

(** ** Vocabulary of the properties of the variable loader *)

Module vars_spec.
Import vars.

Section vars_spec.

Context {UO : Type}.

Local Abbreviation store := (gmap loc (cell UO)).

(** [h] extends [h0]: what [h0] holds is still allocated, and unchanged
    except behind [vl]. *)
Definition extends (h0 : store) (vl : loc) (h : store) : Prop :=
  ∀ l, is_Some (h0 !! l) → is_Some (h !! l) ∧ (l ≠ vl → h !! l = h0 !! l).

(** A step that keeps the store an extension of [h0], and whose result
    satisfies [Q] when it has one. *)
Definition safe (h0 : store) (vl : loc) {A} (Q : A → Prop) (m : V UO A) : Prop :=
  ∀ h, extends h0 vl h →
       extends h0 vl (m h).2 ∧ ∀ x, (m h).1 = inl x → Q x.

(** A pointer that leads outside [h0]. *)
Definition outside (h0 : store) (p : option loc) : Prop :=
  ∀ l, p = Some l → h0 !! l = None.

Definition anything {A} (x : A) : Prop := True.

(** No pointer of the source dangles. *)
Definition allocated (h : store) (p : loc) : Prop :=
  Forall (λ l, is_Some (h !! l)) (footprint h p).

End vars_spec.

End vars_spec.

(** ** Vocabulary of further properties of the apply engine *)

Module apply_more_spec.
Section apply_more_spec.

Context {W : Type}.

(** A method that issues at most [n] client calls. *)
Definition atMost (n : nat) {A} (m : M W A) : Prop :=
  ∀ a, (length (apply_spec.apiCalls (trace (m a))) ≤ n)%nat.

(** A method whose final state is related by [R] to the state it started
    from. *)
Definition moves (R : applyUtil W → applyUtil W → Prop) {A} (m : M W A) : Prop :=
  ∀ a, R a (final (m a)).

(** The warnings recorded so far for one reference. *)
Definition warningsOf (c : DeploymentCollection) (r : ObjectRef) : list error :=
  default [] (warnings c !! r).

(** The applied map a result does not go to. *)
Definition otherMap (hook : bool) (a : applyUtil W) : gmap ObjectRef Unstructured :=
  if hook then appliedObjects a else appliedHookObjects a.

(** The map that [hook] does not select and the options are as before. *)
Definition apart (hook : bool) (a a' : applyUtil W) : Prop :=
  otherMap hook a' = otherMap hook a ∧ o a' = o a.

(** Both applied maps and the options are as before. *)
Definition mapsKept (a a' : applyUtil W) : Prop :=
  appliedObjects a' = appliedObjects a
  ∧ appliedHookObjects a' = appliedHookObjects a
  ∧ o a' = o a.

(** The Abort Signal between two states of one run: it is never taken
    back, it is left alone when [abortOnError] is off, and under
    [abortOnError] it is set as soon as the error ledger has changed. *)
Definition signalled (a a' : applyUtil W) : Prop :=
  o a' = o a
  ∧ (abortSignal a = true → abortSignal a' = true)
  ∧ (abortOnError (o a) = false → abortSignal a' = abortSignal a)
  ∧ (abortOnError (o a) = true →
     errors (deploymentCollection a') ≠ errors (deploymentCollection a) →
     abortSignal a' = true).

End apply_more_spec.
(** Further sample engines over the scripted cluster. *)
Import scripted apply_spec.

Definition after (replies : list reply) : world := mkWorld replies 0 0.

(** A fresh cluster on which the patch goes through. *)
Definition acceptEngine : applyUtil world := engine [] [] [ReplyOk] options0.

(** The cluster does not know the kind; both replace options are on. *)
Definition noMatch : error := NoKindMatchError "Widget".
Definition noMatchEngine : applyUtil world :=
  engine [] [cm1Remote] [ReplyError noMatch] forceReplaceOptions.

(** The patch is refused; no replace option is on. *)
Definition plainEngine : applyUtil world :=
  engine [] [cm1Remote] [ReplyError invalid422] options0.

(** Patch and update are refused, delete and second patch go through. *)
Definition ladderEngine : applyUtil world :=
  engine [] [cm1Remote]
    [ReplyError invalid422; ReplyError forbidden403; ReplyOk; ReplyOk]
    forceReplaceOptions.

(** The next call is refused with 403. *)
Definition refusingEngine (opts : applyUtilOptions) : applyUtil world :=
  engine [] [cm1Remote] [ReplyError forbidden403] opts.

(** The next call goes through. *)
Definition acceptingEngine (opts : applyUtilOptions) : applyUtil world :=
  engine [] [cm1Remote] [ReplyOk] opts.

(** A conflict wrapped into another error: not a status error any more. *)
Definition wrappedConflict : error := wrapError "apply failed" conflict409.

End apply_more_spec.

(** ** Vocabulary of further properties of the scheduler *)

Module scheduler_more_spec.
Import scheduler scheduler_spec.

(** Whether the item submitted last, if any, is a barrier. *)
Definition lastBarrier (l : list deploymentItem) : bool :=
  match last l with
  | Some d => isBarrier d
  | None => false
  end.

(** The items of the range the scheduler has still to submit. *)
Definition pending (p : pc) : list deploymentItem :=
  match p with
  | AtLoopHead rest _ => rest
  | AtBarrierCheck d rest _ | AtBarrierWait d rest | AtSubmit d rest => d :: rest
  | _ => []
  end.

Section scheduler_more_spec.

Context {W : Type}.

(** Dispatch follows the collection: what was submitted, then what is
    pending, is the collection; after the loop what was submitted is a
    prefix of it. *)
Definition inOrder (a0 : applyUtil W) (s : system (W:=W)) : Prop :=
  submitted s `prefix_of` deployments (deploymentCollection a0)
  ∧ (stopped (at_ s) = false →
     submitted s ++ pending (at_ s) = deployments (deploymentCollection a0)).

(** What the scheduler knows about the last submitted item is right, and
    after a barrier item it submits into an empty pool. *)
Definition barrierKept (s : system (W:=W)) : Prop :=
  match at_ s with
  | AtLoopHead _ previousWasBarrier | AtBarrierCheck _ _ previousWasBarrier =>
      previousWasBarrier = lastBarrier (submitted s)
  | AtBarrierWait _ _ => lastBarrier (submitted s) = true
  | AtSubmit _ _ => lastBarrier (submitted s) = true → queue s = []
  | _ => True
  end.

End scheduler_more_spec.

Import scripted.

(** A barrier item followed by another item; nothing fails. *)
Definition calmEngine : applyUtil world :=
  engine [scheduler_spec.first; scheduler_spec.second] [] [] options0.

(** The scheduler submits the first item, reads the signal for the second
    and enters the barrier wait; the first item runs; the wait is over. *)
Definition calmSchedule : list action :=
  [Sched; Sched; Sched; Sched; Sched; Work 0; Sched].

Definition calmAtSubmit : system (W:=world) :=
  default (init calmEngine) (run calmSchedule (init calmEngine)).

End scheduler_more_spec.

(** ** A cluster with a steady clock *)

Module steady.

(** Calls take no time; [Sleep] advances the clock by what it is given. *)
Record world := mkWorld {
  ready_after : nat;   (* the number of gets after which the object is ready *)
  clock : Z;
}.

Definition pod : Unstructured :=
  mkObj (mkRef "" "v1" "Pod" "hook" "ns1") "" [] [].

Definition readyPod : Unstructured :=
  mkObj (mkRef "" "v1" "Pod" "hook" "ns1") "" [] [("ready", "true")].

#[export] Instance cluster : K8sCluster world := {|
  FixObjectForPatch x := x;
  DeleteSingleObject _ _ w := (w, ([], None));
  PatchObject x _ w := (w, ([], inl x));
  UpdateObject x _ w := (w, ([], inl x));
  GetSingleObject _ w :=
    match ready_after w with
    | O => (w, ([], inl readyPod))
    | S n => (mkWorld n (clock w), ([], inl pod))
    end;
  Now w := clock w;
  Sleep d w := mkWorld (ready_after w) (clock w + d);
|}.

(** A hook that never gets ready within the timeout of two seconds. *)
Definition twoSeconds : Z := 2000 * gotime.Millisecond.

Definition engine : applyUtil world :=
  newApplyUtil (scripted.collection [] []) (mkWorld 100 0)
    (mkOptions false false false false false twoSeconds).

End steady.

(** ** Vocabulary of further properties of the project setup *)

Module commands_more_spec.
Import commands commands_spec.

(** The deferred calls after [n] of the function's [defer] statements. *)
Definition stack (tmp : string) (n : nat) : list call :=
  drop (5 - n)%nat [GitRpClear; GitRpClear; Cancel; J2Close; RemoveAll tmp].

(** The teardowns the function can end with once the temporary directory
    exists. *)
Definition shapes (tmp : string) : list (list call) :=
  [stack tmp 1%nat; stack tmp 2%nat; stack tmp 3%nat; stack tmp 5%nat].

(** A step that defers nothing. *)
Definition quiet {A} (m : G A) : Prop :=
  ∀ f, deferred (m f).2 = deferred f.

(** A step that, started after [i] defers, ends after [j] defers when it
    succeeds and after one of [F] defers when it fails. *)
Definition lands (tmp : string) (i : nat) (F : list nat) (j : nat) {A}
    (m : G A) : Prop :=
  ∀ f, deferred f = stack tmp i →
       match (m f).1 with
       | inl _ => deferred (m f).2 = stack tmp j
       | inr _ => ∃ k, k ∈ F ∧ deferred (m f).2 = stack tmp k
       end.

(** A step that does not call [c] unless it was called before. *)
Definition avoids (c : call) {A} (m : G A) : Prop :=
  ∀ f, c ∉ made f → c ∉ made (m f).2.

(** A step that, started in a frame with [P], ends in a frame with [Q x]
    when it succeeds with [x] and in one with [E e] when it fails with
    [e]. *)
Definition triple {A} (P : frame → Prop) (m : G A) (Q : A → frame → Prop)
    (E : error → frame → Prop) : Prop :=
  ∀ f, P f → match (m f).1 with
             | inl x => Q x (m f).2
             | inr e => E e (m f).2
             end.

(** Collaborators that accept repository keys of the form [host/path] only
    and read [host:path] as a git url. *)
Module legacy.
#[export] Instance collaborators : Collaborators := {|
  os_MkdirTemp p := inl ("/tmp/" +:+ p +:+ "1");
  kluctl_jinja2_New _ := inl tt;
  GetProjectDir := inl "/work/project";
  DetectGitRepositoryRoot d := inl d;
  ParseRepoKey s :=
    match gostrings.SplitN2 ":"%char s with
    | Some _ => inr (errorString "invalid repo key")
    | None => inl s
    end;
  ParseGitUrl s :=
    match gostrings.SplitN2 ":"%char s with
    | Some (h, p) => inl (mkGitUrl h p)
    | None => inr (errorString "invalid git url")
    end;
  ParseArgs _ := inl [];
  ConvertArgsToVars a _ := inl a;
  uo_FromFile _ := inl [];
  kluctl_project_Load _ _ := inl tt;
|}.
End legacy.

End commands_more_spec.

(** ** Vocabulary of further properties of the variable loader *)

Module vars_more_spec.
Import vars vars_spec.

Section vars_more_spec.

Context {UO : Type}.

Local Abbreviation store := (gmap loc (cell UO)).

(** [h] holds everything [h0] holds. *)
Definition agrees (h0 h : store) : Prop :=
  ∀ l, is_Some (h0 !! l) → h !! l = h0 !! l.

(** A step that writes to nothing [h0] holds, and whose result satisfies
    [Q] when it has one. *)
Definition reads (h0 : store) {A} (Q : A → Prop) (m : V UO A) : Prop :=
  ∀ h, agrees h0 h → agrees h0 (m h).2 ∧ ∀ x, (m h).1 = inl x → Q x.

(** A step that writes to nothing [h0] holds when it fails. *)
Definition atomic (h0 : store) {A} (m : V UO A) : Prop :=
  ∀ h, agrees h0 h → ∀ e, (m h).1 = inr e → agrees h0 (m h).2.

(** A source with no field set. *)
Definition emptySource : VarsSource :=
  mkSource None None None None None None None None None None.

(** A source with only [values] set. *)
Definition valuesSource (values : loc) : VarsSource :=
  mkSource None (Some values) None None None None None None None None.

End vars_more_spec.

(** Stores to run the loader on: the source at location 1, the variables so
    far at location 3. *)
Module sample.
Import vars.sample.

Definition emptyHeap : gmap loc (cell object) :=
  <[1%positive := CSource emptySource]>
  (<[3%positive := CObject [("env", "prod")]]> ∅).

Definition valuesHeap : gmap loc (cell object) :=
  <[1%positive := CSource (valuesSource 2%positive)]>
  (<[2%positive := CObject [("name", "{{ env }}-app")]]>
  (<[3%positive := CObject [("env", "prod")]]> ∅)).

End sample.

End vars_more_spec.

(** ** [cmd/kluctl/commands]: the target context of a command *)

Module target.
Import errors.

(** What [withProjectTargetCommandContext] and [initStores] do to the
    outside, with the arguments the properties below speak of. *)
Inductive call :=
  | MkdirTemp (dir pattern : string)
  | RemoveAll (dir : string)
  | LoadK8sConfig (dryRun : bool) (renderOutputDir : string)
  | CreateDiscoveryAndMapper
  | StatusStart (msg : string)
  | StatusFailed
  | StatusSuccess
  | NewK8sCluster (dryRun : bool)
  | ClientNew
  | NewResultStoreSecrets
  | NewTargetContext (hasCluster : bool) (dryRun : bool) (renderOutputDir : string)
  | Prepare
  | Callback (hasResultStore : bool).

(** The function's frame: the calls made so far and the deferred calls,
    last deferred first. *)
Record frame := mkFrame {
  made : list call;
  deferred : list call;
}.

Definition T (A : Type) : Type := frame → (A + error) * frame.

Definition treturn {A} (x : A) : T A := λ f, (inl x, f).
Definition tfail {A} (e : error) : T A := λ f, (inr e, f).
Definition tbind {A B} (m : T A) (k : A → T B) : T B :=
  λ f, match m f with
       | (inl x, f') => k x f'
       | (inr e, f') => (inr e, f')
       end.
Definition does (c : call) : T unit :=
  λ f, (inl tt, mkFrame (made f ++ [c]) (deferred f)).
Definition defer (c : call) : T unit :=
  λ f, (inl tt, mkFrame (made f) (c :: deferred f)).
Definition lift {A} (r : A + error) : T A := λ f, (r, f).

(** Running a function to its return: the deferred calls run last. *)
Definition invoke {A} (body : T A) : (A + error) * list call * list call :=
  let '(r, f) := body (mkFrame [] []) in
  (r, made f, deferred f).

Definition returned {A} (r : (A + error) * list call * list call) : A + error := r.1.1.
Definition body_calls {A} (r : (A + error) * list call * list call) : list call := r.1.2.
Definition teardown {A} (r : (A + error) * list call * list call) : list call := r.2.

(** The flags of package [args] that the function reads. *)
Module args.
Record TargetFlags := mkTargetFlags {
  Target : string;
  TargetNameOverride : string;
  Context : string;
}.
Record DryRunFlags := mkDryRunFlags {
  DryRun : bool;
}.
Record RenderOutputDirFlags := mkRenderOutputDirFlags {
  RenderOutputDir : string;
}.
Record CommandResultFlags := mkCommandResultFlags {
  WriteCommandResult : bool;
  CommandResultNamespace : string;
  KeepCommandResultsCount : Z;
  KeepValidateResultsCount : Z;
}.
End args.

(** The objects the function passes on without looking into them. *)
Class Objects := {
  ImageFlags : Type;
  InclusionFlags : Type;
  HelmCredentials : Type;
  Images : Type;
  FixedImages : Type;
  Inclusion : Type;
  LoadedKluctlProject : Type;
  ClientConfig : Type;
  Discovery : Type;
  RESTMapper : Type;
  K8sCluster : Type;
  Client : Type;
  ResultStore : Type;
  TargetContext : Type;
}.

Module kluctl_project.
Section kluctl_project.
Context `{!Objects}.
Record TargetContextParams := mkParams {
  TargetName : string;
  TargetNameOverride : string;
  ContextOverride : string;
  OfflineK8s : bool;
  K8sVersion : string;
  DryRun : bool;
  ForSeal : bool;
  Images_ : Images;
  Inclusion_ : Inclusion;
  HelmCredentials_ : HelmCredentials;
  RenderOutputDir : string;
}.
End kluctl_project.
End kluctl_project.

Section target.
Context `{!Objects}.

(** The fields of [projectTargetCommandArgs] that
    [withProjectTargetCommandContext] reads. *)
Record projectTargetCommandArgs := mkArgs {
  targetFlags : args.TargetFlags;
  imageFlags : ImageFlags;
  inclusionFlags : InclusionFlags;
  helmCredentials : HelmCredentials;
  dryRunArgs : option args.DryRunFlags;             (* *args.DryRunFlags *)
  renderOutputDirFlags : args.RenderOutputDirFlags;
  commandResultFlags : option args.CommandResultFlags; (* *args.CommandResultFlags *)
  forSeal : bool;
  forCompletion : bool;
  offlineKubernetes : bool;
  kubernetesVersion : string;
}.

Record commandCtx := mkCommandCtx {
  targetCtx : TargetContext;
  images : Images;
  resultId : string;
  resultStore : option ResultStore;
}.

(** The collaborators of the two functions. *)
Class World := {
  deployment_NewImages : Images + error;
  LoadFixedImagesFromArgs : ImageFlags → FixedImages + error;
  PrependFixedImages : Images → FixedImages → Images;
  ParseInclusionFromArgs : InclusionFlags → Inclusion + error;
  TmpDir : LoadedKluctlProject → string;
  os_MkdirTemp : string → string → string + error;
  uuid_NewString : string;
  p_LoadK8sConfig : LoadedKluctlProject → kluctl_project.TargetContextParams
                    → (option ClientConfig * string) + error;
  k8s_CreateDiscoveryAndMapper : ClientConfig → (Discovery * RESTMapper) + error;
  k8s_NewK8sCluster : ClientConfig → Discovery → RESTMapper → bool
                      → K8sCluster + error;
  client2_New : ClientConfig → RESTMapper → Client + error;
  results_NewResultStoreSecrets : ClientConfig → Client → string → Z → Z
                                  → ResultStore + error;
  p_NewTargetContext : LoadedKluctlProject → string → option K8sCluster
                       → kluctl_project.TargetContextParams
                       → TargetContext + error;
  DeploymentCollection_Prepare : TargetContext → option error;
}.

End target.

Declare Scope target_scope.
Notation "x ← y ; z" := (tbind y (λ x, z))
  (at level 20, y at level 100, z at level 200, only parsing) : target_scope.
Notation "' p ← y ; z" := (tbind y (λ p, z))
  (at level 20, p pattern, y at level 100, z at level 200, only parsing)
  : target_scope.
Notation "y ;; z" := (tbind y (λ _, z))
  (at level 100, z at level 200, only parsing, right associativity)
  : target_scope.

Section functions.
Context `{!Objects} `{!World}.
Local Open Scope target_scope.

Definition initStores (clientConfig : ClientConfig) (mapper : RESTMapper)
    (flags : option args.CommandResultFlags) : T (option ResultStore) :=
  match flags with
  | None => treturn None
  | Some flags =>
      if negb (args.WriteCommandResult flags) then treturn None
      else
        does ClientNew;;
        client ← lift (client2_New clientConfig mapper);
        does NewResultStoreSecrets;;
        resultStore ← lift (results_NewResultStoreSecrets clientConfig client
                              (args.CommandResultNamespace flags)
                              (args.KeepCommandResultsCount flags)
                              (args.KeepValidateResultsCount flags));
        treturn (Some resultStore)
  end.

(** [args.dryRunArgs == nil || args.dryRunArgs.DryRun || args.forCompletion] *)
Definition dryRunOf (a : projectTargetCommandArgs) : bool :=
  match dryRunArgs a with
  | None => true
  | Some flags => args.DryRun flags || forCompletion a
  end.

Definition withProjectTargetCommandContext (a : projectTargetCommandArgs)
    (p : LoadedKluctlProject) (cb : commandCtx → unit + error) : T unit :=
  images ← lift deployment_NewImages;
  fixedImages ← lift (LoadFixedImagesFromArgs (imageFlags a));
  let images := PrependFixedImages images fixedImages in

  inclusion ← lift (ParseInclusionFromArgs (inclusionFlags a));

  let renderOutputDir := args.RenderOutputDir (renderOutputDirFlags a) in
  renderOutputDir ←
    (if bool_decide (renderOutputDir = "") then
       does (MkdirTemp (TmpDir p) "rendered");;
       tmpDir ← lift (os_MkdirTemp (TmpDir p) "rendered");
       defer (RemoveAll tmpDir);;
       treturn tmpDir
     else treturn renderOutputDir);

  let targetParams :=
    kluctl_project.mkParams
      (args.Target (targetFlags a))
      (args.TargetNameOverride (targetFlags a))
      (args.Context (targetFlags a))
      (offlineKubernetes a)
      (kubernetesVersion a)
      (dryRunOf a)
      (forSeal a)
      images
      inclusion
      (helmCredentials a)
      renderOutputDir in

  let commandResultId := uuid_NewString in

  does (LoadK8sConfig (kluctl_project.DryRun targetParams)
          (kluctl_project.RenderOutputDir targetParams));;
  '(clientConfig, contextName) ← lift (p_LoadK8sConfig p targetParams);

  '(k, resultStore) ←
    match clientConfig with
    | Some clientConfig =>
        does CreateDiscoveryAndMapper;;
        '(discovery, mapper) ← lift (k8s_CreateDiscoveryAndMapper clientConfig);

        does (StatusStart "Initializing k8s client");;
        does (NewK8sCluster (kluctl_project.DryRun targetParams));;
        match k8s_NewK8sCluster clientConfig discovery mapper
                (kluctl_project.DryRun targetParams) with
        | inr err =>
            does StatusFailed;;
            tfail err
        | inl k =>
            does StatusSuccess;;
            resultStore ← initStores clientConfig mapper (commandResultFlags a);
            treturn (Some k, resultStore)
        end
    | None => treturn (None, None)
    end;

  does (NewTargetContext (bool_decide (k ≠ None))
          (kluctl_project.DryRun targetParams)
          (kluctl_project.RenderOutputDir targetParams));;
  targetCtx ← lift (p_NewTargetContext p contextName k targetParams);

  (if negb (forSeal a) && negb (forCompletion a) then
     does Prepare;;
     match DeploymentCollection_Prepare targetCtx with
     | Some err => tfail err
     | None => treturn tt
     end
   else treturn tt);;

  let cmdCtx := mkCommandCtx targetCtx images commandResultId resultStore in
  does (Callback (bool_decide (resultStore ≠ None)));;
  lift (cb cmdCtx).

End functions.

End target.

(** ** Vocabulary of the properties of the target context *)

Module target_spec.
Import errors target.

(** The dry-run setting a call carries, if it carries one. *)
Definition dryRunSent (c : call) : option bool :=
  match c with
  | LoadK8sConfig d _ | NewK8sCluster d | NewTargetContext _ d _ => Some d
  | _ => None
  end.

(** The render output directory a call carries, if it carries one. *)
Definition renderDirSent (c : call) : option string :=
  match c with
  | LoadK8sConfig _ dir | NewTargetContext _ _ dir => Some dir
  | _ => None
  end.

(** The calls that build or use the store of command results. *)
Definition usesResultStore (c : call) : bool :=
  match c with
  | ClientNew | NewResultStoreSecrets | Callback true => true
  | _ => false
  end.

(** The calls that hand a cluster client on. *)
Definition usesCluster (c : call) : bool :=
  match c with
  | NewTargetContext true _ _ | ClientNew | NewResultStoreSecrets
  | Callback true => true
  | _ => false
  end.

Section target_spec.
Context `{!Objects}.

(** The command asks for its result to be written. *)
Definition asksForResult (a : projectTargetCommandArgs) : Prop :=
  ∃ flags, commandResultFlags a = Some flags
           ∧ args.WriteCommandResult flags = true.

(** The command asks for a run that is no dry run. *)
Definition asksForLiveRun (a : projectTargetCommandArgs) : Prop :=
  ∃ flags, dryRunArgs a = Some flags
           ∧ args.DryRun flags = false ∧ forCompletion a = false.

End target_spec.

(** A world in which every collaborator succeeds and a cluster is
    configured. *)
Module sample.

#[export] Instance objects : Objects := {|
  ImageFlags := unit;
  InclusionFlags := unit;
  HelmCredentials := unit;
  Images := list string;
  FixedImages := list string;
  Inclusion := unit;
  LoadedKluctlProject := string;
  ClientConfig := string;
  Discovery := unit;
  RESTMapper := unit;
  K8sCluster := bool;
  Client := unit;
  ResultStore := string;
  TargetContext := string;
|}.

#[export] Instance world : World := {|
  deployment_NewImages := inl [];
  LoadFixedImagesFromArgs _ := inl ["nginx:1.25"];
  PrependFixedImages images fixed := fixed ++ images;
  ParseInclusionFromArgs _ := inl tt;
  TmpDir p := p;
  os_MkdirTemp dir pattern := inl (dir +:+ "/" +:+ pattern +:+ "1");
  uuid_NewString := "0b8d7a52";
  p_LoadK8sConfig _ _ := inl (Some "kubeconfig", "prod");
  k8s_CreateDiscoveryAndMapper _ := inl (tt, tt);
  k8s_NewK8sCluster _ _ _ dryRun := inl dryRun;
  client2_New _ _ := inl tt;
  results_NewResultStoreSecrets _ _ ns _ _ := inl ns;
  p_NewTargetContext _ contextName _ _ := inl contextName;
  DeploymentCollection_Prepare _ := None;
|}.

(** [kluctl deploy --no-dry-run]-like arguments: a live run that writes its
    result. *)
Definition liveArgs : projectTargetCommandArgs :=
  mkArgs (args.mkTargetFlags "prod" "" "") tt tt tt
    (Some (args.mkDryRunFlags false))
    (args.mkRenderOutputDirFlags "")
    (Some (args.mkCommandResultFlags true "kluctl-results" 5 2))
    false false false "".

End sample.

End target_spec.

(* ===================================================================== *)
(** * Part II: properties                                                *)
(* ===================================================================== *)

Module apply_proofs.
Import apply_utils apply_spec.

Section apply_proofs.

Context {W : Type} `{!K8sCluster W} `{!diff.Resolver} `{!validation.Validator}
        `{!HooksUtil W}.

(** *** Results, final states and traces of composed methods *)

Lemma run_bind {A B} (m : M W A) (f : A → M W B) (a : applyUtil W) :
  bind m f a
  = (result (f (result (m a)) (final (m a))),
     final (f (result (m a)) (final (m a))),
     trace (m a) ++ trace (f (result (m a)) (final (m a)))).
Proof.
  unfold bind, result, final, trace.
  destruct (m a) as [[x a1] t1]. cbn.
  by destruct (f x a1) as [[y a2] t2].
Qed.

Lemma trace_bind {A B} (m : M W A) (f : A → M W B) (a : applyUtil W) :
  trace (bind m f a) = trace (m a) ++ trace (f (result (m a)) (final (m a))).
Proof. by rewrite run_bind. Qed.

Lemma final_bind {A B} (m : M W A) (f : A → M W B) (a : applyUtil W) :
  final (bind m f a) = final (f (result (m a)) (final (m a))).
Proof. by rewrite run_bind. Qed.

Lemma result_bind {A B} (m : M W A) (f : A → M W B) (a : applyUtil W) :
  result (bind m f a) = result (f (result (m a)) (final (m a))).
Proof. by rewrite run_bind. Qed.

(** *** Invariants of the options and of the trace *)

Section sends.

Variable J : applyUtilOptions → Prop.
Variable P : event → Prop.

Hypothesis P_log : ∀ l msg, P (EvLog l msg).
Hypothesis P_patch : ∀ opts x force,
  J opts → P (EvPatch x (PatchOptions.mk (dryRun opts) force)).
Hypothesis P_update : ∀ opts x,
  J opts → P (EvUpdate x (UpdateOptions.mk (dryRun opts))).
Hypothesis P_delete : ∀ opts r,
  J opts → P (EvDelete r (DeleteOptions.mk (dryRun opts))).

Local Abbreviation sends m := (apply_spec.sends (W:=W) J P m).

Lemma sends_ret {A} (x : A) : sends (ret x).
Proof. intros a Ha. split; [done | constructor]. Qed.

Lemma sends_bind {A B} (m : M W A) (f : A → M W B) :
  sends m → (∀ x, sends (f x)) → sends (bind m f).
Proof.
  intros Hm Hf a Ha. rewrite final_bind, trace_bind.
  destruct (Hm a Ha) as [H1 H2].
  destruct (Hf (result (m a)) _ H1) as [H3 H4].
  split; [done | by apply Forall_app].
Qed.

Lemma sends_gets {A B} (g : applyUtil W → A) (f : A → M W B) :
  (∀ a, J (o a) → sends (f (g a))) → sends (bind (gets g) f).
Proof.
  intros Hf a Ha. rewrite final_bind, trace_bind. cbn.
  by destruct (Hf a Ha a Ha).
Qed.

Lemma sends_modify (f : applyUtil W → applyUtil W) :
  (∀ a, o (f a) = o a) → sends (modify f).
Proof. intros Hf a Ha. split; [cbn; by rewrite Hf | constructor]. Qed.

Lemma sends_emit e : P e → sends (emit e).
Proof. intros He a Ha. split; [done | by repeat constructor]. Qed.

Lemma sends_forM {A} (l : list A) (f : A → M W unit) :
  (∀ x, sends (f x)) → sends (forM_ l f).
Proof.
  intros Hf. induction l as [|x l IH]; cbn.
  - apply sends_ret.
  - apply sends_bind; auto.
Qed.

Lemma sends_handleError r e : sends (handleError r e).
Proof. apply sends_modify. intros a. by destruct (abortOnError (o a)). Qed.

Lemma sends_handleResult x hook : sends (handleResult x hook).
Proof. unfold handleResult. destruct hook; by apply sends_modify. Qed.

Lemma sends_handleApiWarnings r ws : sends (handleApiWarnings r ws).
Proof. by apply sends_modify. Qed.

Lemma sends_handleWarning r w : sends (handleWarning r w).
Proof. by apply sends_modify. Qed.

Lemma sends_logf l msg : sends (logf l msg).
Proof. by apply sends_emit. Qed.

Lemma sends_Patch opts x force :
  J opts → sends (k_PatchObject x (PatchOptions.mk (dryRun opts) force)).
Proof.
  intros Hopts a Ha. unfold k_PatchObject.
  destruct (PatchObject _ _ _) as [w res]. cbn.
  split; [done | repeat constructor; by apply P_patch].
Qed.

Lemma sends_Update opts x :
  J opts → sends (k_UpdateObject x (UpdateOptions.mk (dryRun opts))).
Proof.
  intros Hopts a Ha. unfold k_UpdateObject.
  destruct (UpdateObject _ _ _) as [w res]. cbn.
  split; [done | repeat constructor; by apply P_update].
Qed.

Lemma sends_Delete opts r :
  J opts → sends (k_DeleteSingleObject r (DeleteOptions.mk (dryRun opts))).
Proof.
  intros Hopts a Ha. unfold k_DeleteSingleObject.
  destruct (DeleteSingleObject _ _ _) as [w res]. cbn.
  split; [done | repeat constructor; by apply P_delete].
Qed.

Create HintDb sends.
#[local] Hint Resolve sends_ret sends_handleError sends_handleResult
  sends_handleApiWarnings sends_handleWarning sends_logf sends_Patch
  sends_Update sends_Delete : sends.

(** One step through a method: split a bind, read an option, case on what
    the cluster returned. *)
Ltac sends_step :=
  match goal with
  | |- apply_spec.sends _ _ (bind (gets _) _) => apply sends_gets; intros ? ?
  | |- apply_spec.sends _ _ (bind _ _) => apply sends_bind; [| intros ?]
  | |- apply_spec.sends _ _ (forM_ _ _) => apply sends_forM; intros ?
  | |- apply_spec.sends _ _ (match ?x with _ => _ end) => destruct x
  | |- apply_spec.sends _ _ _ => solve [eauto with sends]
  end.

Lemma sends_deleteObject r : sends (deleteObject r).
Proof. unfold deleteObject. repeat sends_step. Qed.

Lemma sends_retryApplyForceReplace x hook err :
  sends (retryApplyForceReplace x hook err).
Proof.
  unfold retryApplyForceReplace. pose proof sends_deleteObject.
  repeat sends_step.
Qed.

Lemma sends_retryApplyWithReplace x hook remote err :
  sends (retryApplyWithReplace x hook remote err).
Proof.
  unfold retryApplyWithReplace. pose proof sends_retryApplyForceReplace.
  repeat sends_step.
Qed.

Lemma sends_forcedPatch x r hook : sends (forcedPatch x r hook).
Proof. unfold forcedPatch. repeat sends_step. Qed.

Lemma sends_retryApplyWithConflicts x hook remote err :
  sends (retryApplyWithConflicts x hook remote err).
Proof.
  unfold retryApplyWithConflicts. pose proof sends_forcedPatch.
  repeat sends_step.
Qed.

Lemma sends_applyObject x replaced hook :
  sends (applyObject x replaced hook).
Proof.
  unfold applyObject.
  pose proof sends_retryApplyWithConflicts.
  pose proof sends_retryApplyWithReplace.
  repeat sends_step.
Qed.

End sends.

(** With dry-run at [b], every mutation carries [b]. *)

Lemma dry_log b l msg : dryOk b (EvLog l msg).
Proof. by intros ?. Qed.

Lemma dry_patch b opts x force :
  dryRunIs b opts → dryOk b (EvPatch x (PatchOptions.mk (dryRun opts) force)).
Proof. by intros Hb _. Qed.

Lemma dry_update b opts x :
  dryRunIs b opts → dryOk b (EvUpdate x (UpdateOptions.mk (dryRun opts))).
Proof. by intros Hb _. Qed.

Lemma dry_delete b opts r :
  dryRunIs b opts → dryOk b (EvDelete r (DeleteOptions.mk (dryRun opts))).
Proof. by intros Hb _. Qed.

(** C6. Under dry-run, every mutating call the apply engine issues (the
    patch of [applyObject], the forced re-apply after a conflict, the
    update and the delete-and-patch of the replace ladder, and the delete
    of [deleteObject]) carries the server-side dry-run directive. *)
Theorem dry_run_mutations_carry_directive
    (a : applyUtil W) (x : Unstructured) (replaced hook : bool)
    (remote : option Unstructured) (err : error) (r : ObjectRef) :
  dryRun (o a) = true →
  Forall (dryOk true) (trace (applyObject x replaced hook a))
  ∧ Forall (dryOk true) (trace (deleteObject r a))
  ∧ Forall (dryOk true) (trace (retryApplyWithConflicts x hook remote err a))
  ∧ Forall (dryOk true) (trace (retryApplyWithReplace x hook remote err a))
  ∧ Forall (dryOk true) (trace (retryApplyForceReplace x hook err a)).
Proof.
  intros Hdry.
  pose proof (dry_log true) as Hl. pose proof (dry_patch true) as Hp.
  pose proof (dry_update true) as Hu. pose proof (dry_delete true) as Hd.
  repeat split.
  - by apply (sends_applyObject (dryRunIs true) (dryOk true)).
  - by apply (sends_deleteObject (dryRunIs true) (dryOk true)).
  - by apply (sends_retryApplyWithConflicts (dryRunIs true) (dryOk true)).
  - by apply (sends_retryApplyWithReplace (dryRunIs true) (dryOk true)).
  - by apply (sends_retryApplyForceReplace (dryRunIs true) (dryOk true)).
Qed.

(** *** The ledger and the applied maps *)


Lemma errorsOf_addError_ne c r r' err :
  r ≠ r' → errorsOf (addError r err c) r' = errorsOf c r'.
Proof. intros Hne. unfold errorsOf, addError. cbn. by rewrite lookup_insert_ne. Qed.

Lemma handleError_final (a : applyUtil W) r err :
  final (handleError r err a)
  = with_deploymentCollection (addError r err (deploymentCollection a))
      (if abortOnError (o a) then with_abortSignal true a else a).
Proof. unfold handleError, modify, final. cbn. by destruct (abortOnError (o a)). Qed.

Lemma appliedMap_handleResult (a : applyUtil W) x hook :
  appliedMap hook (final (handleResult x hook a)) !! RefFromObject x = Some x.
Proof. destruct hook; cbn; by rewrite lookup_insert_eq. Qed.

(** C9. On the force-replace path, after a successful delete there is one
    retry and no more. Under dry-run the input object is recorded as the
    result and no call follows the delete. Otherwise one patch of the
    object follows the delete; when it goes through, its result is
    recorded; when it fails, its error is recorded for the reference, the
    applied maps stay as they were and no other call is made. *)
Theorem force_replace_retries_once
    (a : applyUtil W) (x : Unstructured) (hook : bool) (applyError : error)
    (w1 : W) (ws1 : list ApiWarning) :
  forceReplaceOnError (o a) = true →
  DeleteSingleObject (RefFromObject x) (DeleteOptions.mk (dryRun (o a))) (k a)
    = (w1, (ws1, None)) →
  let run := retryApplyForceReplace x hook applyError a in
  if dryRun (o a) then
    apiCalls (trace run) = [EvDelete (RefFromObject x) (DeleteOptions.mk true)]
    ∧ k (final run) = w1
    ∧ appliedMap hook (final run) !! RefFromObject x = Some x
    ∧ errors (deploymentCollection (final run)) = errors (deploymentCollection a)
  else
    let '(w2, (ws2, res)) := PatchObject x (PatchOptions.mk false false) w1 in
    apiCalls (trace run)
      = [EvDelete (RefFromObject x) (DeleteOptions.mk false);
         EvPatch x (PatchOptions.mk false false)]
    ∧ k (final run) = w2
    ∧ match res with
      | inl r1 =>
          appliedMap hook (final run) !! RefFromObject r1 = Some r1
          ∧ errors (deploymentCollection (final run))
            = errors (deploymentCollection a)
      | inr err =>
          errorsOf (deploymentCollection (final run)) (RefFromObject x)
            = errorsOf (deploymentCollection a) (RefFromObject x) ++ [err]
          ∧ appliedObjects (final run) = appliedObjects a
          ∧ appliedHookObjects (final run) = appliedHookObjects a
      end.
Proof.
  intros Hforce Hdel run. subst run.
  unfold retryApplyForceReplace, deleteObject, k_DeleteSingleObject,
    k_PatchObject, bind, gets, logf, emit, ret.
  cbn. rewrite Hforce. cbn. rewrite Hdel. cbn.
  destruct (dryRun (o a)) eqn:Hdry; cbn.
  - destruct hook; cbn; rewrite lookup_insert_eq; done.
  - destruct (PatchObject x _ w1) as [w2 [ws2 res]]. cbn.
    destruct res as [r1 | err]; cbn.
    + destruct hook; cbn; rewrite lookup_insert_eq; done.
    + split; [done |]. unfold errorsOf.
      destruct (abortOnError (o a)); cbn; rewrite lookup_insert_eq; done.
Qed.

Lemma initialDeployOf_fold c objs acc :
  fold_left
    (λ initialDeploy obj,
       if bool_decide (getRemoteObject c (RefFromObject obj) ≠ None)
       then false else initialDeploy) objs acc
  = acc && forallb (λ x, bool_decide (getRemoteObject c (RefFromObject x) = None)) objs.
Proof.
  revert acc. induction objs as [|x objs IH]; intros acc; cbn.
  - by rewrite andb_true_r.
  - rewrite IH. destruct (getRemoteObject c (RefFromObject x)) eqn:E.
    + rewrite bool_decide_true by done. rewrite (bool_decide_false (Some _ = None)) by done.
      cbn. by rewrite andb_false_r.
    + rewrite bool_decide_false by (intros ?; done). by rewrite bool_decide_true.
Qed.

Lemma initialDeployOf_spec c objs :
  initialDeployOf c objs = true
  ↔ ∀ x, x ∈ objs → getRemoteObject c (RefFromObject x) = None.
Proof.
  unfold initialDeployOf. rewrite initialDeployOf_fold. cbn.
  rewrite forallb_forall. split.
  - intros Hall x Hx. apply list_elem_of_In in Hx.
    specialize (Hall x Hx). by apply bool_decide_eq_true in Hall.
  - intros Hall x Hx. apply bool_decide_eq_true, Hall. by apply list_elem_of_In.
Qed.



Lemma phasesRun_app t1 t2 : phasesRun (t1 ++ t2) = phasesRun t1 ++ phasesRun t2.
Proof. apply omap_app. Qed.

Lemma phasesRun_none t : Forall (λ e, isRunHooks e = false) t → phasesRun t = [].
Proof.
  induction 1 as [|e t He _ IH]; [done |].
  destruct e; cbn in *; try done.
Qed.

Lemma applyObject_runs_no_hooks x replaced hook a :
  phasesRun (trace (applyObject x replaced hook a)) = [].
Proof.
  apply phasesRun_none.
  by apply (sends_applyObject (λ _, True) (λ e, isRunHooks e = false)).
Qed.

Lemma forM_applyObject_runs_no_hooks objs a :
  phasesRun (trace (forM_ objs (λ obj, applyObject obj false false) a)) = [].
Proof.
  apply phasesRun_none.
  apply (sends_forM (λ _, True) (λ e, isRunHooks e = false)); [| done].
  intros x. by apply (sends_applyObject (λ _, True) (λ e, isRunHooks e = false)).
Qed.

(** C4, as the code has it. An item is an initial deploy exactly when the
    Remote Object Cache returns none for every object of the item, hook
    objects included. For an item that has a path and passes the inclusion
    check, the classification selects the phases: the initial pre and post
    phases for an initial deploy, the upgrade ones otherwise, each followed
    by the common phase. *)
Theorem initial_deploy_iff_no_object_remote (a : applyUtil W) (d : deploymentItem) :
  (initialDeployOf (deploymentCollection a) (objects d) = true
   ↔ ∀ x, x ∈ objects d →
          getRemoteObject (deploymentCollection a) (RefFromObject x) = None)
  ∧ (Path (config d) ≠ None → checkInclusionForDeploy d = true →
     phasesRun (trace (applyKustomizeDeployment d a))
     = if initialDeployOf (deploymentCollection a) (objects d)
       then [["pre-deploy-initial"; "pre-deploy"];
             ["post-deploy-initial"; "post-deploy"]]
       else [["pre-deploy-upgrade"; "pre-deploy"];
             ["post-deploy-upgrade"; "post-deploy"]]).
Proof.
  split; [apply initialDeployOf_spec |].
  intros Hpath Hincl. unfold applyKustomizeDeployment.
  rewrite bool_decide_false by done. rewrite Hincl. cbn [negb].
  rewrite trace_bind. cbn [gets trace result final fst snd app].
  rewrite !trace_bind, !phasesRun_app.
  rewrite forM_applyObject_runs_no_hooks.
  by destruct (initialDeployOf _ _).
Qed.

(** *** The hook wait *)

Lemma forM_fmap {A B} (g : A → B) (l : list A) (f : B → M W unit) (a : applyUtil W) :
  forM_ (g <$> l) f a = forM_ l (λ x, f (g x)) a.
Proof.
  revert a. induction l as [|x l IH]; intros a; [done |].
  cbn [forM_ fmap list_fmap]. rewrite !run_bind. by rewrite !IH.
Qed.

Lemma trace_forM_handleError r (errs : list error) (a : applyUtil W) :
  trace (forM_ errs (handleError r) a) = [].
Proof.
  revert a. induction errs as [|e errs IH]; intros a; [done |].
  cbn [forM_]. rewrite trace_bind. by rewrite IH.
Qed.

(** Membership in an explicit trace, decided entry by entry. *)
Ltac not_there :=
  let Hin := fresh in
  intros Hin;
  repeat (apply elem_of_cons in Hin as [Hin | Hin]; [discriminate |]);
  by apply elem_of_nil in Hin.

Lemma trace_forM_errors {A} r (g : A → error) (l : list A) (a : applyUtil W) :
  trace (forM_ l (λ e, handleError r (g e)) a) = [].
Proof.
  revert a. induction l as [|e l IH]; intros a; [done |].
  cbn [forM_]. rewrite trace_bind. by rewrite IH.
Qed.

Ltac norm :=
  repeat first
    [ rewrite run_bind
    | progress cbn -[bind waitHookLoop forM_ gotime.Sub Z.mul
                     gotime.Millisecond apiCalls Z.eqb Z.leb] ].

Lemma probe_run fuel r start didLog (a : applyUtil W) w1 ws res :
  GetSingleObject r (k a) = (w1, (ws, res)) →
  let a1 := afterGet r w1 ws a in
  let run := waitHookLoop (S fuel) r start didLog a in
  match probeVerdict (hookTimeout (o a)) (gotime.Sub (Now w1) start) res with
  | IsReady =>
      result run = Some true ∧ final run = a1 ∧ apiCalls (trace run) = [EvGet r]
      ∧ timedOutLog ∉ trace run
  | HasFailed c =>
      result run = Some false
      ∧ final run = final (forM_ (recorded c) (handleError r) a1)
      ∧ apiCalls (trace run) = [EvGet r]
      ∧ (timedOutLog ∈ trace run ↔ c = TimedOut)
  | Pending =>
      let next := waitHookLoop fuel r start true
                    (with_k (Sleep (500 * gotime.Millisecond) w1) a1) in
      result run = result next ∧ final run = final next
      ∧ apiCalls (trace run) = EvGet r :: apiCalls (trace next)
      ∧ (timedOutLog ∈ trace run ↔ timedOutLog ∈ trace next)
  end.
Proof.
  intros Hget a1 run. subst a1 run. unfold afterGet.
  cbn [waitHookLoop]. unfold k_GetSingleObject.
  rewrite !run_bind. cbn [result final trace fst snd]. rewrite Hget.
  unfold probeVerdict.
  destruct res as [obj | err]; norm.
  - destruct (validation.Ready _) eqn:Hready.
    + destruct didLog; norm; repeat split; try done; not_there.
    + destruct (validation.Errors _) as [|e errs] eqn:Herrs.
      * cbn [length Nat.eqb negb].
        destruct (bool_decide _) eqn:Hto.
        -- apply bool_decide_eq_true in Hto as [Hne Hle].
           norm.
           rewrite (proj2 (Z.eqb_neq _ _) Hne). cbn [negb andb].
           rewrite (proj2 (Z.leb_le _ _) Hle).
           norm. 
           repeat split; try done.
           intros _. unfold timedOutLog. set_solver.
        -- apply bool_decide_eq_false in Hto.
           norm.
           assert (negb (hookTimeout (o a) =? 0)
                   && (hookTimeout (o a) <=? gotime.Sub (Now w1) start) = false) as ->.
           { destruct (Z.eqb_spec (hookTimeout (o a)) 0); [done |].
             destruct (Z.leb_spec (hookTimeout (o a)) (gotime.Sub (Now w1) start)); [| done].
             exfalso. apply Hto. done. }
           destruct didLog; norm;
             (split; [done |]; split; [done |]; split; [done |];
              rewrite !elem_of_cons; unfold timedOutLog; intuition discriminate).
      * assert (negb (length (e :: errs) =? 0)%nat = true) as -> by done.
        rewrite <- Herrs. cbn [recorded]. rewrite forM_fmap.
        destruct didLog; norm; rewrite ?trace_forM_errors;
          (split; [done |]; split; [done |]; split; [done |];
           split; [| done]; not_there).
  - destruct (IsNotFound err) eqn:Hnf; norm.
    + destruct didLog; norm;
        (split; [done |]; split; [done |]; split; [done |];
         split; [| done]; not_there).
    + split; [done |]. split; [done |]. split; [done |].
      split; [| done]. not_there.
Qed.





Lemma waitHook_run fuel r (a : applyUtil W) :
  dryRun (o a) = false →
  let loop := waitHookLoop fuel r (Now (k a)) false a in
  waitHook fuel r a
  = (result loop, final loop,
     EvLog DebugLevel "Waiting for hook to get ready" :: trace loop).
Proof. intros Hdry. unfold waitHook. norm. rewrite Hdry. by norm. Qed.



End apply_proofs.

Import scripted.

Lemma dry_run_mutations_carry_directive_witness :
  dryRun (o dryEngine) = true
  ∧ apiCalls (trace (applyObject cm1 false false dryEngine))
    = [EvPatch cm1 (PatchOptions.mk true false);
       EvUpdate cm1 (UpdateOptions.mk true);
       EvDelete (configMap "cm1") (DeleteOptions.mk true)]
  ∧ Forall (dryOk true) (trace (applyObject cm1 false false dryEngine)).
Proof.
  split; [reflexivity |]. split; [vm_compute; reflexivity |].
  apply (dry_run_mutations_carry_directive dryEngine cm1 false false None
           invalid422 (configMap "cm1")).
  reflexivity.
Defined.

Lemma force_replace_retries_once_witness :
  forceReplaceOnError (o dryEngine) = true
  ∧ apiCalls (trace (retryApplyForceReplace cm1 false invalid422 dryEngine))
    = [EvDelete (configMap "cm1") (DeleteOptions.mk true)]
  ∧ appliedObjects (final (retryApplyForceReplace cm1 false invalid422
                             (engine [] [cm1Remote] [ReplyOk] dryOptions)))
    !! configMap "cm1" = Some cm1.
Proof.
  split; [reflexivity |]. split; [vm_compute; reflexivity |].
  pose proof (force_replace_retries_once
                (engine [] [cm1Remote] [ReplyOk] dryOptions) cm1 false
                invalid422 (mkWorld [] 0 0) [] eq_refl eq_refl) as H.
  cbn [dryRun o engine newApplyUtil dryOptions] in H.
  exact (proj1 (proj2 (proj2 H))).
Defined.

(** C1. At a patch of cm1 refused with a non-conflict 422, with
    [replaceOnError] set and a remote cm1 of resourceVersion 42, the engine
    issues one UPDATE, and the object of that UPDATE is cm1 as it came in,
    with its own (empty) resourceVersion: the copy that was given the
    remote resourceVersion is not the object sent. *)
Theorem replace_retry_sends_input_object :
  let run := applyObject cm1 false false replaceEngine in
  getRemoteObject (deploymentCollection replaceEngine) (RefFromObject cm1)
    = Some cm1Remote
  ∧ GetResourceVersion cm1Remote = "42"
  ∧ updateRequests (trace run) = [cm1]
  ∧ GetResourceVersion cm1 = ""
  ∧ SetResourceVersion (uo.CopyUnstructured cm1) "42" ∉ updateRequests (trace run).
Proof.
  cbn zeta. repeat split; try (vm_compute; reflexivity).
  assert (updateRequests
            (trace (applyObject cm1 false false replaceEngine)) = [cm1]) as ->
    by (vm_compute; reflexivity).
  rewrite list_elem_of_singleton. discriminate.
Qed.

(** C2. At a patch of cm1 refused with a field-ownership conflict while the
    cache holds no remote cm1, the engine records the conflict for the
    reference and goes on all the same: it sends a second, forced patch
    (after the conflict resolution, unless [forceApply] is set) and records
    its result. *)
Theorem conflict_without_remote_goes_on :
  let forced := applyObject cm1 false false (conflictEngine forceApplyOptions) in
  let resolved := applyObject cm1 false false (conflictEngine options0) in
  getRemoteObject (deploymentCollection (conflictEngine options0))
    (RefFromObject cm1) = None
  ∧ IsConflict conflict409 = true
  ∧ patchRequests (trace forced)
    = [(cm1, PatchOptions.mk false false); (cm1, PatchOptions.mk false true)]
  ∧ errorsOf (deploymentCollection (final forced)) (RefFromObject cm1)
    = [conflict409]
  ∧ appliedObjects (final forced) !! RefFromObject cm1 = Some cm1
  ∧ patchRequests (trace resolved)
    = [(cm1, PatchOptions.mk false false); (cm1, PatchOptions.mk false true)]
  ∧ errorsOf (deploymentCollection (final resolved)) (RefFromObject cm1)
    = [conflict409]
  ∧ appliedObjects (final resolved) !! RefFromObject cm1 = Some cm1.
Proof. cbn zeta. repeat split; vm_compute; reflexivity. Qed.

(** C4, as stated, fails: the only regular object of the item is absent
    from the cache, yet the item is an upgrade, because its hook object is
    in the cache. *)
Lemma initial_deploy_counts_hook_objects :
  ¬ (∀ (c : DeploymentCollection) (d : deploymentItem),
       initialDeployOf c (objects d) = true
       ↔ ∀ x, x ∈ objects d → getHook (W:=world) x = None →
              getRemoteObject c (RefFromObject x) = None).
Proof.
  intros Hclaim.
  destruct (Hclaim (deploymentCollection hookedEngine) hookedItem) as [_ Hinit].
  assert (initialDeployOf (deploymentCollection hookedEngine)
            (objects hookedItem) = false) as Hcode by (vm_compute; reflexivity).
  rewrite Hinit in Hcode; [discriminate |].
  intros x Hx Hregular. cbn in Hx.
  apply elem_of_cons in Hx as [-> | Hx]; [discriminate |].
  apply list_elem_of_singleton in Hx as ->. vm_compute. reflexivity.
Qed.

Lemma initial_deploy_iff_no_object_remote_witness :
  Path (config hookedItem) ≠ None
  ∧ checkInclusionForDeploy (W:=world) hookedItem = true
  ∧ phasesRun (trace (applyKustomizeDeployment hookedItem hookedEngine))
    = [["pre-deploy-upgrade"; "pre-deploy"];
       ["post-deploy-upgrade"; "post-deploy"]].
Proof.
  split; [discriminate |]. split; [reflexivity |].
  exact (proj2 (initial_deploy_iff_no_object_remote hookedEngine hookedItem)
           ltac:(discriminate) eq_refl).
Defined.



End apply_proofs.

Module scheduler_proofs.
Import apply_utils apply_spec apply_proofs scheduler scheduler_spec.

Section scheduler_proofs.

Context {W : Type} `{!K8sCluster W} `{!diff.Resolver} `{!validation.Validator}
        `{!HooksUtil W}.

Local Abbreviation system := (@scheduler.system W).

Lemma workStep_inv i (s s' : system) :
  workStep i s = Some s' →
  ∃ d, queue s !! i = Some d ∧ (i < poolSize)%nat
       ∧ a s' = final (applyKustomizeDeployment d (a s))
       ∧ log s' = log s ++ trace (applyKustomizeDeployment d (a s))
       ∧ at_ s' = at_ s
       ∧ queue s' = delete i (queue s)
       ∧ submitted s' = submitted s
       ∧ completed s' = completed s ++ [d].
Proof.
  unfold workStep. destruct (decide _) as [Hi |]; [| done].
  destruct (queue s !! i) as [d |] eqn:Hq; [| done].
  destruct (applyKustomizeDeployment d (a s)) as [[u a'] t] eqn:Hrun.
  intros [= <-]. exists d. rewrite Hrun. by repeat split.
Qed.






Lemma progress (s : system) :
  at_ s ≠ Returned → ∃ act s', step act s = Some s'.
Proof.
  intros Hat.
  destruct (queue s) as [|d q] eqn:Hq.
  - exists Sched. cbn [step]. unfold schedStep.
    destruct (at_ s) as [[|? ?] ? | ? ? [] | | | | |]; rewrite ?Hq; try done; eauto.
    by destruct (abortSignal _); eauto.
  - destruct (schedStep s) as [s' |] eqn:Hsched.
    + by exists Sched, s'.
    + exists (Work 0). cbn [step]. unfold workStep.
      rewrite Hq. cbn.
      destruct (applyKustomizeDeployment d (a s)) as [[u a'] t]. eauto.
Qed.

Lemma run_app acts1 acts2 (s : system) :
  run (acts1 ++ acts2) s
  = match run acts1 s with Some s1 => run acts2 s1 | None => None end.
Proof.
  revert s. induction acts1 as [|act acts1 IH]; intros s; [done |].
  cbn [run app]. destruct (step act s); [apply IH | done].
Qed.


Lemma step_accounted act (s s' : system) :
  accounted s → step act s = Some s' → accounted s'.
Proof.
  unfold accounted. intros Hacc. destruct act as [| i]; cbn [step].
  - unfold schedStep.
    destruct (at_ s) as [[|d rest] pwb | d rest pwb | d rest | d rest | | |].
    + by intros [= <-].
    + by destruct (abortSignal (a s)); intros [= <-].
    + by destruct pwb; intros [= <-].
    + destruct (queue s) eqn:Hq; [| done]. by intros [= <-].
    + intros [= <-]. cbn. rewrite Hacc. by rewrite (assoc app).
    + destruct (queue s) eqn:Hq; [| done]. by intros [= <-].
    + destruct (queue s) eqn:Hq; [| done]. by intros [= <-].
    + done.
  - intros Hw. apply workStep_inv in Hw as (d & Hq & _ & _ & _ & _ & Hqueue & Hsub & Hcomp).
    rewrite Hsub, Hcomp, Hqueue, Hacc.
    rewrite <- (assoc app). apply Permutation_app_head.
    cbn. by apply delete_Permutation.
Qed.

Lemma run_invariant (I : system → Prop) :
  (∀ act s s', I s → step act s = Some s' → I s') →
  ∀ acts s s', I s → run acts s = Some s' → I s'.
Proof.
  intros Hstep acts. induction acts as [|act acts IH]; intros s s' Hs; cbn [run].
  - by intros [= <-].
  - destruct (step act s) as [s1 |] eqn:H1; [| done]. eauto.
Qed.

Lemma reachable_accounted a0 (s : system) : reachable a0 s → accounted s.
Proof.
  intros [acts Hrun].
  eapply (run_invariant accounted); [apply step_accounted | | done].
  unfold accounted. cbn. reflexivity.
Qed.







End scheduler_proofs.

Import scripted.





End scheduler_proofs.

Module commands_proofs.
Import commands commands_spec.

Section commands_proofs.

Context `{!Collaborators}.

Lemma tidy_greturn {A} (x : A) : tidy (greturn x).
Proof. by intros f. Qed.

Lemma tidy_gfail {A} e : tidy (gfail (A:=A) e).
Proof. by intros f. Qed.

Lemma tidy_lift {A} (r : A + error) : tidy (lift r).
Proof. by intros f. Qed.

Lemma tidy_does c : tidy (does c).
Proof. by intros f. Qed.

Lemma tidy_defer c : c ≠ OciRpClear → tidy (defer c).
Proof. intros Hc f Hf. cbn. rewrite elem_of_cons. intros [? | ?]; done. Qed.

Lemma tidy_gbind {A B} (m : G A) (k : A → G B) :
  tidy m → (∀ x, tidy (k x)) → tidy (gbind m k).
Proof.
  intros Hm Hk f Hf. unfold gbind. specialize (Hm f Hf).
  destruct (m f) as [[x | e] f']; cbn in *; [by apply Hk | done].
Qed.

Create HintDb tidy.
#[local] Hint Resolve tidy_greturn tidy_gfail tidy_lift tidy_does tidy_defer
  tidy_gbind : tidy.

Ltac tidy_step :=
  match goal with
  | |- tidy (gbind _ _) => apply tidy_gbind; [| intros ?]
  | |- tidy (match ?x with _ => _ end) => destruct x
  | |- tidy (defer _) => apply tidy_defer; discriminate
  | |- tidy _ => solve [eauto with tidy]
  end.

Lemma tidy_parseRepoOverride s isGroup allowLegacy :
  tidy (parseRepoOverride s isGroup allowLegacy).
Proof. unfold parseRepoOverride. repeat tidy_step. Qed.

Lemma tidy_appendOverrides xs isGroup allowLegacy flag overrides :
  tidy (appendOverrides xs isGroup allowLegacy flag overrides).
Proof.
  revert overrides. induction xs as [|x xs IH]; intros overrides; cbn.
  - apply tidy_greturn.
  - intros f Hf.
    pose proof (tidy_parseRepoOverride x isGroup allowLegacy f Hf) as Hp.
    destruct (parseRepoOverride x isGroup allowLegacy f) as [[ro | e] f']; cbn in *.
    + by apply IH.
    + done.
Qed.

Lemma tidy_mergeArgsFromFiles files externalArgs :
  tidy (mergeArgsFromFiles files externalArgs).
Proof.
  revert externalArgs. induction files as [|file files IH]; intros externalArgs; cbn.
  - apply tidy_greturn.
  - repeat tidy_step.
Qed.

Lemma tidy_withKluctlProjectFromArgs projectFlags argsFlags internalDeploy
    strictTemplates cb :
  tidy (withKluctlProjectFromArgs projectFlags argsFlags internalDeploy
          strictTemplates cb).
Proof.
  unfold withKluctlProjectFromArgs.
  pose proof tidy_appendOverrides. pose proof tidy_mergeArgsFromFiles.
  repeat tidy_step.
Qed.

(** Whatever the flags and whatever the collaborators answer, the teardown
    does not clear the OCI cache. *)
Lemma oci_cache_never_cleared projectFlags argsFlags internalDeploy
    strictTemplates cb :
  OciRpClear ∉ teardown (invoke (withKluctlProjectFromArgs projectFlags argsFlags
                                  internalDeploy strictTemplates cb)).
Proof.
  unfold invoke, teardown.
  pose proof (tidy_withKluctlProjectFromArgs projectFlags argsFlags
                internalDeploy strictTemplates cb (mkFrame [] [])) as Htidy.
  destruct (withKluctlProjectFromArgs _ _ _ _ _ _) as [r f]. cbn in *.
  apply Htidy. apply not_elem_of_nil.
Qed.

End commands_proofs.

(** C5. In a command in which every step succeeds, both caches are
    created, and the teardown clears the git cache twice and the OCI cache
    not at all. *)
Theorem teardown_clears_git_cache_twice :
  returned sample.command = inl tt
  ∧ NewGitRepoCache ∈ body_calls sample.command
  ∧ NewOciRepoCache ∈ body_calls sample.command
  ∧ teardown sample.command
    = [GitRpClear; GitRpClear; Cancel; J2Close; RemoveAll "/tmp/project-1"]
  ∧ timesCalled GitRpClear (teardown sample.command) = 2%nat
  ∧ timesCalled OciRpClear (teardown sample.command) = 0%nat.
Proof.
  assert (body_calls sample.command
          = [MkdirTemp "project-"; NewKluctlJinja2; WithTimeout;
             NewGitRepoCache; NewOciRepoCache; LoadKluctlProject; Callback])
    as Hbody by (vm_compute; reflexivity).
  rewrite Hbody. repeat split; try (vm_compute; reflexivity); set_solver.
Qed.

End commands_proofs.

Module vars_proofs.
Import vars vars_spec.

Section vars_proofs.

Context {UO : Type} `{!World UO}.

Local Abbreviation store := (gmap loc (cell UO)).
Local Abbreviation V := (V UO).
Local Abbreviation extends h0 vl h := (vars_spec.extends (UO:=UO) h0 vl h).
Local Abbreviation safe h0 vl Q m := (vars_spec.safe (UO:=UO) h0 vl Q m).
Local Abbreviation outside := (vars_spec.outside (UO:=UO)).

Lemma extends_refl h0 vl : extends h0 vl h0.
Proof. by intros l Hl. Qed.

Lemma safe_weaken h0 vl {A} (Q R : A → Prop) (m : V A) :
  safe h0 vl Q m → (∀ x, Q x → R x) → safe h0 vl R m.
Proof. intros Hm HQR h Hh. destruct (Hm h Hh) as [? ?]. split; auto. Qed.

Lemma safe_vret h0 vl {A} (Q : A → Prop) x : Q x → safe h0 vl Q (vret x).
Proof. intros HQ h Hh. split; [done |]. by intros ? [= <-]. Qed.

Lemma safe_vfail h0 vl {A} (Q : A → Prop) e : safe h0 vl Q (vfail e).
Proof. intros h Hh. split; [done |]. by intros ? [=]. Qed.

Lemma safe_vlift h0 vl {A} (r : A + error) : safe h0 vl anything (vlift r).
Proof. intros h Hh. by split. Qed.

Lemma safe_vbind h0 vl {A B} (Q : A → Prop) (R : B → Prop) (m : V A) (f : A → V B) :
  safe h0 vl Q m → (∀ x, Q x → safe h0 vl R (f x)) → safe h0 vl R (vbind m f).
Proof.
  intros Hm Hf h Hh. unfold vbind. destruct (Hm h Hh) as [Hext HQ].
  destruct (m h) as [[x | e] h']; cbn in *.
  - by apply Hf; [apply HQ |].
  - split; [done |]. by intros ? [=].
Qed.

Lemma safe_load h0 vl l : safe h0 vl anything (load l).
Proof. intros h Hh. unfold load. by destruct (h !! l). Qed.

Lemma safe_alloc h0 vl c : safe h0 vl (λ l, h0 !! l = None) (alloc c).
Proof.
  intros h Hh. unfold alloc. cbn.
  pose proof (is_fresh (dom h)) as Hfresh.
  assert (h0 !! fresh (dom h) = None) as Hnone.
  { destruct (h0 !! fresh (dom h)) eqn:E; [| done].
    exfalso. apply Hfresh. apply elem_of_dom. by apply Hh. }
  split; [| by intros ? [= <-]].
  intros l Hl. destruct (decide (l = fresh (dom h))) as [-> | Hne].
  - rewrite Hnone in Hl. by destruct Hl.
  - rewrite lookup_insert_ne by done. by apply Hh.
Qed.

Lemma safe_storeAt_vars h0 vl c : safe h0 vl anything (storeAt vl c).
Proof.
  intros h Hh. unfold storeAt. cbn. split; [| done].
  intros l Hl. destruct (decide (l = vl)) as [-> | Hne].
  - rewrite lookup_insert_eq. by split.
  - rewrite lookup_insert_ne by done. by apply Hh.
Qed.

Lemma safe_storeAt_outside h0 vl l c :
  h0 !! l = None → safe h0 vl anything (storeAt l c).
Proof.
  intros Hnone h Hh. unfold storeAt. cbn. split; [| done].
  intros l' Hl'. destruct (decide (l' = l)) as [-> | Hne].
  - rewrite Hnone in Hl'. by destruct Hl'.
  - rewrite lookup_insert_ne by done. by apply Hh.
Qed.


Lemma safe_vret_any h0 vl {A} (x : A) : safe h0 vl anything (vret x).
Proof. by apply safe_vret. Qed.

Lemma safe_vfail_any h0 vl {A} e : safe h0 vl (anything (A:=A)) (vfail e).
Proof. apply safe_vfail. Qed.

Create HintDb safe.
#[local] Hint Resolve safe_vret_any safe_vfail_any safe_vlift safe_load
  safe_storeAt_vars : safe.

(** One step through a loader. *)
Ltac safe_step :=
  match goal with
  | |- safe _ _ _ (vbind _ _) => eapply safe_vbind; [| intros ? ?]
  | |- safe _ _ _ (match ?x with _ => _ end) => destruct x
  | |- safe _ _ _ _ => solve [eauto with safe]
  end.

Lemma safe_loadObject h0 vl l : safe h0 vl anything (loadObject l).
Proof. unfold loadObject. repeat safe_step. Qed.

Lemma safe_loadBool h0 vl l : safe h0 vl anything (loadBool l).
Proof. unfold loadBool. repeat safe_step. Qed.

Lemma safe_loadString h0 vl l : safe h0 vl anything (loadString l).
Proof. unfold loadString. repeat safe_step. Qed.

Lemma safe_loadGitFile h0 vl l : safe h0 vl anything (loadGitFile l).
Proof. unfold loadGitFile. repeat safe_step. Qed.

Lemma safe_loadClusterObject h0 vl l : safe h0 vl anything (loadClusterObject l).
Proof. unfold loadClusterObject. repeat safe_step. Qed.

#[local] Hint Resolve safe_loadObject safe_loadBool safe_loadString
  safe_loadGitFile safe_loadClusterObject : safe.

Lemma safe_copyPointee h0 vl p : safe h0 vl (outside h0) (copyPointee p).
Proof.
  unfold copyPointee. destruct p as [l |].
  - eapply safe_vbind; [apply safe_load | intros c _].
    eapply safe_vbind; [apply safe_alloc | intros l' Hl'].
    apply safe_vret. by intros ? [= <-].
  - apply safe_vret. by intros ? [=].
Qed.

Lemma safe_DeepCopy h0 vl sourceIn :
  safe h0 vl (λ s, Forall (outside h0) (pointers s)) (DeepCopy sourceIn).
Proof.
  unfold DeepCopy.
  eapply safe_vbind; [apply safe_load | intros c _].
  destruct c; try apply safe_vfail.
  repeat (eapply safe_vbind; [apply safe_copyPointee | intros ? ?]).
  apply safe_vret. unfold pointers. cbn. repeat constructor; done.
Qed.

Lemma safe_renderPointee h0 vl globals p :
  outside h0 p → safe h0 vl anything (renderPointee globals p).
Proof.
  intros Hp. unfold renderPointee. destruct p as [l |]; [| apply safe_vret_any].
  pose proof (safe_storeAt_outside h0 vl l) as Hstore.
  specialize (Hp l eq_refl).
  repeat safe_step.
Qed.

Lemma safe_renderPointees h0 vl globals ps :
  Forall (outside h0) ps → safe h0 vl anything (renderPointees globals ps).
Proof.
  induction 1 as [|p ps Hp _ IH]; cbn [renderPointees].
  - apply safe_vret_any.
  - pose proof (safe_renderPointee h0 vl globals p Hp). repeat safe_step.
Qed.

Section loaders.

Variable h0 : store.
Variable varsCtx : VarsCtx.

Local Abbreviation safe' m := (safe h0 (Vars varsCtx) anything m).

Lemma safe_mergeVars newVars rootKey : safe' (mergeVars varsCtx newVars rootKey).
Proof. unfold mergeVars. repeat safe_step. Qed.

#[local] Hint Resolve safe_mergeVars : safe.

Lemma safe_mergeUnderRoot newVars rootKey noRoot :
  safe' (mergeUnderRoot varsCtx newVars rootKey noRoot).
Proof. unfold mergeUnderRoot. repeat safe_step. Qed.

#[local] Hint Resolve safe_mergeUnderRoot : safe.

Lemma safe_loadFile path ignoreMissing searchDirs rootKey :
  safe' (loadFile varsCtx path ignoreMissing searchDirs rootKey).
Proof. unfold loadFile. repeat safe_step. Qed.

Lemma safe_renderYamlString s : safe' (renderYamlString varsCtx s).
Proof. unfold renderYamlString. repeat safe_step. Qed.

#[local] Hint Resolve safe_loadFile safe_renderYamlString : safe.

Lemma safe_loadFromString s secretType rootKey :
  safe' (loadFromString varsCtx s secretType rootKey).
Proof. unfold loadFromString. repeat safe_step. Qed.

#[local] Hint Resolve safe_loadFromString : safe.

Lemma safe_loadSystemEnvs source ignoreMissing rootKey :
  safe' (loadSystemEnvs varsCtx source ignoreMissing rootKey).
Proof. unfold loadSystemEnvs. repeat safe_step. Qed.

Lemma safe_loadAwsSecretsManager v source ignoreMissing rootKey :
  safe' (loadAwsSecretsManager v varsCtx source ignoreMissing rootKey).
Proof. unfold loadAwsSecretsManager. repeat safe_step. Qed.

Lemma safe_loadVault source ignoreMissing rootKey :
  safe' (loadVault varsCtx source ignoreMissing rootKey).
Proof. unfold loadVault. repeat safe_step. Qed.

Lemma safe_loadHttp source ignoreMissing rootKey :
  safe' (loadHttp varsCtx source ignoreMissing rootKey).
Proof. unfold loadHttp. repeat safe_step. Qed.

Lemma safe_loadGit gitFile ignoreMissing rootKey :
  safe' (loadGit varsCtx gitFile ignoreMissing rootKey).
Proof. unfold loadGit. repeat safe_step. Qed.

Lemma safe_loadFromK8sObject v varsSource kind key rootKey ignoreMissing base64Decode :
  safe' (loadFromK8sObject v varsCtx varsSource kind key rootKey ignoreMissing
           base64Decode).
Proof.
  unfold loadFromK8sObject. cbn zeta.
  repeat safe_step.
  all: intros h Hh;
    destruct (safe_loadFromString s "k8s" rootKey h Hh) as [Hext _];
    destruct (loadFromString varsCtx s "k8s" rootKey h) as [[[] | e] h'];
    by split.
Qed.

#[local] Hint Resolve safe_loadSystemEnvs safe_loadAwsSecretsManager
  safe_loadVault safe_loadHttp safe_loadGit safe_loadFromK8sObject : safe.

Lemma safe_LoadVars v sourceIn searchDirs rootKey :
  safe' (LoadVars v varsCtx sourceIn searchDirs rootKey).
Proof.
  unfold LoadVars.
  eapply safe_vbind; [apply safe_DeepCopy | intros source Hsource].
  pose proof (safe_renderPointees h0 (Vars varsCtx)) as Hrender.
  unfold RenderStruct.
  repeat safe_step.
Qed.

End loaders.


End vars_proofs.

Import vars.sample.


End vars_proofs.

Module apply_more.
Import apply_utils apply_spec apply_proofs apply_more_spec.

Section apply_more.

Context {W : Type} `{!K8sCluster W} `{!diff.Resolver} `{!validation.Validator}
        `{!HooksUtil W}.

Ltac simp :=
  repeat first
    [ rewrite run_bind
    | progress cbn -[bind waitHookLoop forM_ gotime.Sub Z.mul
                     gotime.Millisecond Z.eqb Z.leb] ].

(** The state after a call that took the world to [w] and returned the
    warnings [ws] for [r]. *)
Local Abbreviation after r w ws a := (afterGet (W:=W) r w ws a).

(** *** What the first patch decides *)

(** The patch goes through: its result is recorded in the map that [hook]
    selects, under the reference of the returned object; nothing else is
    called and no error is recorded. *)
Theorem applyObject_patch_accepted
    (a : applyUtil W) (x : Unstructured) (replaced hook : bool)
    (w1 : W) (ws : list ApiWarning) (r1 : Unstructured) :
  dryRun (o a) && replaced
    && bool_decide (getRemoteObject (deploymentCollection a) (RefFromObject x)
                    ≠ None) = false →
  PatchObject (FixObjectForPatch x) (PatchOptions.mk (dryRun (o a)) false) (k a)
    = (w1, (ws, inl r1)) →
  let run := applyObject x replaced hook a in
  apiCalls (trace run)
    = [EvPatch (FixObjectForPatch x) (PatchOptions.mk (dryRun (o a)) false)]
  ∧ k (final run) = w1
  ∧ appliedMap hook (final run) !! RefFromObject r1 = Some r1
  ∧ otherMap hook (final run) = otherMap hook a
  ∧ errors (deploymentCollection (final run)) = errors (deploymentCollection a)
  ∧ abortSignal (final run) = abortSignal a.
Proof.
  intros Hshort Hpatch run. subst run.
  unfold applyObject, k_PatchObject. simp. rewrite Hshort. simp.
  rewrite Hpatch. simp.
  destruct hook; simp; rewrite lookup_insert_eq; done.
Qed.

(** A patch refused because the cluster does not know the kind is fatal:
    the error is recorded for the reference and nothing else is called,
    whatever the replace options say, and even when the error is a conflict
    as well. *)
Theorem applyObject_no_match_is_fatal
    (a : applyUtil W) (x : Unstructured) (replaced hook : bool)
    (w1 : W) (ws : list ApiWarning) (err : error) :
  dryRun (o a) && replaced
    && bool_decide (getRemoteObject (deploymentCollection a) (RefFromObject x)
                    ≠ None) = false →
  PatchObject (FixObjectForPatch x) (PatchOptions.mk (dryRun (o a)) false) (k a)
    = (w1, (ws, inr err)) →
  meta.IsNoMatchError err = true →
  let run := applyObject x replaced hook a in
  apiCalls (trace run)
    = [EvPatch (FixObjectForPatch x) (PatchOptions.mk (dryRun (o a)) false)]
  ∧ errorsOf (deploymentCollection (final run)) (RefFromObject x)
    = errorsOf (deploymentCollection a) (RefFromObject x) ++ [err]
  ∧ appliedObjects (final run) = appliedObjects a
  ∧ appliedHookObjects (final run) = appliedHookObjects a
  ∧ (abortOnError (o a) = true → abortSignal (final run) = true).
Proof.
  intros Hshort Hpatch Hnomatch run. subst run.
  unfold applyObject, k_PatchObject. simp. rewrite Hshort. simp.
  rewrite Hpatch. simp. rewrite Hnomatch. simp.
  unfold errorsOf.
  destruct (abortOnError (o a)); simp; rewrite lookup_insert_eq; done.
Qed.

(** With the replace retry off, or with no remote object to take a
    resourceVersion from, a patch refused with any other error ends the
    apply: the error is recorded and nothing else is called. *)
Theorem applyObject_without_replace
    (a : applyUtil W) (x : Unstructured) (replaced hook : bool)
    (w1 : W) (ws : list ApiWarning) (err : error) :
  dryRun (o a) && replaced
    && bool_decide (getRemoteObject (deploymentCollection a) (RefFromObject x)
                    ≠ None) = false →
  PatchObject (FixObjectForPatch x) (PatchOptions.mk (dryRun (o a)) false) (k a)
    = (w1, (ws, inr err)) →
  meta.IsNoMatchError err = false → IsConflict err = false →
  replaceOnError (o a) = false
  ∨ getRemoteObject (deploymentCollection a) (RefFromObject x) = None →
  let run := applyObject x replaced hook a in
  apiCalls (trace run)
    = [EvPatch (FixObjectForPatch x) (PatchOptions.mk (dryRun (o a)) false)]
  ∧ errorsOf (deploymentCollection (final run))
      (RefFromObject (FixObjectForPatch x))
    = errorsOf (deploymentCollection a) (RefFromObject (FixObjectForPatch x))
      ++ [err]
  ∧ appliedObjects (final run) = appliedObjects a
  ∧ appliedHookObjects (final run) = appliedHookObjects a.
Proof.
  intros Hshort Hpatch Hnomatch Hconflict Hoff run. subst run.
  unfold applyObject, k_PatchObject. simp. rewrite Hshort. simp.
  rewrite Hpatch. simp. rewrite Hnomatch, Hconflict. simp.
  unfold retryApplyWithReplace. simp.
  assert (negb (replaceOnError (o a))
          || bool_decide (getRemoteObject (deploymentCollection a)
                            (RefFromObject x) = None) = true) as ->.
  { destruct Hoff as [-> | ->]; [done |]. by rewrite orb_true_r. }
  simp. unfold errorsOf.
  destruct (abortOnError (o a)); simp; rewrite lookup_insert_eq; done.
Qed.

(** Under dry-run, an object that was replaced and exists remotely is not
    sent at all: the rewritten input is recorded as the result and the
    cluster is left alone. *)
Theorem applyObject_dry_run_replaced
    (a : applyUtil W) (x : Unstructured) (hook : bool) (remote : Unstructured) :
  dryRun (o a) = true →
  getRemoteObject (deploymentCollection a) (RefFromObject x) = Some remote →
  let run := applyObject x true hook a in
  apiCalls (trace run) = []
  ∧ k (final run) = k a
  ∧ deploymentCollection (final run) = deploymentCollection a
  ∧ appliedMap hook (final run) !! RefFromObject (FixObjectForPatch x)
    = Some (FixObjectForPatch x)
  ∧ otherMap hook (final run) = otherMap hook a.
Proof.
  intros Hdry Hremote run. subst run.
  unfold applyObject. simp. rewrite Hdry, Hremote. simp.
  destruct hook; simp; rewrite lookup_insert_eq; done.
Qed.

(** *** The replace ladder *)

(** The whole ladder: a patch refused with an ordinary error, an update
    refused as well, then delete and one more patch. Four calls in this
    order; of the three errors met on the way only the last one, if any, is
    recorded. *)
Theorem applyObject_replace_ladder
    (a : applyUtil W) (x remote : Unstructured) (replaced hook : bool)
    (w1 w2 w3 w4 : W) (ws1 ws2 ws3 ws4 : list ApiWarning) (err1 err2 : error)
    (res4 : Unstructured + error) :
  let x' := FixObjectForPatch x in
  dryRun (o a) = false →
  replaceOnError (o a) = true → forceReplaceOnError (o a) = true →
  getRemoteObject (deploymentCollection a) (RefFromObject x) = Some remote →
  PatchObject x' (PatchOptions.mk false false) (k a) = (w1, (ws1, inr err1)) →
  meta.IsNoMatchError err1 = false → IsConflict err1 = false →
  UpdateObject x' (UpdateOptions.mk false) w1 = (w2, (ws2, inr err2)) →
  DeleteSingleObject (RefFromObject x') (DeleteOptions.mk false) w2
    = (w3, (ws3, None)) →
  PatchObject x' (PatchOptions.mk false false) w3 = (w4, (ws4, res4)) →
  let run := applyObject x replaced hook a in
  apiCalls (trace run)
    = [EvPatch x' (PatchOptions.mk false false);
       EvUpdate x' (UpdateOptions.mk false);
       EvDelete (RefFromObject x') (DeleteOptions.mk false);
       EvPatch x' (PatchOptions.mk false false)]
  ∧ k (final run) = w4
  ∧ match res4 with
    | inl r4 =>
        appliedMap hook (final run) !! RefFromObject r4 = Some r4
        ∧ errors (deploymentCollection (final run))
          = errors (deploymentCollection a)
    | inr err4 =>
        errorsOf (deploymentCollection (final run)) (RefFromObject x')
        = errorsOf (deploymentCollection a) (RefFromObject x') ++ [err4]
        ∧ appliedObjects (final run) = appliedObjects a
        ∧ appliedHookObjects (final run) = appliedHookObjects a
    end.
Proof.
  intros x' Hdry Hreplace Hforce Hremote Hp1 Hnm Hc Hu Hd Hp4 run.
  subst run x'.
  unfold applyObject, retryApplyWithReplace, retryApplyForceReplace,
    deleteObject, k_PatchObject, k_UpdateObject, k_DeleteSingleObject.
  unfold RefFromObject in *.
  simp. rewrite Hdry. simp. rewrite Hp1. simp. rewrite Hnm, Hc. simp.
  rewrite Hreplace, Hremote, ?Hdry. simp. rewrite Hu. simp.
  rewrite Hforce, ?Hdry. simp. rewrite ?Hdry, Hd. simp.
  rewrite ?Hdry. simp. rewrite ?Hdry, Hp4. simp.
  destruct res4 as [r4 | err4]; simp.
  - destruct hook; simp; rewrite lookup_insert_eq; done.
  - unfold errorsOf.
    destruct (abortOnError (o a)); simp; rewrite lookup_insert_eq; done.
Qed.

(** When the update of the replace retry is refused and the forced replace
    is off, the update's error is recorded; the error of the patch that
    came before is not. *)
Theorem retryApplyWithReplace_update_refused
    (a : applyUtil W) (x remote : Unstructured) (hook : bool)
    (applyError err2 : error) (w2 : W) (ws2 : list ApiWarning) :
  replaceOnError (o a) = true → forceReplaceOnError (o a) = false →
  UpdateObject x (UpdateOptions.mk (dryRun (o a))) (k a) = (w2, (ws2, inr err2)) →
  let run := retryApplyWithReplace x hook (Some remote) applyError a in
  apiCalls (trace run) = [EvUpdate x (UpdateOptions.mk (dryRun (o a)))]
  ∧ errorsOf (deploymentCollection (final run)) (RefFromObject x)
    = errorsOf (deploymentCollection a) (RefFromObject x) ++ [err2]
  ∧ appliedObjects (final run) = appliedObjects a
  ∧ appliedHookObjects (final run) = appliedHookObjects a.
Proof.
  intros Hreplace Hforce Hu run. subst run.
  unfold retryApplyWithReplace, k_UpdateObject. simp.
  rewrite Hreplace. simp. rewrite Hu. simp.
  unfold retryApplyForceReplace. simp. rewrite Hforce. simp.
  unfold errorsOf.
  destruct (abortOnError (o a)); simp; rewrite lookup_insert_eq; done.
Qed.

(** When the delete of the forced replace is refused, the delete's error is
    recorded and the object is not patched again. *)
Theorem retryApplyForceReplace_delete_refused
    (a : applyUtil W) (x : Unstructured) (hook : bool) (applyError err : error)
    (w1 : W) (ws1 : list ApiWarning) :
  forceReplaceOnError (o a) = true →
  DeleteSingleObject (RefFromObject x) (DeleteOptions.mk (dryRun (o a))) (k a)
    = (w1, (ws1, Some err)) →
  let run := retryApplyForceReplace x hook applyError a in
  apiCalls (trace run)
    = [EvDelete (RefFromObject x) (DeleteOptions.mk (dryRun (o a)))]
  ∧ errorsOf (deploymentCollection (final run)) (RefFromObject x)
    = errorsOf (deploymentCollection a) (RefFromObject x) ++ [err]
  ∧ appliedObjects (final run) = appliedObjects a
  ∧ appliedHookObjects (final run) = appliedHookObjects a.
Proof.
  intros Hforce Hd run. subst run.
  unfold retryApplyForceReplace, deleteObject, k_DeleteSingleObject. simp.
  rewrite Hforce. simp. rewrite Hd. simp.
  unfold errorsOf.
  destruct (abortOnError (o a)); simp; rewrite lookup_insert_eq; done.
Qed.

(** *** Conflicts *)

Lemma forM_handleWarning_final {A} r (g : A → error) (l : list A) (a : applyUtil W) :
  let a' := final (forM_ l (λ x, handleWarning r (g x)) a) in
  warningsOf (deploymentCollection a') r
    = warningsOf (deploymentCollection a) r ++ (g <$> l)
  ∧ errors (deploymentCollection a') = errors (deploymentCollection a)
  ∧ o a' = o a ∧ k a' = k a
  ∧ appliedObjects a' = appliedObjects a
  ∧ appliedHookObjects a' = appliedHookObjects a
  ∧ abortSignal a' = abortSignal a
  ∧ trace (forM_ l (λ x, handleWarning r (g x)) a) = [].
Proof.
  revert a. induction l as [|x l IH]; intros a; cbn zeta.
  - cbn. by rewrite app_nil_r.
  - cbn [forM_]. rewrite final_bind, trace_bind.
    destruct (IH (final (handleWarning r (g x) a)))
      as (Hw & He & Ho & Hk & Ha & Hh & Hs & Ht).
    rewrite Hw, He, Ho, Hk, Ha, Hh, Hs, Ht.
    unfold warningsOf, handleWarning, modify, final, addWarning.
    cbn [fst snd deploymentCollection with_deploymentCollection warnings
         errors o k appliedObjects appliedHookObjects abortSignal with_k].
    rewrite lookup_insert_eq. cbn. rewrite <- app_assoc. done.
Qed.

(** A conflict with [forceApply] set: the object is patched again as it is,
    with the force directive, and that is the only call. The result of the
    forced patch is recorded, or else its error; the conflict itself is
    not, and the replace ladder is not entered. *)
Theorem conflict_forced
    (a : applyUtil W) (x remote : Unstructured) (hook : bool)
    (applyError : error) (w1 : W) (ws : list ApiWarning)
    (res : Unstructured + error) :
  forceApply (o a) = true →
  PatchObject x (PatchOptions.mk (dryRun (o a)) true) (k a) = (w1, (ws, res)) →
  let run := retryApplyWithConflicts x hook (Some remote) applyError a in
  apiCalls (trace run) = [EvPatch x (PatchOptions.mk (dryRun (o a)) true)]
  ∧ match res with
    | inl r1 =>
        appliedMap hook (final run) !! RefFromObject r1 = Some r1
        ∧ errors (deploymentCollection (final run))
          = errors (deploymentCollection a)
    | inr err =>
        errorsOf (deploymentCollection (final run)) (RefFromObject x)
        = errorsOf (deploymentCollection a) (RefFromObject x) ++ [err]
        ∧ appliedObjects (final run) = appliedObjects a
        ∧ appliedHookObjects (final run) = appliedHookObjects a
    end.
Proof.
  intros Hforce Hpatch run. subst run.
  unfold retryApplyWithConflicts, forcedPatch, k_PatchObject.
  simp. rewrite Hforce. simp. rewrite Hpatch. simp.
  destruct res as [r1 | err]; simp.
  - destruct hook; simp; rewrite lookup_insert_eq; done.
  - unfold errorsOf.
    destruct (abortOnError (o a)); simp; rewrite lookup_insert_eq; done.
Qed.

(** A conflict without [forceApply], resolved by the resolver: the resolved
    object is patched with the force directive, and that is the only call;
    each field the resolver gave up becomes a warning on the reference, in
    order. The result of the patch is recorded, or else its error. *)
Theorem conflict_resolved
    (a : applyUtil W) (x remote x3 : Unstructured) (hook : bool)
    (applyError : error) (status : Status) (los : list diff.LostOwnership)
    (w1 : W) (ws : list ApiWarning) (res : Unstructured + error) :
  forceApply (o a) = false →
  asStatusError applyError = Some status →
  diff.ResolveFieldManagerConflicts x (Some remote) status = inl (x3, los) →
  PatchObject x3 (PatchOptions.mk (dryRun (o a)) true) (k a) = (w1, (ws, res)) →
  let run := retryApplyWithConflicts x hook (Some remote) applyError a in
  apiCalls (trace run) = [EvPatch x3 (PatchOptions.mk (dryRun (o a)) true)]
  ∧ warningsOf (deploymentCollection (final run)) (RefFromObject x)
    = warningsOf (deploymentCollection a) (RefFromObject x)
      ++ (lostOwnershipWarning <$> los)
  ∧ match res with
    | inl r1 =>
        appliedMap hook (final run) !! RefFromObject r1 = Some r1
        ∧ errors (deploymentCollection (final run))
          = errors (deploymentCollection a)
    | inr err =>
        errorsOf (deploymentCollection (final run)) (RefFromObject x)
        = errorsOf (deploymentCollection a) (RefFromObject x) ++ [err]
        ∧ appliedObjects (final run) = appliedObjects a
        ∧ appliedHookObjects (final run) = appliedHookObjects a
    end.
Proof.
  intros Hforce Hstatus Hresolve Hpatch run. subst run.
  unfold retryApplyWithConflicts, forcedPatch, k_PatchObject.
  simp. rewrite Hforce. simp. rewrite Hstatus, Hresolve. simp.
  destruct (forM_handleWarning_final (RefFromObject x) lostOwnershipWarning
              los a) as (Hw & He & Ho & Hk & Ha & Hh & Hs & Ht).
  unfold RefFromObject in *.
  rewrite Ht, Ho, Hk, Hpatch. simp.
  unfold warningsOf, errorsOf in *.
  destruct res as [r1 | err].
  - destruct hook; simp; (split; [done |]); (split; [exact Hw |]);
      rewrite lookup_insert_eq, ?He; done.
  - simp. rewrite Ho. split; [done |]. split.
    { destruct (abortOnError (o a)); simp; exact Hw. }
    destruct (abortOnError (o a)); simp;
      rewrite lookup_insert_eq, ?He, ?Ha, ?Hh; done.
Qed.

(** A conflict without [forceApply] that cannot be resolved (the error is
    not a status error, or the resolver fails) ends the apply without any
    further call: the conflict, respectively the resolver's error, is
    recorded. *)
Theorem conflict_unresolved
    (a : applyUtil W) (x remote : Unstructured) (hook : bool)
    (applyError : error) :
  forceApply (o a) = false →
  let run := retryApplyWithConflicts x hook (Some remote) applyError a in
  let recorded :=
    match asStatusError applyError with
    | None => Some applyError
    | Some status =>
        match diff.ResolveFieldManagerConflicts x (Some remote) status with
        | inr err => Some err
        | inl _ => None
        end
    end in
  ∀ err, recorded = Some err →
    apiCalls (trace run) = []
    ∧ k (final run) = k a
    ∧ errorsOf (deploymentCollection (final run)) (RefFromObject x)
      = errorsOf (deploymentCollection a) (RefFromObject x) ++ [err]
    ∧ appliedObjects (final run) = appliedObjects a
    ∧ appliedHookObjects (final run) = appliedHookObjects a.
Proof.
  intros Hforce run recorded err Hrec. subst run recorded.
  unfold retryApplyWithConflicts. simp. rewrite Hforce. simp.
  destruct (asStatusError applyError) as [status |].
  - destruct (diff.ResolveFieldManagerConflicts _ _ _) as [[x3 los] | e];
      [done |]. injection Hrec as ->. simp. unfold errorsOf.
    destruct (abortOnError (o a)); simp; rewrite lookup_insert_eq; done.
  - injection Hrec as ->. simp. unfold errorsOf.
    destruct (abortOnError (o a)); simp; rewrite lookup_insert_eq; done.
Qed.

(** *** How many calls *)

Local Abbreviation atMost n m := (apply_more_spec.atMost (W:=W) n m).

Lemma atMost_bind {A B} n1 n2 (m : M W A) (f : A → M W B) :
  atMost n1 m → (∀ x, atMost n2 (f x)) → atMost (n1 + n2) (bind m f).
Proof.
  intros Hm Hf a. rewrite trace_bind. unfold apiCalls.
  rewrite List.filter_app, length_app.
  specialize (Hm a). specialize (Hf (result (m a)) (final (m a))).
  unfold apiCalls in *. lia.
Qed.

Lemma atMost_le {A} n n' (m : M W A) : atMost n m → (n ≤ n')%nat → atMost n' m.
Proof. intros Hm Hle a. specialize (Hm a). lia. Qed.

Lemma atMost_silent {A} (m : M W A) : (∀ a, trace (m a) = []) → atMost 0 m.
Proof. intros Hm a. by rewrite Hm. Qed.

Lemma atMost_handleError r e : atMost 0 (handleError r e).
Proof. by apply atMost_silent. Qed.

Lemma atMost_handleResult x hook : atMost 0 (handleResult x hook).
Proof. apply atMost_silent. by destruct hook. Qed.

Lemma atMost_handleApiWarnings r ws : atMost 0 (handleApiWarnings r ws).
Proof. by apply atMost_silent. Qed.

Lemma atMost_logf l msg : atMost 0 (logf l msg).
Proof. by intros a. Qed.

Lemma atMost_ret {A} (x : A) : atMost 0 (ret x).
Proof. by apply atMost_silent. Qed.

Lemma atMost_gets {A} (g : applyUtil W → A) : atMost 0 (gets g).
Proof. by apply atMost_silent. Qed.

Lemma atMost_forM_silent {A} (l : list A) (f : A → M W unit) :
  (∀ x a, trace (f x a) = []) → atMost 0 (forM_ l f).
Proof.
  intros Hf. apply atMost_silent. induction l as [|x l IH]; intros a; [done |].
  cbn [forM_]. rewrite trace_bind, Hf. apply IH.
Qed.

Lemma atMost_Patch x opts : atMost 1 (k_PatchObject x opts).
Proof. intros a. unfold k_PatchObject. by destruct (PatchObject _ _ _). Qed.

Lemma atMost_Update x opts : atMost 1 (k_UpdateObject x opts).
Proof. intros a. unfold k_UpdateObject. by destruct (UpdateObject _ _ _). Qed.

Lemma atMost_Delete r opts : atMost 1 (k_DeleteSingleObject r opts).
Proof. intros a. unfold k_DeleteSingleObject. by destruct (DeleteSingleObject _ _ _). Qed.

Lemma atMost_deleteObject r : atMost 1 (deleteObject r).
Proof.
  unfold deleteObject.
  apply (atMost_bind 0 1); [apply atMost_gets | intros dry].
  apply (atMost_bind 1 0); [apply atMost_Delete | intros [ws err]].
  apply (atMost_bind 0 0); [apply atMost_handleApiWarnings | intros _].
  destruct err.
  - apply (atMost_bind 0 0); [apply atMost_handleError | intros; apply atMost_ret].
  - apply atMost_ret.
Qed.

Lemma atMost_retryApplyForceReplace x hook err :
  atMost 2 (retryApplyForceReplace x hook err).
Proof.
  unfold retryApplyForceReplace.
  apply (atMost_bind 0 2); [apply atMost_gets | intros opts].
  destruct (negb (forceReplaceOnError opts)).
  { eapply atMost_le; [apply atMost_handleError | lia]. }
  apply (atMost_bind 0 2); [apply atMost_logf | intros _].
  apply (atMost_bind 1 1); [apply atMost_deleteObject | intros deleted].
  destruct (negb deleted); [eapply atMost_le; [apply atMost_ret | lia] |].
  destruct (negb (dryRun opts)).
  - apply (atMost_bind 1 0); [apply atMost_Patch | intros [ws res]].
    apply (atMost_bind 0 0); [apply atMost_handleApiWarnings | intros _].
    destruct res; [apply atMost_handleResult | apply atMost_handleError].
  - eapply atMost_le; [apply atMost_handleResult | lia].
Qed.

Lemma atMost_retryApplyWithReplace x hook remote err :
  atMost 3 (retryApplyWithReplace x hook remote err).
Proof.
  unfold retryApplyWithReplace.
  apply (atMost_bind 0 3); [apply atMost_gets | intros opts].
  destruct (_ || _).
  { eapply atMost_le; [apply atMost_handleError | lia]. }
  apply (atMost_bind 0 3); [apply atMost_logf | intros _]. cbn zeta.
  apply (atMost_bind 1 2); [apply atMost_Update | intros [ws res]].
  apply (atMost_bind 0 2); [apply atMost_handleApiWarnings | intros _].
  destruct res.
  - eapply atMost_le; [apply atMost_handleResult | lia].
  - apply atMost_retryApplyForceReplace.
Qed.

Lemma atMost_forcedPatch x r hook : atMost 1 (forcedPatch x r hook).
Proof.
  unfold forcedPatch.
  apply (atMost_bind 0 1); [apply atMost_gets | intros dry]. cbn zeta.
  apply (atMost_bind 1 0); [apply atMost_Patch | intros [ws res]].
  apply (atMost_bind 0 0); [apply atMost_handleApiWarnings | intros _].
  destruct res; [apply atMost_handleResult | apply atMost_handleError].
Qed.

Lemma atMost_retryApplyWithConflicts x hook remote err :
  atMost 1 (retryApplyWithConflicts x hook remote err).
Proof.
  unfold retryApplyWithConflicts. cbn zeta.
  apply (atMost_bind 0 1).
  { destruct remote; [apply atMost_ret | apply atMost_handleError]. }
  intros _.
  apply (atMost_bind 0 1); [apply atMost_gets | intros force].
  destruct (negb force); [| apply atMost_forcedPatch].
  destruct (asStatusError err) as [status |].
  - destruct (diff.ResolveFieldManagerConflicts _ _ _) as [[x3 los] | e].
    + apply (atMost_bind 0 1); [| intros _; apply atMost_forcedPatch].
      by apply atMost_forM_silent.
    + eapply atMost_le; [apply atMost_handleError | lia].
  - eapply atMost_le; [apply atMost_handleError | lia].
Qed.

Lemma atMost_applyObject x replaced hook : atMost 4 (applyObject x replaced hook).
Proof.
  unfold applyObject. cbn zeta.
  apply (atMost_bind 0 4); [apply atMost_logf | intros _].
  apply (atMost_bind 0 4); [apply atMost_gets | intros remote].
  apply (atMost_bind 0 4); [apply atMost_gets | intros dry].
  destruct (_ && _).
  { eapply atMost_le; [apply atMost_handleResult | lia]. }
  apply (atMost_bind 1 3); [apply atMost_Patch | intros [ws res]].
  apply (atMost_bind 0 3); [apply atMost_handleApiWarnings | intros _].
  destruct res as [r1 | err].
  { eapply atMost_le; [apply atMost_handleResult | lia]. }
  destruct (meta.IsNoMatchError err).
  { eapply atMost_le; [apply atMost_handleError | lia]. }
  destruct (IsConflict err).
  - eapply atMost_le; [apply atMost_retryApplyWithConflicts | lia].
  - apply atMost_retryApplyWithReplace.
Qed.

(** Whatever the cluster answers, the apply of one object makes at most
    four client calls; the conflict retry makes at most one, the replace
    retry at most three, the forced replace at most two. *)
Theorem apply_call_bounds
    (a : applyUtil W) (x : Unstructured) (replaced hook : bool)
    (remote : option Unstructured) (err : error) :
  (length (apiCalls (trace (applyObject x replaced hook a))) ≤ 4)%nat
  ∧ (length (apiCalls (trace (retryApplyWithConflicts x hook remote err a))) ≤ 1)%nat
  ∧ (length (apiCalls (trace (retryApplyWithReplace x hook remote err a))) ≤ 3)%nat
  ∧ (length (apiCalls (trace (retryApplyForceReplace x hook err a))) ≤ 2)%nat.
Proof.
  split; [apply atMost_applyObject |].
  split; [apply atMost_retryApplyWithConflicts |].
  split; [apply atMost_retryApplyWithReplace |].
  apply atMost_retryApplyForceReplace.
Qed.

(** *** What an apply leaves alone *)

Section moves.

Variable R : applyUtil W → applyUtil W → Prop.
Variable hook : bool.

Hypothesis R_refl : ∀ a, R a a.
Hypothesis R_trans : ∀ a a' a'', R a a' → R a' a'' → R a a''.
Hypothesis R_k : ∀ a w, R a (with_k w a).
Hypothesis R_apiWarnings : ∀ a r ws, R a (final (handleApiWarnings r ws a)).
Hypothesis R_warning : ∀ a r w, R a (final (handleWarning r w a)).
Hypothesis R_error : ∀ a r e, R a (final (handleError r e a)).
Hypothesis R_result : ∀ a y, R a (final (handleResult y hook a)).

Local Abbreviation moves m := (apply_more_spec.moves (W:=W) R m).

Lemma moves_ret {A} (x : A) : moves (ret x).
Proof. intros a. apply R_refl. Qed.

Lemma moves_bind {A B} (m : M W A) (f : A → M W B) :
  moves m → (∀ x, moves (f x)) → moves (bind m f).
Proof.
  intros Hm Hf a. rewrite final_bind. eapply R_trans; [apply Hm | apply Hf].
Qed.

Lemma moves_gets {A} (g : applyUtil W → A) : moves (gets g).
Proof. intros a. apply R_refl. Qed.

Lemma moves_emit e : moves (emit e).
Proof. intros a. apply R_refl. Qed.

Lemma moves_forM {A} (l : list A) (f : A → M W unit) :
  (∀ x, moves (f x)) → moves (forM_ l f).
Proof.
  intros Hf. induction l as [|x l IH]; cbn [forM_].
  - apply moves_ret.
  - apply moves_bind; auto.
Qed.

Lemma moves_Patch x opts : moves (k_PatchObject x opts).
Proof. intros a. unfold k_PatchObject. destruct (PatchObject _ _ _). apply R_k. Qed.

Lemma moves_Update x opts : moves (k_UpdateObject x opts).
Proof. intros a. unfold k_UpdateObject. destruct (UpdateObject _ _ _). apply R_k. Qed.

Lemma moves_Delete r opts : moves (k_DeleteSingleObject r opts).
Proof.
  intros a. unfold k_DeleteSingleObject. destruct (DeleteSingleObject _ _ _).
  apply R_k.
Qed.

Lemma moves_Get r : moves (k_GetSingleObject r).
Proof. intros a. unfold k_GetSingleObject. destruct (GetSingleObject _ _). apply R_k. Qed.

Lemma moves_Sleep d : moves (time_Sleep d).
Proof. intros a. apply R_k. Qed.

Lemma moves_handleError r e : moves (handleError r e).
Proof. intros a. apply R_error. Qed.

Lemma moves_handleResult y : moves (handleResult y hook).
Proof. intros a. apply R_result. Qed.

Lemma moves_handleApiWarnings r ws : moves (handleApiWarnings r ws).
Proof. intros a. apply R_apiWarnings. Qed.

Lemma moves_handleWarning r w : moves (handleWarning r w).
Proof. intros a. apply R_warning. Qed.

Create HintDb moves.
#[local] Hint Resolve moves_ret moves_gets moves_emit moves_Patch moves_Update
  moves_Delete moves_Get moves_Sleep moves_handleError moves_handleResult
  moves_handleApiWarnings moves_handleWarning : moves.

Ltac moves_step :=
  match goal with
  | |- apply_more_spec.moves _ (bind _ _) => apply moves_bind; [| intros ?]
  | |- apply_more_spec.moves _ (forM_ _ _) => apply moves_forM; intros ?
  | |- apply_more_spec.moves _ (match ?x with _ => _ end) => destruct x
  | |- apply_more_spec.moves _ _ => solve [unfold logf, time_Now; eauto with moves]
  end.

Lemma moves_deleteObject r : moves (deleteObject r).
Proof. unfold deleteObject. repeat moves_step. Qed.

Lemma moves_retryApplyForceReplace x err :
  moves (retryApplyForceReplace x hook err).
Proof.
  unfold retryApplyForceReplace. pose proof moves_deleteObject.
  repeat moves_step.
Qed.

Lemma moves_retryApplyWithReplace x remote err :
  moves (retryApplyWithReplace x hook remote err).
Proof.
  unfold retryApplyWithReplace. pose proof moves_retryApplyForceReplace.
  repeat moves_step.
Qed.

Lemma moves_forcedPatch x r : moves (forcedPatch x r hook).
Proof. unfold forcedPatch. repeat moves_step. Qed.

Lemma moves_retryApplyWithConflicts x remote err :
  moves (retryApplyWithConflicts x hook remote err).
Proof.
  unfold retryApplyWithConflicts. pose proof moves_forcedPatch.
  repeat moves_step.
Qed.

Lemma moves_applyObject x replaced : moves (applyObject x replaced hook).
Proof.
  unfold applyObject.
  pose proof moves_retryApplyWithConflicts.
  pose proof moves_retryApplyWithReplace.
  repeat moves_step.
Qed.

Lemma moves_waitHookLoop fuel r start didLog :
  moves (waitHookLoop fuel r start didLog).
Proof.
  revert didLog. induction fuel as [|fuel IH]; intros didLog; cbn [waitHookLoop].
  - apply moves_ret.
  - repeat moves_step.
Qed.

Lemma moves_waitHook fuel r : moves (waitHook fuel r).
Proof. unfold waitHook. pose proof moves_waitHookLoop. repeat moves_step. Qed.

End moves.

Lemma apart_trans hook (a a' a'' : applyUtil W) :
  apart hook a a' → apart hook a' a'' → apart hook a a''.
Proof. intros [? ?] [? ?]. split; congruence. Qed.

(** Regular and hook results stay apart: an apply records into the map that
    [hook] selects and leaves the other map as it was, whatever path it
    takes; a hook wait and a delete leave both maps as they were. None of
    them changes the options. *)
Theorem applied_maps_stay_apart
    (a : applyUtil W) (x : Unstructured) (replaced hook : bool)
    (fuel : nat) (r : ObjectRef) :
  apart hook a (final (applyObject x replaced hook a))
  ∧ mapsKept a (final (waitHook fuel r a))
  ∧ mapsKept a (final (deleteObject r a)).
Proof.
  split; [| split].
  - apply (moves_applyObject (apart hook) hook); try done.
    + apply apart_trans.
    + intros a0 r0 e. unfold apart. rewrite handleError_final.
      by destruct hook, (abortOnError (o a0)).
    + intros a0 y. by destruct hook.
  - apply (moves_waitHook mapsKept); try done.
    + intros a0 a1 a2 (? & ? & ?) (? & ? & ?). repeat split; congruence.
    + intros a0 r0 e. unfold mapsKept. rewrite handleError_final.
      by destruct (abortOnError (o a0)).
  - apply (moves_deleteObject mapsKept); try done.
    + intros a0 a1 a2 (? & ? & ?) (? & ? & ?). repeat split; congruence.
    + intros a0 r0 e. unfold mapsKept. rewrite handleError_final.
      by destruct (abortOnError (o a0)).
Qed.

Lemma signalled_refl (a : applyUtil W) : signalled a a.
Proof. by repeat split. Qed.

Lemma signalled_trans (a a' a'' : applyUtil W) :
  signalled a a' → signalled a' a'' → signalled a a''.
Proof.
  intros (Ho & Hmono & Hoff & Hon) (Ho' & Hmono' & Hoff' & Hon').
  rewrite Ho in Hoff', Hon'.
  split; [congruence |]. split; [auto |]. split.
  - intros Hflag. rewrite Hoff' by done. auto.
  - intros Hflag Hchanged.
    destruct (decide (errors (deploymentCollection a')
                      = errors (deploymentCollection a))) as [Heq | Hne].
    + apply Hon'; [done |]. by rewrite Heq.
    + auto.
Qed.

Lemma signalled_handleError (a : applyUtil W) r e :
  signalled a (final (handleError r e a)).
Proof.
  rewrite handleError_final. unfold signalled.
  destruct (abortOnError (o a)) eqn:Hflag; cbn; by repeat split.
Qed.

Ltac signalled_tac :=
  first [ apply signalled_refl
        | apply signalled_trans
        | apply signalled_handleError
        | intros ? ?; match goal with h : bool |- _ => destruct h end;
          by repeat split
        | intros; by repeat split ].

(** The Abort Signal across an apply, a hook wait and a delete: once set it
    stays set; with [abortOnError] off it is left as it was; with
    [abortOnError] on it is set whenever the call has changed the error
    ledger. *)
Theorem abort_signal_follows_errors
    (a : applyUtil W) (x : Unstructured) (replaced hook : bool)
    (fuel : nat) (r : ObjectRef) :
  signalled a (final (applyObject x replaced hook a))
  ∧ signalled a (final (waitHook fuel r a))
  ∧ signalled a (final (deleteObject r a)).
Proof.
  split; [| split].
  - apply (moves_applyObject signalled hook); signalled_tac.
  - apply (moves_waitHook signalled); signalled_tac.
  - apply (moves_deleteObject signalled); signalled_tac.
Qed.

End apply_more.

Import scripted.

Lemma applyObject_patch_accepted_witness :
  apiCalls (trace (applyObject cm1 false false acceptEngine))
  = [EvPatch cm1 (PatchOptions.mk false false)]
  ∧ appliedObjects (final (applyObject cm1 false false acceptEngine))
    !! configMap "cm1" = Some cm1.
Proof.
  pose proof (applyObject_patch_accepted acceptEngine cm1 false false
                (after []) [] cm1 eq_refl eq_refl) as H.
  exact (conj (proj1 H) (proj1 (proj2 (proj2 H)))).
Defined.

Lemma applyObject_no_match_is_fatal_witness :
  replaceOnError (o noMatchEngine) = true
  ∧ forceReplaceOnError (o noMatchEngine) = true
  ∧ apiCalls (trace (applyObject cm1 false false noMatchEngine))
    = [EvPatch cm1 (PatchOptions.mk false false)].
Proof.
  split; [reflexivity |]. split; [reflexivity |].
  exact (proj1 (applyObject_no_match_is_fatal noMatchEngine cm1 false false
                  (after []) [] noMatch eq_refl eq_refl eq_refl)).
Defined.

Lemma applyObject_without_replace_witness :
  apiCalls (trace (applyObject cm1 false false plainEngine))
  = [EvPatch cm1 (PatchOptions.mk false false)]
  ∧ errorsOf (deploymentCollection (final (applyObject cm1 false false plainEngine)))
      (configMap "cm1") = [invalid422].
Proof.
  pose proof (applyObject_without_replace plainEngine cm1 false false
                (after []) [] invalid422 eq_refl eq_refl eq_refl eq_refl
                (or_introl eq_refl)) as H.
  exact (conj (proj1 H) (proj1 (proj2 H))).
Defined.

Lemma applyObject_dry_run_replaced_witness :
  apiCalls (trace (applyObject cm1 true false dryEngine)) = []
  ∧ appliedObjects (final (applyObject cm1 true false dryEngine))
    !! configMap "cm1" = Some cm1.
Proof.
  pose proof (applyObject_dry_run_replaced dryEngine cm1 false cm1Remote
                eq_refl eq_refl) as H.
  exact (conj (proj1 H) (proj1 (proj2 (proj2 (proj2 H))))).
Defined.

Lemma applyObject_replace_ladder_witness :
  apiCalls (trace (applyObject cm1 false false ladderEngine))
  = [EvPatch cm1 (PatchOptions.mk false false);
     EvUpdate cm1 (UpdateOptions.mk false);
     EvDelete (configMap "cm1") (DeleteOptions.mk false);
     EvPatch cm1 (PatchOptions.mk false false)].
Proof.
  exact (proj1 (applyObject_replace_ladder ladderEngine cm1 cm1Remote false false
                  (after [ReplyError forbidden403; ReplyOk; ReplyOk])
                  (after [ReplyOk; ReplyOk]) (after [ReplyOk]) (after [])
                  [] [] [] [] invalid422 forbidden403 (inl cm1)
                  eq_refl eq_refl eq_refl eq_refl eq_refl eq_refl eq_refl
                  eq_refl eq_refl eq_refl)).
Defined.

Lemma retryApplyWithReplace_update_refused_witness :
  errorsOf (deploymentCollection
              (final (retryApplyWithReplace cm1 false (Some cm1Remote) invalid422
                        (refusingEngine replaceOptions))))
    (configMap "cm1") = [forbidden403].
Proof.
  exact (proj1 (proj2 (retryApplyWithReplace_update_refused
                         (refusingEngine replaceOptions) cm1 cm1Remote false
                         invalid422 forbidden403 (after []) []
                         eq_refl eq_refl eq_refl))).
Defined.

Lemma retryApplyForceReplace_delete_refused_witness :
  apiCalls (trace (retryApplyForceReplace cm1 false invalid422
                     (refusingEngine forceReplaceOptions)))
  = [EvDelete (configMap "cm1") (DeleteOptions.mk false)].
Proof.
  exact (proj1 (retryApplyForceReplace_delete_refused
                  (refusingEngine forceReplaceOptions) cm1 false invalid422
                  forbidden403 (after []) [] eq_refl eq_refl)).
Defined.

Lemma conflict_forced_witness :
  apiCalls (trace (retryApplyWithConflicts cm1 false (Some cm1Remote) conflict409
                     (acceptingEngine forceApplyOptions)))
  = [EvPatch cm1 (PatchOptions.mk false true)].
Proof.
  exact (proj1 (conflict_forced (acceptingEngine forceApplyOptions) cm1 cm1Remote
                  false conflict409 (after []) [] (inl cm1) eq_refl eq_refl)).
Defined.

Lemma conflict_resolved_witness :
  apiCalls (trace (retryApplyWithConflicts cm1 false (Some cm1Remote) conflict409
                     (acceptingEngine options0)))
  = [EvPatch cm1 (PatchOptions.mk false true)].
Proof.
  exact (proj1 (conflict_resolved (acceptingEngine options0) cm1 cm1Remote cm1
                  false conflict409
                  (mkStatus StatusReasonConflict 409 "conflict" [("data.a", "other")])
                  [] (after []) [] (inl cm1)
                  eq_refl eq_refl eq_refl eq_refl)).
Defined.

Lemma conflict_unresolved_witness :
  IsConflict wrappedConflict = true
  ∧ apiCalls (trace (retryApplyWithConflicts cm1 false (Some cm1Remote)
                       wrappedConflict (acceptingEngine options0))) = [].
Proof.
  split; [reflexivity |].
  exact (proj1 (conflict_unresolved (acceptingEngine options0) cm1 cm1Remote
                  false wrappedConflict eq_refl wrappedConflict eq_refl)).
Defined.

End apply_more.

Module scheduler_more.
Import apply_utils apply_spec apply_proofs scheduler scheduler_spec
  scheduler_proofs scheduler_more_spec.

Section scheduler_more.

Context {W : Type} `{!K8sCluster W} `{!diff.Resolver} `{!validation.Validator}
        `{!HooksUtil W}.

Local Abbreviation system := (@scheduler.system W).

Lemma step_inOrder a0 act (s s' : system) :
  inOrder a0 s → step act s = Some s' → inOrder a0 s'.
Proof.
  unfold inOrder. intros [Hpre Heq]. destruct act as [| i]; cbn [step].
  - unfold schedStep.
    destruct (at_ s) as [[|d rest] pwb | d rest pwb | d rest | d rest | | |]
      eqn:Hat; cbn [stopped pending] in *.
    + by intros [= <-].
    + destruct (abortSignal (a s)); intros [= <-]; cbn; split; done.
    + destruct pwb; intros [= <-]; cbn; split; done.
    + destruct (queue s); [| done]. intros [= <-]; cbn; split; done.
    + intros [= <-]. cbn. specialize (Heq eq_refl). split.
      * rewrite <- Heq. apply prefix_app. by exists rest.
      * intros _. by rewrite <- Heq, <- (assoc app).
    + destruct (queue s); [| done]. by intros [= <-].
    + destruct (queue s); [| done]. by intros [= <-].
    + done.
  - intros Hw. apply workStep_inv in Hw as (d & _ & _ & _ & _ & Hat & _ & Hsub & _).
    by rewrite Hat, Hsub.
Qed.

(** Items are dispatched in the order of the collection, none skipped and
    none twice: what has been submitted is always a prefix of the
    collection, and while the scheduler is in its loop the items submitted
    followed by the items still pending are the collection. The scheduler
    leaves its loop only when the range is exhausted, with everything
    submitted, or on reading the Abort Signal as set. *)
Theorem dispatch_follows_collection (a0 : applyUtil W) (s : system) :
  reachable a0 s →
  submitted s `prefix_of` deployments (deploymentCollection a0)
  ∧ (stopped (at_ s) = false →
     submitted s ++ pending (at_ s) = deployments (deploymentCollection a0))
  ∧ (∀ s', schedStep s = Some s' →
       stopped (at_ s) = false → stopped (at_ s') = true →
       submitted s' = deployments (deploymentCollection a0)
       ∨ abortSignal (a s) = true).
Proof.
  intros [acts Hrun].
  assert (inOrder a0 s) as [Hpre Heq].
  { eapply (run_invariant (inOrder a0)); [apply step_inOrder | | done].
    split; [apply prefix_nil | done]. }
  split; [done |]. split; [done |].
  intros s' Hstep Hloop Hstop. specialize (Heq Hloop).
  unfold schedStep in Hstep.
  destruct (at_ s) as [[|d rest] pwb | d rest pwb | d rest | d rest | | |];
    try done.
  - injection Hstep as <-. left. cbn in *. by rewrite app_nil_r in Heq.
  - destruct (abortSignal (a s)); [by right |]. by injection Hstep as <-.
  - destruct pwb; by injection Hstep as <-.
  - destruct (queue s); [| done]. by injection Hstep as <-.
  - by injection Hstep as <-.
Qed.

Lemma lastBarrier_snoc l d : lastBarrier (l ++ [d]) = isBarrier d.
Proof. unfold lastBarrier. by rewrite last_snoc. Qed.

Lemma step_barrierKept act (s s' : system) :
  barrierKept s → step act s = Some s' → barrierKept s'.
Proof.
  unfold barrierKept. intros Hinv. destruct act as [| i]; cbn [step].
  - unfold schedStep.
    destruct (at_ s) as [[|d rest] pwb | d rest pwb | d rest | d rest | | |].
    + by intros [= <-].
    + by destruct (abortSignal (a s)); intros [= <-].
    + destruct pwb; intros [= <-]; cbn; [done |].
      intros Hlast. by rewrite Hlast in Hinv.
    + destruct (queue s); [| done]. by intros [= <-].
    + intros [= <-]. cbn. by rewrite lastBarrier_snoc.
    + destruct (queue s); [| done]. by intros [= <-].
    + destruct (queue s); [| done]. by intros [= <-].
    + done.
  - intros Hw.
    apply workStep_inv in Hw as (d & Hq & _ & _ & _ & Hat & Hqueue & Hsub & _).
    rewrite Hat, Hsub, Hqueue.
    destruct (at_ s); try done.
    intros Hlast. by rewrite (Hinv Hlast) in Hq.
Qed.

(** A barrier is respected: when the scheduler is about to submit an item
    and the item submitted before it is a barrier, the pool is empty, and
    every item submitted so far has run to completion. *)
Theorem barrier_respected (a0 : applyUtil W) (s : system) d rest :
  reachable a0 s →
  at_ s = AtSubmit d rest →
  lastBarrier (submitted s) = true →
  queue s = [] ∧ completed s ≡ₚ submitted s.
Proof.
  intros Hreach Hat Hlast.
  assert (barrierKept s) as Hinv.
  { destruct Hreach as [acts Hrun].
    eapply (run_invariant barrierKept); [apply step_barrierKept | | done].
    done. }
  unfold barrierKept in Hinv. rewrite Hat in Hinv.
  pose proof (Hinv Hlast) as Hq. split; [done |].
  pose proof (reachable_accounted _ _ Hreach) as Hacc.
  unfold accounted in Hacc. by rewrite Hq, app_nil_r in Hacc.
Qed.

End scheduler_more.

Import scripted.

Lemma dispatch_follows_collection_witness :
  reachable barrierEngine afterBarrier
  ∧ submitted afterBarrier `prefix_of` [first; second].
Proof.
  assert (reachable barrierEngine afterBarrier) as Hreach
    by (exists barrierSchedule; vm_compute; reflexivity).
  split; [exact Hreach |].
  exact (proj1 (dispatch_follows_collection barrierEngine afterBarrier Hreach)).
Defined.

Lemma barrier_respected_witness :
  reachable calmEngine calmAtSubmit
  ∧ at_ calmAtSubmit = AtSubmit second []
  ∧ lastBarrier (submitted calmAtSubmit) = true
  ∧ queue calmAtSubmit = [].
Proof.
  assert (reachable calmEngine calmAtSubmit) as Hreach
    by (exists calmSchedule; vm_compute; reflexivity).
  assert (at_ calmAtSubmit = AtSubmit second []) as Hat
    by (vm_compute; reflexivity).
  assert (lastBarrier (submitted calmAtSubmit) = true) as Hlast
    by (vm_compute; reflexivity).
  split; [exact Hreach |]. split; [exact Hat |]. split; [exact Hlast |].
  exact (proj1 (barrier_respected calmEngine calmAtSubmit second [] Hreach Hat
                  Hlast)).
Defined.

End scheduler_more.

Module wait_more.
Import apply_utils apply_spec apply_proofs.

Section wait_more.

Context {W : Type} `{!K8sCluster W} `{!diff.Resolver} `{!validation.Validator}
        `{!HooksUtil W}.

(** The clock: a sleep takes as long as it says, and time does not run
    backwards during a get. *)
Hypothesis sleep_advances : ∀ d (w : W), Now (Sleep d w) = Now w + d.
Hypothesis get_takes_time : ∀ r (w : W), Now w ≤ Now (GetSingleObject r w).1.

Lemma sub_reaches timeout now start :
  timeout ≤ gotime.maxDuration → 0 < timeout → timeout ≤ now - start →
  timeout ≤ gotime.Sub now start.
Proof.
  intros Hmax Hpos Hle. unfold gotime.Sub. cbn zeta.
  unfold gotime.minDuration, gotime.maxDuration in *.
  destruct (Z.ltb_spec (now - start) (- 2 ^ 63)); [lia |].
  destruct (Z.ltb_spec (2 ^ 63 - 1) (now - start)); lia.
Qed.

Lemma waitHookLoop_ends fuel r start didLog (a : applyUtil W) :
  0 < hookTimeout (o a) ≤ gotime.maxDuration →
  (1 ≤ fuel)%nat →
  hookTimeout (o a)
    ≤ Now (k a) - start + 500 * gotime.Millisecond * (Z.of_nat fuel - 1) →
  result (waitHookLoop fuel r start didLog a) ≠ None.
Proof.
  revert didLog a. induction fuel as [|fuel IH]; intros didLog a Hto Hfuel Hle;
    [lia |].
  destruct (GetSingleObject r (k a)) as [w1 [ws res]] eqn:Hget.
  pose proof (get_takes_time r (k a)) as Hnow. rewrite Hget in Hnow. cbn in Hnow.
  pose proof (probe_run fuel r start didLog a w1 ws res Hget) as Hprobe.
  cbn zeta in Hprobe.
  destruct (probeVerdict _ _ res) as [|c|] eqn:Hverdict.
  - destruct Hprobe as (-> & _). done.
  - destruct Hprobe as (-> & _). done.
  - destruct Hprobe as (-> & _).
    assert (hookTimeout (o a) > gotime.Sub (Now w1) start) as Hnot.
    { unfold probeVerdict in Hverdict. destruct res as [obj | err].
      - destruct (validation.Ready _); [done |].
        destruct (validation.Errors _); [| done].
        destruct (bool_decide _) eqn:Hdec; [done |].
        apply bool_decide_eq_false in Hdec.
        destruct (Z.le_gt_cases (hookTimeout (o a)) (gotime.Sub (Now w1) start));
          [| lia].
        exfalso. apply Hdec. split; [lia | done].
      - by destruct (IsNotFound err). }
    destruct fuel as [|fuel'].
    + exfalso.
      assert (hookTimeout (o a) ≤ gotime.Sub (Now w1) start); [| lia].
      apply sub_reaches; lia.
    + apply IH; cbn [o k with_k afterGet with_deploymentCollection];
        [done | lia |].
      rewrite sleep_advances. lia.
Qed.

(** A hook wait with a timeout ends. When the timeout is set, a wait that
    is given enough probes to span it (one more than the timeout holds
    intervals of 500 ms) returns a verdict: it does not go on polling. *)
Theorem waitHook_ends_by_timeout (a : applyUtil W) (r : ObjectRef) (fuel : nat) :
  dryRun (o a) = false →
  0 < hookTimeout (o a) ≤ gotime.maxDuration →
  (1 ≤ fuel)%nat →
  hookTimeout (o a) ≤ 500 * gotime.Millisecond * (Z.of_nat fuel - 1) →
  result (waitHook fuel r a) ≠ None.
Proof.
  intros Hdry Hto Hfuel Hle. rewrite waitHook_run by done. cbn [result fst].
  apply waitHookLoop_ends; [done | done | lia].
Qed.

End wait_more.

#[local] Existing Instance steady.cluster.
#[local] Existing Instance scripted.validator.

Lemma steady_sleep_advances d (w : steady.world) :
  Now (Sleep d w) = Now w + d.
Proof. reflexivity. Qed.

Lemma steady_get_takes_time r (w : steady.world) :
  Now w ≤ Now (GetSingleObject r w).1.
Proof. destruct w as [[|n] c]; cbn; lia. Qed.

Lemma waitHook_ends_by_timeout_witness :
  result (waitHook (W:=steady.world) 5 (RefFromObject steady.pod) steady.engine)
  ≠ None.
Proof.
  apply (waitHook_ends_by_timeout steady_sleep_advances steady_get_takes_time
           steady.engine (RefFromObject steady.pod) 5).
  - reflexivity.
  - split; [reflexivity | vm_compute; discriminate].
  - lia.
  - vm_compute. discriminate.
Defined.

End wait_more.

(** ** Further properties of the project setup *)

Module commands_more.
Import commands commands_spec commands_proofs commands_more_spec.

Section commands_more.
Context `{!Collaborators}.

Lemma SplitN2_first sep key rest :
  sep ∉ String.list_ascii_of_string key →
  gostrings.SplitN2 sep (key +:+ String sep rest) = Some (key, rest).
Proof.
  induction key as [|c key IH]; intros Hsep.
  - change (EmptyString +:+ String sep rest) with (String sep rest). cbn.
    by rewrite bool_decide_eq_true_2.
  - change (String c key +:+ String sep rest)
      with (String c (key +:+ String sep rest)).
    cbn in Hsep |- *. apply not_elem_of_cons in Hsep as [Hc Hkey].
    rewrite bool_decide_eq_false_2 by done. by rewrite IH.
Qed.

(** The text after the first [=] is the override, whatever it holds: an
    entry [key=override] whose key has no [=] and is a repository key gives
    that key and that override, prints nothing and defers nothing. *)
Theorem parseRepoOverride_splits_at_first_equals key override repoKey
    isGroup allowLegacy f :
  "="%char ∉ String.list_ascii_of_string key →
  ParseRepoKey key = inl repoKey →
  parseRepoOverride (key +:+ String "="%char override) isGroup allowLegacy f
  = (inl (mkOverride repoKey isGroup override), f).
Proof.
  intros Hkey Hparse. unfold parseRepoOverride.
  by rewrite SplitN2_first, Hparse.
Qed.

(** A refused entry changes nothing and reports either the entry itself,
    when it has no [=], or the error of [ParseRepoKey] on the text before
    the first [=]: the errors of the legacy attempt are never returned. *)
Theorem parseRepoOverride_reports_original_error s isGroup allowLegacy f e :
  (parseRepoOverride s isGroup allowLegacy f).1 = inr e →
  (parseRepoOverride s isGroup allowLegacy f).2 = f
  ∧ match gostrings.SplitN2 "="%char s with
    | None => e = errorString s
    | Some (sp0, _) => ParseRepoKey sp0 = inr e
    end.
Proof.
  unfold parseRepoOverride.
  destruct (gostrings.SplitN2 "="%char s) as [[sp0 sp1] |]; cbn.
  - destruct (ParseRepoKey sp0) as [k | err] eqn:Hk; cbn; [done |].
    destruct allowLegacy; cbn; [| by intros [= ->]].
    destruct (ParseGitUrl sp0) as [u | err2]; cbn; [| by intros [= ->]].
    destruct (ParseRepoKey (_ +:+ _)) as [k2 | err2]; cbn; [done | by intros [= ->]].
  - by intros [= ->].
Qed.

(** The deprecation notice is printed only for an accepted legacy key:
    an entry that prints anything was parsed with [allowLegacy], its text
    before the first [=] is no repository key, and it is accepted with the
    notice as the one thing printed. *)
Theorem parseRepoOverride_deprecation s isGroup allowLegacy f :
  made (parseRepoOverride s isGroup allowLegacy f).2 ≠ made f →
  allowLegacy = true
  ∧ made (parseRepoOverride s isGroup allowLegacy f).2
    = made f ++ [StatusDeprecation "old-repo-override"]
  ∧ ∃ sp0 sp1 err repoKey,
      gostrings.SplitN2 "="%char s = Some (sp0, sp1)
      ∧ ParseRepoKey sp0 = inr err
      ∧ (parseRepoOverride s isGroup allowLegacy f).1
        = inl (mkOverride repoKey isGroup sp1).
Proof.
  unfold parseRepoOverride.
  destruct (gostrings.SplitN2 "="%char s) as [[sp0 sp1] |]; cbn; [| done].
  destruct (ParseRepoKey sp0) as [k | err] eqn:Hk; cbn; [done |].
  destruct allowLegacy; cbn; [| done].
  destruct (ParseGitUrl sp0) as [u | err2]; cbn; [| done].
  destruct (ParseRepoKey (_ +:+ _)) as [k2 | err2]; cbn; [| done].
  intros _. split; [done |]. split; [done |]. by exists sp0, sp1, err, k2.
Qed.

Lemma quiet_parseRepoOverride s isGroup allowLegacy :
  quiet (parseRepoOverride s isGroup allowLegacy).
Proof.
  intros f. unfold parseRepoOverride.
  repeat case_match; try done.
Qed.

Lemma quiet_appendOverrides xs isGroup allowLegacy flag overrides :
  quiet (appendOverrides xs isGroup allowLegacy flag overrides).
Proof.
  revert overrides. induction xs as [|x xs IH]; intros overrides f; [done |].
  cbn [appendOverrides].
  pose proof (quiet_parseRepoOverride x isGroup allowLegacy f) as Hq.
  destruct (parseRepoOverride x isGroup allowLegacy f) as [[ro | e] f']; cbn in *.
  - by rewrite IH.
  - done.
Qed.

Lemma quiet_mergeArgsFromFiles files externalArgs :
  quiet (mergeArgsFromFiles files externalArgs).
Proof.
  revert externalArgs. induction files as [|file files IH]; intros externalArgs f;
    [done |].
  cbn [mergeArgsFromFiles]. unfold gbind, lift.
  destruct (uo_FromFile file); [apply IH | done].
Qed.

Lemma quiet_lift {A} (r : A + error) : quiet (lift r).
Proof. by intros f. Qed.

Lemma quiet_greturn {A} (x : A) : quiet (greturn x).
Proof. by intros f. Qed.

Lemma quiet_does c : quiet (does c).
Proof. by intros f. Qed.

Lemma quiet_gbind {A B} (m : G A) (k : A → G B) :
  quiet m → (∀ x, quiet (k x)) → quiet (gbind m k).
Proof.
  intros Hm Hk f. unfold gbind. specialize (Hm f).
  destruct (m f) as [[x | e] f']; cbn in *; [by rewrite Hk | done].
Qed.

Section lands.
Variable tmp : string.

Lemma lands_quiet {A} i (m : G A) : quiet m → lands tmp i [i] i m.
Proof.
  intros Hm f Hf. rewrite Hm, Hf.
  destruct (m f).1; [done |]. exists i. split; [apply list_elem_of_here | done].
Qed.

Lemma lands_does i c : lands tmp i [] i (does c).
Proof. by intros f Hf. Qed.

Lemma lands_defer i c :
  stack tmp (S i) = c :: stack tmp i → lands tmp i [] (S i) (defer c).
Proof. intros Hc f Hf. unfold defer. cbn [fst snd deferred]. by rewrite Hc, Hf. Qed.

Lemma lands_gbind {A B} i F1 j F2 l (m : G A) (k : A → G B) :
  lands tmp i F1 j m → (∀ x, lands tmp j F2 l (k x)) →
  lands tmp i (F1 ++ F2) l (gbind m k).
Proof.
  intros Hm Hk f Hf. unfold gbind. specialize (Hm f Hf).
  destruct (m f) as [[x | e] f']; cbn in *.
  - specialize (Hk x f' Hm). destruct (k x f').1; [done |].
    destruct Hk as (n & Hn & Hk). exists n.
    split; [apply elem_of_app; by right | done].
  - destruct Hm as (n & Hn & Hm). exists n.
    split; [apply elem_of_app; by left | done].
Qed.

Lemma lands_weaken {A} i F F' j (m : G A) :
  lands tmp i F j m → F ⊆ F' → lands tmp i F' j m.
Proof.
  intros Hm Hsub f Hf. specialize (Hm f Hf). destruct (m f).1; [done |].
  destruct Hm as (n & Hn & Hm). exists n. split; [by apply Hsub | done].
Qed.

Lemma lands_body (projectFlags : ProjectFlags) (argsFlags : option ArgsFlags)
    (internalDeploy strictTemplates : bool) (cb : unit + error) :
  lands tmp 1%nat [1; 2; 3; 5]%nat 5%nat
    (gbind (does NewKluctlJinja2) (λ _,
     gbind (lift (kluctl_jinja2_New strictTemplates)) (λ _,
     gbind (defer J2Close) (λ _,
     gbind (lift GetProjectDir) (λ projectDir,
     gbind
        (if negb internalDeploy then
           match DetectGitRepositoryRoot projectDir with
           | inl root => greturn root
           | inr _ =>
               gbind (does (StatusWarning
                 "Failed to detect git project root. This might cause follow-up errors"))
                 (λ _, greturn "")
           end
         else greturn "") (λ repoRoot,
      let repoRoot := if bool_decide (repoRoot = "") then projectDir else repoRoot in
     gbind (does WithTimeout) (λ _,
     gbind (defer Cancel) (λ _,
     gbind (appendOverrides (LocalGitOverride projectFlags) false true
          "--local-git-override" []) (λ gitRepoOverrides,
     gbind (appendOverrides (LocalGitGroupOverride projectFlags) true true
          "--local-git-group-override" gitRepoOverrides) (λ gitRepoOverrides,
     gbind (appendOverrides (LocalOciOverride projectFlags) false false
          "--local-oci-override" []) (λ ociRepoOverrides,
     gbind (appendOverrides (LocalOciGroupOverride projectFlags) true false
          "--local-oci-group-override" ociRepoOverrides) (λ ociRepoOverrides,
     gbind (does NewGitRepoCache) (λ _,
     gbind (defer GitRpClear) (λ _,
     gbind (does NewOciRepoCache) (λ _,
     gbind (defer GitRpClear) (λ _,
     gbind
        match argsFlags with
        | Some flags =>
            gbind (lift (ParseArgs (Arg flags))) (λ optionArgs,
            gbind (lift (ConvertArgsToVars optionArgs true)) (λ externalArgs,
            mergeArgsFromFiles (ArgsFromFile flags) externalArgs))
        | None => greturn []
        end (λ externalArgs,
     gbind (does LoadKluctlProject) (λ _,
     gbind (lift (kluctl_project_Load repoRoot projectDir)) (λ _,
     gbind (does Callback) (λ _,
     lift cb)))))))))))))))))))).
Proof.
  eapply lands_weaken.
  - eapply lands_gbind; [apply lands_does | intros _].
    eapply lands_gbind; [apply lands_quiet, quiet_lift | intros _].
    eapply lands_gbind; [by apply lands_defer | intros _].
    eapply lands_gbind; [apply lands_quiet, quiet_lift | intros projectDir].
    eapply lands_gbind.
    { apply lands_quiet. destruct (negb internalDeploy); [| apply quiet_greturn].
      destruct (DetectGitRepositoryRoot projectDir); [apply quiet_greturn |].
      apply quiet_gbind; [apply quiet_does | intros; apply quiet_greturn]. }
    intros repoRoot. cbn zeta.
    eapply lands_gbind; [apply lands_does | intros _].
    eapply lands_gbind; [by apply lands_defer | intros _].
    do 4 (eapply lands_gbind; [apply lands_quiet, quiet_appendOverrides | intros ?]).
    eapply lands_gbind; [apply lands_does | intros _].
    eapply lands_gbind; [by apply lands_defer | intros _].
    eapply lands_gbind; [apply lands_does | intros _].
    eapply lands_gbind; [by apply lands_defer | intros _].
    eapply lands_gbind.
    { apply lands_quiet. destruct argsFlags as [flags |]; [| apply quiet_greturn].
      apply quiet_gbind; [apply quiet_lift | intros ?].
      apply quiet_gbind; [apply quiet_lift | intros ?].
      apply quiet_mergeArgsFromFiles. }
    intros externalArgs.
    eapply lands_gbind; [apply lands_does | intros _].
    eapply lands_gbind; [apply lands_quiet, quiet_lift | intros _].
    eapply lands_gbind; [apply lands_does | intros _].
    apply lands_quiet, quiet_lift.
  - intros k Hk. cbn in Hk.
    repeat (apply elem_of_cons in Hk as [-> | Hk]);
      first [by apply elem_of_nil in Hk | repeat constructor].
Qed.

End lands.

Theorem teardown_in_reverse projectFlags argsFlags internalDeploy
    strictTemplates cb :
  let r := invoke (withKluctlProjectFromArgs projectFlags argsFlags
                     internalDeploy strictTemplates cb) in
  match os_MkdirTemp "project-" with
  | inr e =>
      teardown r = []
      ∧ returned r
        = inr (wrapError "creating temporary project directory failed" e)
  | inl tmp =>
      teardown r ∈ shapes tmp
      ∧ last (teardown r) = Some (RemoveAll tmp)
      ∧ (∀ u, returned r = inl u → teardown r = stack tmp 5%nat)
  end.
Proof.
  cbn zeta. unfold invoke, teardown, returned, withKluctlProjectFromArgs.
  destruct (os_MkdirTemp "project-") as [tmp | e]; [| done].
  pose proof (lands_body tmp projectFlags argsFlags internalDeploy
                strictTemplates cb) as Hbody.
  match goal with
  | |- context [gbind (does (MkdirTemp _)) ?k] =>
      change (gbind (does (MkdirTemp "project-")) k (mkFrame [] []))
        with (k tt (mkFrame [MkdirTemp "project-"] []))
  end.
  cbn beta.
  match goal with
  | |- context [gbind (defer (RemoveAll tmp)) ?k ?f] =>
      change (gbind (defer (RemoveAll tmp)) k f)
        with (k tt (mkFrame [MkdirTemp "project-"] [RemoveAll tmp]))
  end.
  cbn beta.
  specialize (Hbody (mkFrame [MkdirTemp "project-"] [RemoveAll tmp]) eq_refl).
  match type of Hbody with
  | context [(?m ?f).1] => destruct (m f) as [[u | e] f'] eqn:Hrun
  end; cbn in Hbody |- *.
  - rewrite Hbody. split; [unfold shapes; repeat constructor |]. done.
  - destruct Hbody as (n & Hn & ->).
    repeat (apply elem_of_cons in Hn as [-> | Hn]);
      first [by apply elem_of_nil in Hn
            | split; [unfold shapes; repeat constructor | done]].
Qed.

Lemma parseRepoOverride_result_frame s isGroup allowLegacy f1 f2 :
  (parseRepoOverride s isGroup allowLegacy f1).1
  = (parseRepoOverride s isGroup allowLegacy f2).1.
Proof. unfold parseRepoOverride. repeat case_match; done. Qed.

Lemma parseRepoOverride_accepted s isGroup allowLegacy f ro :
  (parseRepoOverride s isGroup allowLegacy f).1 = inl ro →
  IsGroup ro = isGroup
  ∧ ∃ sp0, gostrings.SplitN2 "="%char s = Some (sp0, Override ro).
Proof.
  unfold parseRepoOverride.
  destruct (gostrings.SplitN2 "="%char s) as [[sp0 sp1] |]; cbn; [| done].
  repeat case_match; cbn; try done; intros [= <-]; (split; [done |]);
    by exists sp0.
Qed.

(** Every entry of an override flag gives one override, appended in the
    order of the entries and marked with the flag's group bit; the first
    refused entry ends the loop and is reported under the flag's name. *)
Theorem appendOverrides_appends xs isGroup allowLegacy flag overrides f :
  match (appendOverrides xs isGroup allowLegacy flag overrides f).1 with
  | inl r =>
      ∃ news, r = overrides ++ news
              ∧ Forall2 (λ x ro, (parseRepoOverride x isGroup allowLegacy f).1
                                 = inl ro) xs news
  | inr e =>
      ∃ before x after err,
        xs = before ++ x :: after
        ∧ Forall (λ y, ∃ ro, (parseRepoOverride y isGroup allowLegacy f).1
                             = inl ro) before
        ∧ (parseRepoOverride x isGroup allowLegacy f).1 = inr err
        ∧ e = wrapError ("invalid " +:+ flag) err
  end.
Proof.
  revert overrides f. induction xs as [|x xs IH]; intros overrides f.
  - cbn. exists []. by rewrite app_nil_r.
  - cbn [appendOverrides].
    destruct (parseRepoOverride x isGroup allowLegacy f) as [[ro | e] f'] eqn:Hp.
    + specialize (IH (overrides ++ [ro]) f').
      destruct (appendOverrides xs isGroup allowLegacy flag (overrides ++ [ro]) f').1
        as [r | e].
      * destruct IH as (news & -> & Hall).
        exists (ro :: news). rewrite <- app_assoc. split; [done |].
        constructor; [by rewrite Hp |].
        eapply Forall2_impl; [exact Hall |]. intros y ro' <-.
        apply parseRepoOverride_result_frame.
      * destruct IH as (before & y & after & err & -> & Hbefore & Hy & ->).
        exists (x :: before), y, after, err. split; [done |].
        split; [| split; [| done]].
        -- constructor; [exists ro; by rewrite Hp |].
           eapply Forall_impl; [exact Hbefore |]. intros z [ro' Hz].
           exists ro'. rewrite <- Hz. apply parseRepoOverride_result_frame.
        -- rewrite <- Hy. apply parseRepoOverride_result_frame.
    + cbn. exists [], x, xs, e. split; [done |]. split; [constructor |].
      split; [by rewrite Hp | done].
Qed.

Lemma avoids_greturn {A} c (x : A) : avoids c (greturn x).
Proof. by intros f. Qed.

Lemma avoids_gfail {A} c e : avoids c (gfail (A:=A) e).
Proof. by intros f. Qed.

Lemma avoids_lift {A} c (r : A + error) : avoids c (lift r).
Proof. by intros f. Qed.

Lemma avoids_defer c d : avoids c (defer d).
Proof. by intros f. Qed.

Lemma avoids_does c d : d ≠ c → avoids c (does d).
Proof.
  intros Hd f Hf. cbn. rewrite elem_of_app, list_elem_of_singleton.
  intros [? | ?]; done.
Qed.

Lemma avoids_gbind {A B} c (m : G A) (k : A → G B) :
  avoids c m → (∀ x, avoids c (k x)) → avoids c (gbind m k).
Proof.
  intros Hm Hk f Hf. unfold gbind. specialize (Hm f Hf).
  destruct (m f) as [[x | e] f']; cbn in *; [by apply Hk | done].
Qed.

Ltac avoids_step :=
  match goal with
  | |- avoids _ (gbind _ _) => apply avoids_gbind; [| intros ?]
  | |- avoids _ (match ?x with _ => _ end) => destruct x
  | |- avoids _ (does _) => apply avoids_does; discriminate
  | |- avoids _ (defer _) => apply avoids_defer
  | |- avoids _ (lift _) => apply avoids_lift
  | |- avoids _ (greturn _) => apply avoids_greturn
  | |- avoids _ (gfail _) => apply avoids_gfail
  end.

Lemma avoids_parseRepoOverride s isGroup allowLegacy :
  avoids Callback (parseRepoOverride s isGroup allowLegacy).
Proof. unfold parseRepoOverride. repeat avoids_step. Qed.

Lemma avoids_appendOverrides xs isGroup allowLegacy flag overrides :
  avoids Callback (appendOverrides xs isGroup allowLegacy flag overrides).
Proof.
  revert overrides. induction xs as [|x xs IH]; intros overrides; cbn.
  - apply avoids_greturn.
  - intros f Hf.
    pose proof (avoids_parseRepoOverride x isGroup allowLegacy f Hf) as Hp.
    destruct (parseRepoOverride x isGroup allowLegacy f) as [[ro | e] f']; cbn in *.
    + by apply IH.
    + done.
Qed.

Lemma avoids_mergeArgsFromFiles files externalArgs :
  avoids Callback (mergeArgsFromFiles files externalArgs).
Proof.
  revert externalArgs. induction files as [|file files IH]; intros externalArgs; cbn.
  - apply avoids_greturn.
  - apply avoids_gbind; [apply avoids_lift | intros ?; apply IH].
Qed.

Lemma triple_gbind {A B} P (m : G A) Q E (k : A → G B) R :
  triple P m Q E → (∀ x, triple (Q x) (k x) R E) → triple P (gbind m k) R E.
Proof.
  intros Hm Hk f Hf. unfold gbind. specialize (Hm f Hf).
  destruct (m f) as [[x | e] f']; cbn in *; [by apply Hk | done].
Qed.

Lemma triple_avoids {A} c (m : G A) (E : error → frame → Prop) :
  avoids c m → (∀ e f, c ∉ made f → E e f) →
  triple (λ f, c ∉ made f) m (λ _ f, c ∉ made f) E.
Proof.
  intros Hm HE f Hf. specialize (Hm f Hf).
  destruct (m f) as [[x | e] f']; cbn in *; [done | by apply HE].
Qed.

(** The callback runs last and at most once, after every step before it
    succeeded, and its result is the function's: when the callback was
    called the function returns what it returned, and when it was not the
    function returns an error. *)
Theorem callback_result_is_returned projectFlags argsFlags internalDeploy
    strictTemplates cb :
  let r := invoke (withKluctlProjectFromArgs projectFlags argsFlags
                     internalDeploy strictTemplates cb) in
  (Callback ∈ body_calls r →
     returned r = cb ∧ last (body_calls r) = Some Callback
     ∧ timesCalled Callback (body_calls r) = 1%nat)
  ∧ (Callback ∉ body_calls r → ∃ e, returned r = inr e).
Proof.
  set (E := λ (e : error) (f : frame),
              Callback ∉ made f
              ∨ (cb = inr e ∧ ∃ l, made f = l ++ [Callback] ∧ Callback ∉ l)).
  set (Q := λ (x : unit) (f : frame),
              cb = inl x ∧ ∃ l, made f = l ++ [Callback] ∧ Callback ∉ l).
  assert (triple (λ f, Callback ∉ made f)
            (withKluctlProjectFromArgs projectFlags argsFlags internalDeploy
               strictTemplates cb) Q E) as Hrun.
  { assert (∀ e f, Callback ∉ made f → E e f) as HE by (intros; by left).
    unfold withKluctlProjectFromArgs.
    eapply triple_gbind;
      [apply triple_avoids; [repeat avoids_step | exact HE] | intros ?].
    destruct (os_MkdirTemp "project-") as [tmp | e];
      [| intros f Hf; by left].
    do 16 (eapply triple_gbind;
      [apply triple_avoids;
         [first [apply avoids_appendOverrides | repeat avoids_step] | exact HE]
      | intros ?]).
    eapply triple_gbind.
    { apply triple_avoids; [| exact HE].
      destruct argsFlags; cbn beta iota; [| apply avoids_greturn].
      repeat (apply avoids_gbind; [apply avoids_lift | intros ?]).
      apply avoids_mergeArgsFromFiles. }
    intros ?.
    do 2 (eapply triple_gbind;
      [apply triple_avoids; [repeat avoids_step | exact HE] | intros ?]).
    intros f Hf. unfold gbind, does, lift. cbn.
    destruct cb as [[] | e]; [split; [done |] | right; split; [done |]];
      by exists (made f). }
  cbn zeta. specialize (Hrun (mkFrame [] []) (not_elem_of_nil _)).
  unfold invoke, returned, body_calls.
  assert (∀ l, Callback ∉ l →
            last (l ++ [Callback]) = Some Callback
            ∧ timesCalled Callback (l ++ [Callback]) = 1%nat) as Hlast.
  { intros l Hl. split; [apply last_snoc |].
    unfold timesCalled. rewrite count_occ_app. cbn.
    rewrite list_elem_of_In in Hl.
    apply (count_occ_not_In call_eq_dec) in Hl. lia. }
  destruct (withKluctlProjectFromArgs _ _ _ _ _ _) as [[u | e] f'] eqn:Hw;
    cbn in Hrun |- *.
  - destruct Hrun as [Hcb (l & Hmade & Hl)]. rewrite Hcb, Hmade.
    split; [intros _; split; [done | by apply Hlast] |].
    intros Hnot. destruct Hnot. apply elem_of_app. right. apply list_elem_of_here.
  - destruct Hrun as [Hnot | [Hcb (l & Hmade & Hl)]].
    + split; [done |]. intros _. by exists e.
    + rewrite Hcb, Hmade.
      split; [intros _; split; [done | by apply Hlast] |].
      intros _. by exists e.
Qed.

End commands_more.

Lemma parseRepoOverride_splits_at_first_equals_witness :
  parseRepoOverride (H:=sample.collaborators)
    ("github.com/org/repo" +:+ String "="%char "/tmp/a=b") false true
    (mkFrame [] [])
  = (inl (mkOverride "github.com/org/repo" false "/tmp/a=b"), mkFrame [] []).
Proof.
  apply (parseRepoOverride_splits_at_first_equals (H:=sample.collaborators)
           "github.com/org/repo" "/tmp/a=b" "github.com/org/repo" false true
           (mkFrame [] [])).
  - vm_compute. intros Hin. repeat (apply elem_of_cons in Hin as [Hin | Hin];
      [discriminate Hin |]). by apply elem_of_nil in Hin.
  - reflexivity.
Defined.

Lemma parseRepoOverride_reports_original_error_witness :
  (parseRepoOverride (H:=legacy.collaborators) "bad:key:1=/tmp/x" false true
     (mkFrame [] [])).2 = mkFrame [] []
  ∧ ParseRepoKey (Collaborators:=legacy.collaborators) "bad:key:1"
    = inr (errorString "invalid repo key").
Proof.
  exact (parseRepoOverride_reports_original_error (H:=legacy.collaborators)
           "bad:key:1=/tmp/x" false true (mkFrame [] [])
           (errorString "invalid repo key") eq_refl).
Defined.

Lemma parseRepoOverride_deprecation_witness :
  made (parseRepoOverride (H:=legacy.collaborators)
          "example.com:group/repo=/tmp/x" false true (mkFrame [] [])).2
  = [StatusDeprecation "old-repo-override"].
Proof.
  exact (proj1 (proj2 (parseRepoOverride_deprecation (H:=legacy.collaborators)
           "example.com:group/repo=/tmp/x" false true (mkFrame [] [])
           ltac:(vm_compute; discriminate)))).
Defined.

End commands_more.

(** ** Further properties of the variable loader *)

Module vars_more.
Import vars vars_spec vars_more_spec vars_proofs.

Section vars_more.

Context {UO : Type} `{!World UO}.

Local Abbreviation store := (gmap loc (cell UO)).
Local Abbreviation V := (V UO).
Local Abbreviation extends h0 vl h := (vars_spec.extends (UO:=UO) h0 vl h).
Local Abbreviation safe h0 vl Q m := (vars_spec.safe (UO:=UO) h0 vl Q m).
Local Abbreviation outside := (vars_spec.outside (UO:=UO)).
Local Abbreviation agrees h0 h := (vars_more_spec.agrees (UO:=UO) h0 h).
Local Abbreviation reads h0 Q m := (vars_more_spec.reads (UO:=UO) h0 Q m).
Local Abbreviation atomic h0 m := (vars_more_spec.atomic (UO:=UO) h0 m).

Lemma agrees_refl h0 : agrees h0 h0.
Proof. by intros l Hl. Qed.

Lemma agrees_extends h0 vl h : agrees h0 h → extends h0 vl h.
Proof.
  intros Hh l Hl. rewrite (Hh l Hl). by split.
Qed.

Lemma extends_agrees h0 vl h : h0 !! vl = None → extends h0 vl h → agrees h0 h.
Proof.
  intros Hvl Hh l Hl. apply Hh; [done |]. intros ->.
  rewrite Hvl in Hl. by destruct Hl.
Qed.

(** A step that is safe whatever the variables are behind writes to
    nothing of [h0]. *)
Lemma reads_safe h0 {A} (Q : A → Prop) (m : V A) :
  (∀ vl, safe h0 vl Q m) → reads h0 Q m.
Proof.
  intros Hm h Hh.
  assert (h0 !! fresh (dom h0) = None) as Hfresh
    by (apply not_elem_of_dom, is_fresh).
  destruct (Hm (fresh (dom h0)) h (agrees_extends _ _ _ Hh)) as [Hext HQ].
  split; [by eapply extends_agrees | done].
Qed.

Lemma atomic_reads h0 {A} (Q : A → Prop) (m : V A) : reads h0 Q m → atomic h0 m.
Proof. intros Hm h Hh e _. by apply Hm. Qed.

Lemma atomic_vbind h0 {A B} (Q : A → Prop) (m : V A) (f : A → V B) :
  reads h0 Q m → (∀ x, Q x → atomic h0 (f x)) → atomic h0 (vbind m f).
Proof.
  intros Hm Hf h Hh e. unfold vbind. destruct (Hm h Hh) as [Hagree HQ].
  destruct (m h) as [[x | e'] h']; cbn in *.
  - by apply Hf; [apply HQ |].
  - done.
Qed.

Lemma atomic_vret h0 {A} (x : A) : atomic h0 (vret x).
Proof. by intros h Hh e. Qed.

Lemma atomic_vfail h0 {A} e : atomic h0 (vfail (A:=A) e).
Proof. by intros h Hh e'. Qed.

Lemma reads_load h0 l : reads h0 anything (load l).
Proof. apply reads_safe. intros vl. apply safe_load. Qed.

Lemma reads_loadObject h0 l : reads h0 anything (loadObject l).
Proof. apply reads_safe. intros vl. apply safe_loadObject. Qed.

Lemma reads_loadBool h0 l : reads h0 anything (loadBool l).
Proof. apply reads_safe. intros vl. apply safe_loadBool. Qed.

Lemma reads_loadString h0 l : reads h0 anything (loadString l).
Proof. apply reads_safe. intros vl. apply safe_loadString. Qed.

Lemma reads_loadGitFile h0 l : reads h0 anything (loadGitFile l).
Proof. apply reads_safe. intros vl. apply safe_loadGitFile. Qed.

Lemma reads_loadClusterObject h0 l : reads h0 anything (loadClusterObject l).
Proof. apply reads_safe. intros vl. apply safe_loadClusterObject. Qed.

Lemma reads_vlift h0 {A} (r : A + error) : reads h0 anything (vlift r).
Proof. apply reads_safe. intros vl. apply safe_vlift. Qed.

Lemma reads_vret h0 {A} (x : A) : reads h0 anything (vret x).
Proof. apply reads_safe. intros vl. apply safe_vret_any. Qed.

Lemma reads_DeepCopy h0 sourceIn :
  reads h0 (λ s, Forall (outside h0) (pointers s)) (DeepCopy sourceIn).
Proof. apply reads_safe. intros vl. apply safe_DeepCopy. Qed.

Lemma reads_RenderStruct h0 globals source :
  Forall (outside h0) (pointers source) →
  reads h0 anything (RenderStruct globals source).
Proof.
  intros Hsource. apply reads_safe. intros vl. by apply safe_renderPointees.
Qed.

Section loaders.

Variable h0 : store.
Variable varsCtx : VarsCtx.

Create HintDb atomic.
#[local] Hint Resolve reads_load reads_loadObject reads_loadBool reads_loadString
  reads_loadGitFile reads_loadClusterObject reads_vlift reads_vret
  atomic_vret atomic_vfail : atomic.

Ltac atomic_step :=
  match goal with
  | |- vars_more_spec.atomic _ (vbind _ _) =>
      eapply atomic_vbind; [solve [eauto with atomic] | intros ? ?]
  | |- vars_more_spec.atomic _ (match ?x with _ => _ end) => destruct x
  | |- vars_more_spec.atomic _ _ => solve [eauto with atomic]
  end.

Lemma atomic_mergeVars newVars rootKey :
  atomic h0 (mergeVars varsCtx newVars rootKey).
Proof.
  unfold mergeVars. eapply atomic_vbind; [apply reads_loadObject | intros cur _].
  intros h Hh e. by destruct (bool_decide (rootKey = "")).
Qed.

#[local] Hint Resolve atomic_mergeVars : atomic.

Lemma atomic_mergeUnderRoot newVars rootKey noRoot :
  atomic h0 (mergeUnderRoot varsCtx newVars rootKey noRoot).
Proof. unfold mergeUnderRoot. repeat atomic_step. Qed.

#[local] Hint Resolve atomic_mergeUnderRoot : atomic.

Lemma atomic_loadFile path ignoreMissing searchDirs rootKey :
  atomic h0 (loadFile varsCtx path ignoreMissing searchDirs rootKey).
Proof. unfold loadFile. repeat atomic_step. Qed.

Lemma reads_renderYamlString s : reads h0 anything (renderYamlString varsCtx s).
Proof.
  apply reads_safe. intros vl. apply safe_weaken with (Q := anything); [| done].
  unfold renderYamlString.
  eapply safe_vbind; [apply safe_loadObject | intros ? _].
  eapply safe_vbind; [apply safe_vlift | intros ? _].
  apply safe_vlift.
Qed.

#[local] Hint Resolve atomic_loadFile reads_renderYamlString : atomic.

Lemma atomic_loadFromString s secretType rootKey :
  atomic h0 (loadFromString varsCtx s secretType rootKey).
Proof. unfold loadFromString. repeat atomic_step. Qed.

#[local] Hint Resolve atomic_loadFromString : atomic.

Lemma atomic_loadSystemEnvs source ignoreMissing rootKey :
  atomic h0 (loadSystemEnvs varsCtx source ignoreMissing rootKey).
Proof. unfold loadSystemEnvs. repeat atomic_step. Qed.

Lemma atomic_loadAwsSecretsManager v source ignoreMissing rootKey :
  atomic h0 (loadAwsSecretsManager v varsCtx source ignoreMissing rootKey).
Proof. unfold loadAwsSecretsManager. repeat atomic_step. Qed.

Lemma atomic_loadVault source ignoreMissing rootKey :
  atomic h0 (loadVault varsCtx source ignoreMissing rootKey).
Proof. unfold loadVault. repeat atomic_step. Qed.

Lemma atomic_loadHttp source ignoreMissing rootKey :
  atomic h0 (loadHttp varsCtx source ignoreMissing rootKey).
Proof. unfold loadHttp. repeat atomic_step. Qed.

Lemma atomic_loadGit gitFile ignoreMissing rootKey :
  atomic h0 (loadGit varsCtx gitFile ignoreMissing rootKey).
Proof. unfold loadGit. repeat atomic_step. Qed.

Lemma atomic_loadFromK8sObject v varsSource kind key rootKey ignoreMissing
    base64Decode :
  atomic h0 (loadFromK8sObject v varsCtx varsSource kind key rootKey
               ignoreMissing base64Decode).
Proof.
  unfold loadFromK8sObject. cbn zeta.
  repeat atomic_step.
  all: intros h Hh e;
    pose proof (atomic_loadFromString s "k8s" rootKey h Hh) as Hs;
    destruct (loadFromString varsCtx s "k8s" rootKey h) as [[[] | e'] h'];
    cbn in *; [done | intros _; by eapply Hs].
Qed.

#[local] Hint Resolve atomic_loadSystemEnvs atomic_loadAwsSecretsManager
  atomic_loadVault atomic_loadHttp atomic_loadGit atomic_loadFromK8sObject
  : atomic.

Lemma atomic_LoadVars v sourceIn searchDirs rootKey :
  atomic h0 (LoadVars v varsCtx sourceIn searchDirs rootKey).
Proof.
  unfold LoadVars.
  eapply atomic_vbind; [apply reads_DeepCopy | intros source Hsource].
  eapply atomic_vbind; [apply reads_loadObject | intros vars _].
  eapply atomic_vbind; [apply reads_vlift | intros globals _].
  eapply atomic_vbind; [by apply reads_RenderStruct | intros _ _].
  eapply atomic_vbind.
  { instantiate (1 := anything). destruct (IgnoreMissing source); eauto with atomic. }
  intros ignoreMissing _.
  repeat atomic_step.
Qed.

End loaders.

(** A failed [LoadVars] changes nothing the caller holds: whatever the
    source and wherever the call fails, every location of the caller's store
    holds after the call what it held before, the variables behind
    [varsCtx.Vars] included. *)
Theorem failed_LoadVars_changes_nothing
    (v : VarsLoader) (varsCtx : VarsCtx) (sourceIn : loc)
    (searchDirs : list string) (rootKey : string) (h : store) (e : error) :
  (LoadVars v varsCtx sourceIn searchDirs rootKey h).1 = inr e →
  ∀ l, is_Some (h !! l) →
       (LoadVars v varsCtx sourceIn searchDirs rootKey h).2 !! l = h !! l.
Proof.
  intros Hfail.
  exact (atomic_LoadVars h varsCtx v sourceIn searchDirs rootKey h
           (agrees_refl h) e Hfail).
Qed.

Lemma safe_LoadVarsList h0 v varsCtx varsList searchDirs rootKey :
  safe h0 (Vars varsCtx) anything
    (LoadVarsList v varsCtx varsList searchDirs rootKey).
Proof.
  induction varsList as [|source varsList IH]; cbn [LoadVarsList].
  - apply safe_vret_any.
  - eapply safe_vbind; [apply safe_LoadVars | intros _ _; exact IH].
Qed.

(** [LoadVarsList] writes to one location of the caller's store only, the
    object behind [varsCtx.Vars]: every other location the caller holds,
    and so every source that does not reach that object, those of the list
    included, holds after the call what it held before, whether the call
    fails or not. *)
Theorem LoadVarsList_leaves_sources_unchanged
    (v : VarsLoader) (varsCtx : VarsCtx) (varsList : list loc)
    (searchDirs : list string) (rootKey : string) (h : store)
    (sourceIn : loc) :
  allocated h sourceIn →
  Vars varsCtx ∉ footprint h sourceIn →
  let h' := (LoadVarsList v varsCtx varsList searchDirs rootKey h).2 in
  snapshot h' sourceIn = snapshot h sourceIn
  ∧ (∀ l, is_Some (h !! l) → l ≠ Vars varsCtx → h' !! l = h !! l).
Proof.
  intros Halloc Hvars h'.
  destruct (safe_LoadVarsList h v varsCtx varsList searchDirs rootKey h
              (extends_refl h (Vars varsCtx))) as [Hext _].
  fold h' in Hext.
  assert (∀ l, l ∈ footprint h sourceIn → h' !! l = h !! l) as Hsame.
  { intros l Hl. apply Hext.
    - unfold allocated in Halloc. rewrite Forall_forall in Halloc. by apply Halloc.
    - intros ->. done. }
  split.
  - assert (footprint h' sourceIn = footprint h sourceIn) as Hfoot.
    { unfold footprint. rewrite Hsame; [done |]. unfold footprint.
      apply list_elem_of_here. }
    unfold snapshot. rewrite Hfoot.
    apply list_fmap_ext. intros i l Hl. f_equal. apply Hsame.
    by eapply list_elem_of_lookup_2.
  - intros l Hl Hne. by apply Hext.
Qed.

(** Loading a list of sources is loading its parts one after the other, and
    the first failure ends it: the sources after a failed one are not
    loaded, and the error is the failed source's. *)
Theorem LoadVarsList_app
    (v : VarsLoader) (varsCtx : VarsCtx) (xs ys : list loc)
    (searchDirs : list string) (rootKey : string) (h : store) :
  LoadVarsList v varsCtx (xs ++ ys) searchDirs rootKey h
  = match LoadVarsList v varsCtx xs searchDirs rootKey h with
    | (inl _, h') => LoadVarsList v varsCtx ys searchDirs rootKey h'
    | (inr e, h') => (inr e, h')
    end.
Proof.
  revert h. induction xs as [|x xs IH]; intros h; [done |].
  cbn [LoadVarsList app]. unfold vbind.
  destruct (LoadVars v varsCtx x searchDirs rootKey h) as [[[] | e] h1];
    [apply IH | done].
Qed.

(** A source with no field set is refused: when the variables so far can
    be read, [LoadVars] fails with "invalid vars source" and leaves the
    store as it was. *)
Theorem LoadVars_empty_source_is_invalid
    (v : VarsLoader) (varsCtx : VarsCtx) (sourceIn : loc)
    (searchDirs : list string) (rootKey : string) (h : store)
    (cur globals : UO) :
  h !! sourceIn = Some (CSource emptySource) →
  h !! Vars varsCtx = Some (CObject cur) →
  uo_ToMap cur = inl globals →
  LoadVars v varsCtx sourceIn searchDirs rootKey h
  = (inr (errorString "invalid vars source"), h).
Proof.
  intros Hsource Hvars Hmap.
  unfold LoadVars, DeepCopy, loadObject, vbind, load, vlift, vret, vfail.
  rewrite Hsource. cbn. rewrite Hvars, Hmap. done.
Qed.

(** A [values] source is merged rendered, and the caller's values stay as
    they were: the object merged into the variables is the source's values
    rendered with the variables so far as globals, under [rootKey] when one
    is given, while the location the caller's source points to still holds
    the unrendered values. *)
Theorem LoadVars_values_merges_rendered
    (v : VarsLoader) (varsCtx : VarsCtx) (sourceIn values : loc)
    (searchDirs : list string) (rootKey : string) (h : store)
    (cur globals vals rendered : UO) :
  h !! sourceIn = Some (CSource (valuesSource values)) →
  h !! values = Some (CObject vals) →
  h !! Vars varsCtx = Some (CObject cur) →
  values ≠ Vars varsCtx →
  uo_ToMap cur = inl globals →
  RenderObject globals vals = inl rendered →
  let r := LoadVars v varsCtx sourceIn searchDirs rootKey h in
  r.1 = inl tt
  ∧ r.2 !! Vars varsCtx
    = Some (CObject (if bool_decide (rootKey = "") then uo_Merge cur rendered
                     else uo_MergeChild rootKey cur rendered))
  ∧ r.2 !! values = Some (CObject vals).
Proof.
  intros Hsource Hvalues Hvars Hne Hmap Hrender.
  pose proof (is_fresh (dom h)) as Hfresh.
  set (l' := fresh (dom h)) in *.
  assert (l' ≠ Vars varsCtx) as Hl1.
  { intros Heq. apply Hfresh. rewrite Heq. apply elem_of_dom. by eexists. }
  assert (l' ≠ values) as Hl2.
  { intros Heq. apply Hfresh. rewrite Heq. apply elem_of_dom. by eexists. }
  cbn zeta.
  unfold LoadVars, DeepCopy, copyPointee, RenderStruct, renderPointees,
    renderPointee, pointers, valuesSource, mergeVars, loadObject, vbind, load,
    vlift, vret, vfail, alloc, storeAt.
  rewrite Hsource. cbn. rewrite Hvalues. cbn. fold l'.
  rewrite lookup_insert_ne by done. rewrite Hvars, Hmap. cbn.
  rewrite lookup_insert_eq. cbn. rewrite Hrender. cbn.
  rewrite lookup_insert_eq. rewrite !lookup_insert_ne by done. rewrite Hvars.
  destruct (bool_decide (rootKey = "")); cbn;
    rewrite lookup_insert_eq, !lookup_insert_ne by done; done.
Qed.

End vars_more.

Import vars.sample vars_more_spec.sample.

Lemma failed_LoadVars_changes_nothing_witness :
  (LoadVars loader varsCtx sourceIn ["/project"] "" emptyHeap).2 !! Vars varsCtx
  = emptyHeap !! Vars varsCtx.
Proof.
  apply (failed_LoadVars_changes_nothing loader varsCtx sourceIn ["/project"] ""
           emptyHeap (errorString "invalid vars source")).
  - vm_compute. reflexivity.
  - eexists. vm_compute. reflexivity.
Defined.

Lemma LoadVarsList_leaves_sources_unchanged_witness :
  snapshot (LoadVarsList loader varsCtx [sourceIn; sourceIn] ["/project"] ""
              heap).2 sourceIn
  = snapshot heap sourceIn.
Proof.
  assert (allocated heap sourceIn) as Halloc.
  { unfold allocated. repeat constructor; eexists; vm_compute; reflexivity. }
  assert (Vars varsCtx ∉ footprint heap sourceIn) as Hvars.
  { intros Hin. vm_compute in Hin.
    repeat (apply elem_of_cons in Hin as [Hin | Hin]; [discriminate |]).
    by apply elem_of_nil in Hin. }
  exact (proj1 (LoadVarsList_leaves_sources_unchanged loader varsCtx
                  [sourceIn; sourceIn] ["/project"] "" heap sourceIn
                  Halloc Hvars)).
Defined.

Lemma LoadVars_empty_source_is_invalid_witness :
  LoadVars loader varsCtx sourceIn ["/project"] "" emptyHeap
  = (inr (errorString "invalid vars source"), emptyHeap).
Proof.
  exact (LoadVars_empty_source_is_invalid loader varsCtx sourceIn ["/project"]
           "" emptyHeap [("env", "prod")] [("env", "prod")]
           eq_refl eq_refl eq_refl).
Defined.

Lemma LoadVars_values_merges_rendered_witness :
  (LoadVars loader varsCtx sourceIn ["/project"] "" valuesHeap).2 !! Vars varsCtx
  = Some (CObject [("name", "<{{ env }}-app>"); ("env", "prod")]).
Proof.
  exact (proj1 (proj2 (LoadVars_values_merges_rendered loader varsCtx sourceIn
           2%positive ["/project"] "" valuesHeap
           [("env", "prod")] [("env", "prod")] [("name", "{{ env }}-app")]
           [("name", "<{{ env }}-app>")]
           eq_refl eq_refl eq_refl ltac:(discriminate) eq_refl eq_refl))).
Defined.

End vars_more.

(** ** Properties of the target context *)

Module target_proofs.
Import errors target target_spec.

(** Running the function on its paths: the collaborators' answers are
    taken one at a time, in the order the function asks for them. *)
Ltac path_step :=
  match goal with
  | |- context [match ?x with _ => _ end] =>
      lazymatch x with
      | context [match _ with _ => _ end] => fail
      | context [if _ then _ else _] => fail
      | _ => destruct x eqn:?
      end
  | |- context [if ?x then _ else _] =>
      lazymatch x with
      | context [match _ with _ => _ end] => fail
      | context [if _ then _ else _] => fail
      | _ => destruct x eqn:?
      end
  end.

Ltac paths :=
  unfold invoke, returned, body_calls, teardown, withProjectTargetCommandContext,
    initStores, dryRunOf, tbind, lift, does, defer, treturn, tfail;
  cbn;
  repeat (path_step; cbn).

(** Settling a statement about the calls of one path. *)
Ltac members :=
  repeat match goal with
         | H : _ ∈ [] |- _ => by apply elem_of_nil in H
         | H : _ ∈ _ :: _ |- _ => apply elem_of_cons in H as [H | H]
         end.

Ltac on_path_with tac :=
  repeat split; repeat intro; repeat split;
  first
    [ done
    | members; subst; cbn in *; first [done | congruence | tac]
    | match goal with
      | H : _ ∉ _ |- _ => exfalso; apply H; repeat constructor
      end ].

Ltac on_path := on_path_with fail.

Section target_proofs.
Context `{!Objects} `{!World}.

(** A run against the live cluster happens on request only: a call that
    carries the dry-run setting [false] (loading the cluster configuration,
    building the cluster client, building the target context) is made only
    when dry-run flags are given, they say no dry run, and the command does
    not run for completion. *)
Theorem live_run_only_on_request (a : projectTargetCommandArgs)
    (p : LoadedKluctlProject) (cb : commandCtx → unit + error) (c : call) :
  c ∈ body_calls (invoke (withProjectTargetCommandContext a p cb)) →
  dryRunSent c = Some false →
  asksForLiveRun a.
Proof.
  assert (dryRunOf a = false → asksForLiveRun a) as Hlive.
  { unfold dryRunOf, asksForLiveRun. destruct (dryRunArgs a) as [flags |]; [| done].
    intros [? ?]%orb_false_iff. by exists flags. }
  destruct (dryRunOf a) eqn:Hdry; [| intros _ _; by apply Hlive].
  clear Hlive. revert Hdry.
  paths.
  all: intros Hdry Hc Hsent;
    repeat (apply elem_of_cons in Hc as [-> | Hc]; [try done |]);
    try (by apply elem_of_nil in Hc); cbn in Hsent; congruence.
Qed.

(** The directory for rendered output is temporary only when none is
    given, and a temporary one is removed on return. With a directory given
    nothing is created or removed and the given directory is what every
    call is handed. With none given, once the temporary directory is
    created under the project's temporary directory, every later call is
    handed it and its removal is the one deferred call, on every path,
    failing ones included; when its creation fails, that error is returned
    and nothing is removed. *)
Theorem render_dir_is_removed (a : projectTargetCommandArgs)
    (p : LoadedKluctlProject) (cb : commandCtx → unit + error) :
  let r := invoke (withProjectTargetCommandContext a p cb) in
  let given := args.RenderOutputDir (renderOutputDirFlags a) in
  if bool_decide (given = "") then
    match os_MkdirTemp (TmpDir p) "rendered" with
    | inl tmp =>
        (∀ c dir, c ∈ body_calls r → renderDirSent c = Some dir → dir = tmp)
        ∧ (MkdirTemp (TmpDir p) "rendered" ∈ body_calls r →
             teardown r = [RemoveAll tmp])
        ∧ (MkdirTemp (TmpDir p) "rendered" ∉ body_calls r →
             teardown r = [] ∧ body_calls r = [])
    | inr err =>
        teardown r = []
        ∧ (MkdirTemp (TmpDir p) "rendered" ∈ body_calls r →
             returned r = inr err
             ∧ body_calls r = [MkdirTemp (TmpDir p) "rendered"])
    end
  else
    teardown r = []
    ∧ (∀ dir pattern, MkdirTemp dir pattern ∉ body_calls r)
    ∧ (∀ c dir, c ∈ body_calls r → renderDirSent c = Some dir → dir = given).
Proof.
  cbn zeta.
  destruct (bool_decide (args.RenderOutputDir (renderOutputDirFlags a) = ""))
    eqn:Hgiven.
  - destruct (os_MkdirTemp (TmpDir p) "rendered") as [tmp | err] eqn:Hmk.
    + paths; rewrite ?Hgiven, ?Hmk; cbn; repeat (path_step; cbn); on_path.
    + paths; rewrite ?Hgiven, ?Hmk; cbn; repeat (path_step; cbn); on_path.
  - paths; rewrite ?Hgiven; cbn; repeat (path_step; cbn); on_path.
Qed.

(** The cluster client and the store of command results are used only
    once they exist. The store is built, and handed to the callback, only
    when the command asks for its result to be written and after the
    cluster client was built; a target context is given a cluster client
    only after the client was built; and the status line opened for
    building the client is always closed: with success, or else with
    failure as the last call before the error is returned. *)
Theorem cluster_is_built_before_use (a : projectTargetCommandArgs)
    (p : LoadedKluctlProject) (cb : commandCtx → unit + error) :
  let r := invoke (withProjectTargetCommandContext a p cb) in
  (∀ c, c ∈ body_calls r → usesResultStore c = true →
        asksForResult a ∧ StatusSuccess ∈ body_calls r)
  ∧ (∀ d dir, NewTargetContext true d dir ∈ body_calls r →
              StatusSuccess ∈ body_calls r)
  ∧ (∀ msg, StatusStart msg ∈ body_calls r →
            (StatusSuccess ∈ body_calls r ∧ StatusFailed ∉ body_calls r)
            ∨ (last (body_calls r) = Some StatusFailed
               ∧ (StatusSuccess ∉ body_calls r)
               ∧ ∃ e, returned r = inr e)).
Proof.
  cbn zeta. unfold asksForResult.
  paths.
  all: on_path_with
         ltac:(first
           [ eexists; split; [reflexivity | by apply negb_false_iff]
           | by repeat constructor
           | left; split; [by repeat constructor | intros ?; members; done]
           | right; split; [done |];
             split; [intros ?; members; done | by eexists] ]).
Qed.

End target_proofs.

Import sample.

Lemma live_run_only_on_request_witness : asksForLiveRun liveArgs.
Proof.
  apply (live_run_only_on_request liveArgs "/tmp/project" (λ _, inl tt)
           (NewK8sCluster false)).
  - vm_compute. repeat constructor.
  - reflexivity.
Defined.

End target_proofs.
